(** * Post-EEG comparison calculator: the financial core of [posteeg_app.py]

    The Python source works on [float], which is IEEE 754 binary64 with
    round-to-nearest-even.  Rocq's primitive floats are the same format with
    the same rounding, so every function of the core is embedded over
    [PrimFloat.float], operation for operation, and can be run with
    [vm_compute].  General facts are derived from the reference semantics
    [SpecFloat] through the equations of [FloatAxioms]; for them every float
    is read as a real number ([B64.value]). *)

From Stdlib Require Import Ascii NArith DecimalString.
From Stdlib Require Import Floats ZArith List Bool String Lia Reals Lra.
Import ListNotations.

Local Open Scope float_scope.

Arguments powerRZ : simpl never.

(** ** Python built-ins used by the source *)

Module Py.

(** [min(a, b)] keeps its first argument unless the second is smaller. *)
Definition min (a b : float) : float := if b <? a then b else a.

(** [max(a, b)] keeps its first argument unless the second is greater. *)
Definition max (a b : float) : float := if a <? b then b else a.

(** [float(n)], and the implicit conversion in [float * int], for the small
    non-negative integers of the source (exact below [2^53]). *)
Definition float_of_int (n : Z) : float := of_uint63 (Uint63.of_Z n).

(** [max(iterable, key=f)]: the running maximum is replaced only by an
    element whose key is strictly greater; an empty iterable raises. *)
Fixpoint max_key_from {A : Type} (key : A -> float) (best : A) (l : list A) : A :=
  match l with
  | [] => best
  | x :: l' => max_key_from key (if key best <? key x then x else best) l'
  end.

Definition max_key {A : Type} (key : A -> float) (l : list A) : option A :=
  match l with
  | [] => None
  | x :: l' => Some (max_key_from key x l')
  end.

End Py.

(** ** Python strings, number formats and dicts

    A [str] is kept as the bytes of its UTF-8 encoding; the characters the
    source searches for and replaces are ASCII, which no multi-byte
    sequence contains.  The two format specifications of the source,
    [,.0f] and [.1f], print the correctly rounded decimal value of the
    float (ties to even on its exact binary value, the sign kept when the
    digits are all zero), and [nan], [inf], [-inf]. *)

Module PyStr.

Local Open Scope string_scope.

(** [s.replace(old, new)] for a one-character [old]. *)
Fixpoint replace_char (old : ascii) (new : string) (s : string) : string :=
  match s with
  | EmptyString => EmptyString
  | String c s' =>
      if Ascii.eqb c old then new ++ replace_char old new s'
      else String c (replace_char old new s')
  end.

(** [str(n)] for a natural number. *)
Definition decimal (n : N) : string := NilZero.string_of_uint (N.to_uint n).

(** The integer nearest to [m * 2^e], ties to the even one: the rounding of
    the format type [f], which works on the exact value of the float. *)
Definition round_half_even (m : positive) (e : Z) : N :=
  if (0 <=? e)%Z then Z.to_N (Z.pos m * 2 ^ e)
  else
    let d := (2 ^ (- e))%Z in
    let q := (Z.pos m / d)%Z in
    let r := (Z.pos m mod d)%Z in
    Z.to_N (match (2 * r ?= d)%Z with
            | Lt => q
            | Gt => q + 1
            | Eq => if Z.even q then q else q + 1
            end)%Z.

(** The [,] option: a comma every three digits, counted from the right.
    [group_rev] works on the reversed digits, [k] of which are already in
    the current group. *)
Fixpoint group_rev (k : nat) (l : list ascii) : list ascii :=
  match l with
  | [] => []
  | d :: l' =>
      if Nat.eqb k 3 then ","%char :: d :: group_rev 1 l'
      else d :: group_rev (S k) l'
  end.

Definition group_thousands (s : string) : string :=
  string_of_list_ascii (List.rev (group_rev 0 (List.rev (list_ascii_of_string s)))).

Definition sign (s : bool) : string := if s then "-" else EmptyString.

(** [format(x, ',.0f')] *)
Definition format_f0_grouped (x : float) : string :=
  match Prim2SF x with
  | S754_nan => "nan"
  | S754_infinity s => sign s ++ "inf"
  | S754_zero s => sign s ++ "0"
  | S754_finite s m e => sign s ++ group_thousands (decimal (round_half_even m e))
  end.

(** [format(x, '.1f')] *)
Definition format_f1 (x : float) : string :=
  match Prim2SF x with
  | S754_nan => "nan"
  | S754_infinity s => sign s ++ "inf"
  | S754_zero s => sign s ++ "0.0"
  | S754_finite s m e =>
      let n := round_half_even (10 * m) e in
      sign s ++ decimal (n / 10) ++ "." ++ decimal (n mod 10)
  end.

(** [d[k] = v] on a dict, kept as the list of its items in insertion
    order: an existing key keeps its place and takes the new value. *)
Fixpoint dict_set {V : Type} (k : string) (v : V) (d : list (string * V))
  : list (string * V) :=
  match d with
  | [] => [(k, v)]
  | (k', v') :: d' =>
      if String.eqb k k' then (k, v) :: d' else (k', v') :: dict_set k v d'
  end.

(** A dict literal or comprehension: the items are stored one by one. *)
Definition dict_of_items {V : Type} (items : list (string * V))
  : list (string * V) :=
  fold_left (fun d kv => dict_set (fst kv) (snd kv) d) items [].

(** [d.get(k)] *)
Fixpoint dict_get {V : Type} (k : string) (d : list (string * V)) : option V :=
  match d with
  | [] => None
  | (k', v') :: d' => if String.eqb k k' then Some v' else dict_get k d'
  end.

End PyStr.

(** ** Helper functions of the source *)

Definition euro_per_kwh_from_cent (cent : float) : float := cent / 100.

Definition clamp (x lo hi : float) : float := Py.max lo (Py.min hi x).

Definition compute_self_consumed_kwh (generation_kwh consumption_kwh self_pct : float) : float :=
  let self_pct := clamp self_pct 0 100 in
  let target_self := generation_kwh * (self_pct / 100) in
  Py.min target_self consumption_kwh.

(** [Optional[float]] is [option float]; [None] is the no-payback result. *)
Definition payback_years (invest annual_cashflow : float) : option float :=
  if invest <=? 0 then Some 0
  else if annual_cashflow <=? 0 then None
  else Some (invest / annual_cashflow).

(** [X] stands in for the comma while the decimal point is turned into a
    comma; then it becomes the point. *)
Definition fmt_eur (x : float) : string :=
  let s := (PyStr.format_f0_grouped x ++ " €")%string in
  PyStr.replace_char "X" "."
    (PyStr.replace_char "." ","
       (PyStr.replace_char "," "X" s)).

Definition fmt_years (x : option float) : string :=
  match x with
  | None => "—"%string
  | Some x => (PyStr.format_f1 x ++ " J")%string
  end.

(** ** The result record *)

Record Result := mkResult {
  name : string;
  invest_eur : float;
  annual_cashflow_eur : float;
  total_10y_eur : float;
  total_20y_eur : float;
  res_payback_years : option float   (* field [payback_years] of the dataclass *)
}.

(** ** The variant evaluators *)

Definition variant1_full_feed_in (generation_kwh market_value_cent : float) : Result :=
  let mv := euro_per_kwh_from_cent market_value_cent in
  let annual := generation_kwh * mv in
  let invest := 0 in
  mkResult "V1 Volleinspeisung (Marktwert)"
           invest
           annual
           (10 * annual)
           (20 * annual)
           (payback_years invest annual).

Definition variant_self_consumption
    (name : string)
    (generation_kwh consumption_kwh self_pct invest_eur retail_cent export_cent : float)
    : Result :=
  let retail := euro_per_kwh_from_cent retail_cent in
  let export_price := euro_per_kwh_from_cent export_cent in
  let self_kwh := compute_self_consumed_kwh generation_kwh consumption_kwh self_pct in
  let export_kwh := Py.max 0 (generation_kwh - self_kwh) in
  let annual := self_kwh * retail + export_kwh * export_price in
  mkResult name
           invest_eur
           annual
           (- invest_eur + 10 * annual)
           (- invest_eur + 20 * annual)
           (payback_years invest_eur annual).

Definition variant4_new_system
    (new_generation_kwh consumption_kwh self_pct invest_eur retail_cent eeg_cent : float)
    : Result :=
  let retail := euro_per_kwh_from_cent retail_cent in
  let eeg := euro_per_kwh_from_cent eeg_cent in
  let self_kwh := compute_self_consumed_kwh new_generation_kwh consumption_kwh self_pct in
  let export_kwh := Py.max 0 (new_generation_kwh - self_kwh) in
  let annual := self_kwh * retail + export_kwh * eeg in
  mkResult "V4 Neuanlage (EEG + EV)"
           invest_eur
           annual
           (- invest_eur + 10 * annual)
           (- invest_eur + 20 * annual)
           (payback_years invest_eur annual).

(** ** The module-level computation: inputs, the four results, the best one,
    the cash-flow curves *)

Module App.

(** The values read from the sidebar widgets; the three sliders return
    [int]s. *)
Record Inputs := mkInputs {
  gen_old : float;
  cons : float;
  market_ct : float;
  retail_ct : float;
  self_v2 : Z;
  inv_v2 : float;
  self_v3 : Z;
  inv_v3_umbau : float;
  battery_size_kwh : float;
  battery_price_per_kwh : float;
  inv_v4 : float;
  gen_new : float;
  self_v4 : Z;
  eeg_ct : float
}.

Definition battery_cost (i : Inputs) : float :=
  battery_size_kwh i * battery_price_per_kwh i.

Definition inv_v3 (i : Inputs) : float := inv_v3_umbau i + battery_cost i.

Definition r1 (i : Inputs) : Result :=
  variant1_full_feed_in (gen_old i) (market_ct i).

Definition r2 (i : Inputs) : Result :=
  variant_self_consumption "V2 Eigenverbrauch (ohne Speicher)"
    (gen_old i) (cons i) (Py.float_of_int (self_v2 i)) (inv_v2 i)
    (retail_ct i) (market_ct i).

Definition r3 (i : Inputs) : Result :=
  variant_self_consumption "V3 Eigenverbrauch + Speicher"
    (gen_old i) (cons i) (Py.float_of_int (self_v3 i)) (inv_v3 i)
    (retail_ct i) (market_ct i).

Definition r4 (i : Inputs) : Result :=
  variant4_new_system
    (gen_new i) (cons i) (Py.float_of_int (self_v4 i)) (inv_v4 i)
    (retail_ct i) (eeg_ct i).

Definition results (i : Inputs) : list Result := [r1 i; r2 i; r3 i; r4 i].

(** [best_20 = max(results, key=lambda x: x.total_20y_eur)] *)
Definition best_20 (results : list Result) : option Result :=
  Py.max_key total_20y_eur results.

(** [years = list(range(0, 21))] *)
Definition years : list Z := map Z.of_nat (seq 0 21).

Definition cashflow_curve (invest annual : float) : list float :=
  map (fun y => - invest + annual * Py.float_of_int y) years.

(** The columns of [df_line], keyed by variant name, indexed by [years]. *)
Definition df_line (results : list Result) : list (string * list float) :=
  map (fun r => (name r, cashflow_curve (invest_eur r) (annual_cashflow_eur r))) results.

(** The sidebar defaults. *)
Definition defaults : Inputs :=
  mkInputs 4500 4000 3.5 32 30 1200 60 1200 8 500 16000 7000 35 8.

End App.

(** ** The comparison table and the chart data *)

Module Table.

Local Open Scope string_scope.

Definition metrics_order : list string :=
  [ "Invest";
    "Summe 10 Jahre";
    "Summe 20 Jahre";
    "Amortisation";
    "Vorteil/Ertrag pro Jahr" ].

(** The column of one variant: the dict literal of the loop body. *)
Definition column (r : Result) : list (string * string) :=
  PyStr.dict_of_items
    [ ("Invest", fmt_eur (invest_eur r));
      ("Summe 10 Jahre", fmt_eur (total_10y_eur r));
      ("Summe 20 Jahre", fmt_eur (total_20y_eur r));
      ("Amortisation", fmt_years (res_payback_years r));
      ("Vorteil/Ertrag pro Jahr", fmt_eur (annual_cashflow_eur r)) ].

(** [table_dict] after the loop over [results]. *)
Definition table_dict (results : list Result)
  : list (string * list (string * string)) :=
  fold_left (fun d r => PyStr.dict_set (name r) (column r) d) results [].

(** The dict comprehension handed to the line chart. *)
Definition line_dict (results : list Result) : list (string * list float) :=
  PyStr.dict_of_items
    (map (fun r => (name r,
                    App.cashflow_curve (invest_eur r) (annual_cashflow_eur r)))
         results).

End Table.

(** ** Properties of a result, as the specification words them *)

(** A non-negative amount: a finite float that is not below zero. *)
Definition amount (x : float) : bool := is_finite x && (0 <=? x).

(** Non-negative yearly cash flow, no payback only for a zero cash flow on
    a positive investment, and a 20-year total not below the outlay. *)
Definition sound_result (r : Result) : Prop :=
  (0 <=? annual_cashflow_eur r) = true /\
  (res_payback_years r = None ->
     (annual_cashflow_eur r =? 0) = true /\ (0 <? invest_eur r) = true) /\
  (- invest_eur r <=? total_20y_eur r) = true.

(** ** Characters of a string *)

Definition chars (s : string) : list ascii := list_ascii_of_string s.

Definition is_digit (c : ascii) : bool :=
  (Nat.leb 48 (nat_of_ascii c) && Nat.leb (nat_of_ascii c) 57)%bool.

(** ** Binary64 floats as real numbers *)

Module B64.

Local Open Scope R_scope.

Definition sgn (s : bool) : R := if s then -1 else 1.

(** The magnitude [m * 2^e]. *)
Definition F2R (m : positive) (e : Z) : R := IZR (Zpos m) * powerRZ 2 e.

(** The real number a float stands for; the infinities are placed at
    [2^1024], just outside the finite range, so that the order of floats
    is the order of these numbers. *)
Definition SF2R (x : spec_float) : R :=
  match x with
  | S754_zero _ => 0
  | S754_nan => 0
  | S754_infinity s => sgn s * powerRZ 2 1024
  | S754_finite s m e => sgn s * F2R m e
  end.

Definition value (x : float) : R := SF2R (Prim2SF x).

Definition is_nan_sf (x : spec_float) : bool :=
  match x with S754_nan => true | _ => false end.

Definition is_fin_sf (x : spec_float) : bool :=
  match x with S754_zero _ | S754_finite _ _ _ => true | _ => false end.

(** The comparison [SFcompare] makes on two positive finite floats. *)
Definition cmp_mag (m1 : positive) (e1 : Z) (m2 : positive) (e2 : Z) : comparison :=
  match Z.compare e1 e2 with
  | Lt => Lt
  | Gt => Gt
  | Eq => Pos.compare_cont Eq m1 m2
  end.

(** Some bit has been shifted out of a record. *)
Definition inex (mrs : shr_record) : bool := shr_r mrs || shr_s mrs.

(** [b] is [a] shifted right: [c] is the power of two divided by. *)
Definition Rel (c : Z) (a b : shr_record) : Prop :=
  (0 <= shr_m b)%Z /\ (c * shr_m b <= shr_m a < c * (shr_m b + 1))%Z /\
  (inex b = false <-> inex a = false /\ shr_m a = (c * shr_m b)%Z).

Ltac sf_close :=
  repeat match goal with
         | H : _ /\ _ |- _ => destruct H
         | s : bool |- _ => destruct s
         end;
  cbn [sgn SF2R is_fin_sf is_nan_sf xorb negb] in *; try discriminate; try lra;
  try (split; [reflexivity|lra]).

(** The position of [X] relative to a shift record: [shr_m] is its integer
    part, the round bit tells on which side of the half it lies and the
    sticky bit whether it is neither the integer part nor the half. *)
Definition Loc (X : R) (a : shr_record) : Prop :=
  IZR (shr_m a) <= X < IZR (shr_m a) + 1 /\
  (if shr_r a then IZR (shr_m a) + / 2 <= X else X < IZR (shr_m a) + / 2) /\
  (if shr_s a then X <> IZR (shr_m a) /\ X <> IZR (shr_m a) + / 2
   else X = IZR (shr_m a) \/ X = IZR (shr_m a) + / 2).

(** [r] is the integer nearest to [X], the even one on a tie. *)
Definition Znear (X : R) (r : Z) : Prop :=
  IZR r - / 2 <= X <= IZR r + / 2 /\
  (X = IZR r - / 2 \/ X = IZR r + / 2 -> Z.even r = true).

(** [v] is the binary64 rounding of the magnitude [X]: the nearest multiple
    of the unit [2^e] of [X], ties to even, and [2^1024] on overflow. *)
Definition Rnd (X v : R) : Prop :=
  exists (e r : Z) (X' : R),
    X = X' * powerRZ 2 e /\
    (((e = -1074)%Z /\ X' < 9007199254740992) \/
     ((-1074 < e)%Z /\ 4503599627370496 <= X' < 9007199254740992)) /\
    Znear X' r /\
    v = Rmin (IZR r * powerRZ 2 e) (powerRZ 2 1024).

(** The same for a real of either sign. *)
Definition RndS (X v : R) : Prop :=
  (0 <= X /\ Rnd X v) \/ (X <= 0 /\ Rnd (- X) (- v)).

Ltac loc_fin :=
  repeat match goal with
         | H : _ /\ _ |- _ => destruct H
         | H : _ \/ _ |- _ => destruct H
         | |- _ /\ _ => split
         | |- _ <> _ => intro
         end;
  try lra; try (left; lra); try (right; lra);
  try match goal with H : ?a <> ?b |- False => apply H; lra end.

(** *** Powers of two and digits *)

Lemma fexp_eq z : fexp prec emax z = Z.max (z - 53) (-1074).
Proof. reflexivity. Qed.

Lemma pow2_pos e : 0 < powerRZ 2 e.
Proof. apply powerRZ_lt; lra. Qed.

Lemma pow2_add a b : powerRZ 2 (a + b) = powerRZ 2 a * powerRZ 2 b.
Proof. apply powerRZ_add; lra. Qed.

Lemma pow2_IZR n : (0 <= n)%Z -> powerRZ 2 n = IZR (2 ^ n).
Proof.
  intros H. destruct n as [|p|p]; [reflexivity| |lia].
  change (2 ^ Z.pos p)%Z with (Z.pow_pos 2 p). now rewrite Zpower_pos_powerRZ.
Qed.

Lemma pow2_ge1 n : (0 <= n)%Z -> 1 <= powerRZ 2 n.
Proof.
  intros H. rewrite pow2_IZR by assumption. apply IZR_le.
  pose proof (Z.pow_pos_nonneg 2 n ltac:(lia) H). lia.
Qed.

Lemma pow2_le a b : (a <= b)%Z -> powerRZ 2 a <= powerRZ 2 b.
Proof.
  intros H. replace b with (a + (b - a))%Z by lia. rewrite pow2_add.
  pose proof (pow2_pos a). pose proof (pow2_ge1 (b - a) ltac:(lia)). nra.
Qed.

Lemma pow2_succ a : powerRZ 2 (a + 1) = 2 * powerRZ 2 a.
Proof. rewrite pow2_add. change (powerRZ 2 1) with (2 * 1). lra. Qed.

Lemma pow2_lt a b : (a < b)%Z -> powerRZ 2 a < powerRZ 2 b.
Proof.
  intros H. pose proof (pow2_le (a + 1) b ltac:(lia)) as L.
  rewrite pow2_succ in L. pose proof (pow2_pos a). lra.
Qed.

Lemma digits2_size m : digits2_pos m = Pos.size m.
Proof. induction m; simpl; congruence. Qed.

Lemma digits_upper m : IZR (Zpos m) < powerRZ 2 (Zpos (digits2_pos m)).
Proof.
  rewrite pow2_IZR by lia. apply IZR_lt. rewrite digits2_size.
  pose proof (Pos.size_gt m). lia.
Qed.

Lemma digits_lower m : powerRZ 2 (Zpos (digits2_pos m) - 1) <= IZR (Zpos m).
Proof.
  pose proof (pow2_succ (Zpos (digits2_pos m) - 1)) as S.
  replace (Z.pos (digits2_pos m) - 1 + 1)%Z with (Z.pos (digits2_pos m)) in S by lia.
  assert (powerRZ 2 (Zpos (digits2_pos m)) <= 2 * IZR (Zpos m)); [|lra].
  rewrite pow2_IZR by lia. rewrite <- mult_IZR. apply IZR_le. rewrite digits2_size.
  pose proof (Pos.size_le m). lia.
Qed.

Lemma F2R_pos m e : 0 < F2R m e.
Proof.
  unfold F2R. apply Rmult_lt_0_compat; [apply IZR_lt; lia|apply pow2_pos].
Qed.

Lemma F2R_upper m e : F2R m e < powerRZ 2 (Zpos (digits2_pos m) + e).
Proof.
  unfold F2R. rewrite pow2_add. pose proof (digits_upper m). pose proof (pow2_pos e). nra.
Qed.

Lemma F2R_lower m e : powerRZ 2 (Zpos (digits2_pos m) + e - 1) <= F2R m e.
Proof.
  unfold F2R. replace (Z.pos (digits2_pos m) + e - 1)%Z with ((Z.pos (digits2_pos m) - 1) + e)%Z by lia.
  rewrite pow2_add. pose proof (digits_lower m). pose proof (pow2_pos e). nra.
Qed.

(** *** Canonical floats and their order *)

Lemma bounded_inv m e :
  SpecFloat.bounded prec emax m e = true ->
  (e = Z.max (Zpos (digits2_pos m) + e - 53) (-1074) /\ e <= 971)%Z.
Proof.
  unfold SpecFloat.bounded, canonical_mantissa. rewrite fexp_eq.
  intros H. apply andb_prop in H. destruct H as [H1 H2].
  apply Z.eqb_eq in H1. apply Z.leb_le in H2. change (emax - prec)%Z with 971%Z in H2. lia.
Qed.

Lemma F2R_lt_exp m1 e1 m2 e2 :
  SpecFloat.bounded prec emax m1 e1 = true -> SpecFloat.bounded prec emax m2 e2 = true ->
  (e1 < e2)%Z -> F2R m1 e1 < F2R m2 e2.
Proof.
  intros B1 B2 L. apply bounded_inv in B1, B2.
  pose proof (F2R_upper m1 e1). pose proof (F2R_lower m2 e2).
  pose proof (pow2_le (Zpos (digits2_pos m1) + e1) (Zpos (digits2_pos m2) + e2 - 1) ltac:(lia)).
  lra.
Qed.

Lemma cmp_mag_spec m1 e1 m2 e2 :
  SpecFloat.bounded prec emax m1 e1 = true -> SpecFloat.bounded prec emax m2 e2 = true ->
  match cmp_mag m1 e1 m2 e2 with
  | Lt => F2R m1 e1 < F2R m2 e2
  | Eq => m1 = m2 /\ e1 = e2
  | Gt => F2R m2 e2 < F2R m1 e1
  end.
Proof.
  intros B1 B2. unfold cmp_mag.
  destruct (Z.compare_spec e1 e2) as [E|L|L].
  - subst e2. fold (Pos.compare m1 m2). 
    destruct (Pos.compare_spec m1 m2) as [E|L|L].
    + auto.
    + unfold F2R. pose proof (pow2_pos e1). apply Rmult_lt_compat_r; [assumption|apply IZR_lt; lia].
    + unfold F2R. pose proof (pow2_pos e1). apply Rmult_lt_compat_r; [assumption|apply IZR_lt; lia].
  - now apply F2R_lt_exp.
  - now apply F2R_lt_exp.
Qed.

Lemma F2R_bound m e : SpecFloat.bounded prec emax m e = true -> F2R m e < powerRZ 2 1024.
Proof.
  intros B. apply bounded_inv in B. pose proof (F2R_upper m e).
  pose proof (pow2_le (Zpos (digits2_pos m) + e) 1024 ltac:(lia)). lra.
Qed.

Lemma SFcompare_spec x y :
  valid_binary x = true -> valid_binary y = true ->
  is_nan_sf x = false -> is_nan_sf y = false ->
  match SFcompare x y with
  | Some Lt => SF2R x < SF2R y
  | Some Eq => SF2R x = SF2R y
  | Some Gt => SF2R y < SF2R x
  | None => False
  end.
Proof.
  intros Vx Vy Nx Ny. pose proof (pow2_pos 1024) as P.
  destruct x as [sx|sx| |sx mx ex]; try discriminate;
  destruct y as [sy|sy| |sy my ey]; try discriminate; simpl in *.
  - reflexivity.
  - destruct sy; simpl; lra.
  - pose proof (F2R_pos my ey). destruct sy; simpl; lra.
  - destruct sx; simpl; lra.
  - destruct sx, sy; simpl; lra.
  - pose proof (F2R_bound _ _ Vy). pose proof (F2R_pos my ey).
    destruct sx, sy; simpl; lra.
  - pose proof (F2R_pos mx ex). destruct sx; simpl; lra.
  - pose proof (F2R_bound _ _ Vx). pose proof (F2R_pos mx ex).
    destruct sx, sy; simpl; lra.
  - pose proof (F2R_pos mx ex). pose proof (F2R_pos my ey).
    pose proof (cmp_mag_spec _ _ _ _ Vx Vy) as C. unfold cmp_mag in C.
    destruct sx, sy; simpl; try lra;
      (destruct (ex ?= ey)%Z; try lra;
       destruct (Pos.compare_cont Eq mx my); simpl; try lra;
       destruct C as [-> ->]; reflexivity).
Qed.

(** *** Comparisons of primitive floats *)

Lemma SFcompare_nan_l y : SFcompare S754_nan y = None.
Proof. reflexivity. Qed.

Lemma SFcompare_nan_r x : SFcompare x S754_nan = None.
Proof. destruct x; reflexivity. Qed.

Lemma SFcompare_refl x : is_nan_sf x = false -> SFcompare x x = Some Eq.
Proof.
  destruct x as [s|s| |s m e]; try discriminate; intros _; simpl.
  - reflexivity.
  - destruct s; reflexivity.
  - rewrite Z.compare_refl, Pos.compare_cont_refl. destruct s; reflexivity.
Qed.

Lemma is_nan_spec x : is_nan x = is_nan_sf (Prim2SF x).
Proof.
  unfold is_nan. rewrite FloatAxioms.eqb_spec. unfold SFeqb.
  destruct (is_nan_sf (Prim2SF x)) eqn:E.
  - destruct (Prim2SF x); try discriminate. reflexivity.
  - now rewrite SFcompare_refl.
Qed.

Lemma compare_cases x y :
  match SFcompare (Prim2SF x) (Prim2SF y) with
  | Some Lt => is_nan x = false /\ is_nan y = false /\ value x < value y
  | Some Eq => is_nan x = false /\ is_nan y = false /\ value x = value y
  | Some Gt => is_nan x = false /\ is_nan y = false /\ value y < value x
  | None => is_nan x = true \/ is_nan y = true
  end.
Proof.
  rewrite !is_nan_spec. unfold value.
  pose proof (SFcompare_spec _ _ (Prim2SF_valid x) (Prim2SF_valid y)) as C.
  destruct (is_nan_sf (Prim2SF x)) eqn:Ex.
  { destruct (Prim2SF x); try discriminate. simpl. now left. }
  destruct (is_nan_sf (Prim2SF y)) eqn:Ey.
  { destruct (Prim2SF y); try discriminate. rewrite SFcompare_nan_r. now right. }
  specialize (C eq_refl eq_refl).
  destruct (SFcompare (Prim2SF x) (Prim2SF y)) as [[| |]|]; intuition.
Qed.

Lemma ltb_iff x y :
  (x <? y)%float = true <-> is_nan x = false /\ is_nan y = false /\ value x < value y.
Proof.
  rewrite FloatAxioms.ltb_spec. unfold SFltb. pose proof (compare_cases x y) as C.
  destruct (SFcompare (Prim2SF x) (Prim2SF y)) as [[| |]|]; split; intros H;
    try discriminate; try reflexivity; try tauto;
    (destruct C as (? & ? & ?) || destruct C as [?|?]); destruct H as (? & ? & ?);
    try congruence; lra.
Qed.

Lemma leb_iff x y :
  (x <=? y)%float = true <-> is_nan x = false /\ is_nan y = false /\ value x <= value y.
Proof.
  rewrite FloatAxioms.leb_spec. unfold SFleb. pose proof (compare_cases x y) as C.
  destruct (SFcompare (Prim2SF x) (Prim2SF y)) as [[| |]|]; split; intros H;
    try discriminate; try reflexivity;
    (destruct C as (? & ? & ?) || destruct C as [?|?]); try destruct H as (? & ? & ?);
    try congruence; try (repeat split; try assumption; lra); lra.
Qed.

Lemma eqb_iff x y :
  (x =? y)%float = true <-> is_nan x = false /\ is_nan y = false /\ value x = value y.
Proof.
  rewrite FloatAxioms.eqb_spec. unfold SFeqb. pose proof (compare_cases x y) as C.
  destruct (SFcompare (Prim2SF x) (Prim2SF y)) as [[| |]|]; split; intros H;
    try discriminate; try reflexivity;
    (destruct C as (? & ? & ?) || destruct C as [?|?]); try destruct H as (? & ? & ?);
    try congruence; try (repeat split; try assumption; lra); lra.
Qed.

Lemma ltb_false_iff x y :
  (x <? y)%float = false <-> is_nan x = true \/ is_nan y = true \/ value y <= value x.
Proof.
  pose proof (ltb_iff x y) as L. destruct (x <? y)%float.
  - split; [discriminate|]. intros H. destruct L as [L _]. specialize (L eq_refl).
    destruct L as (? & ? & ?). destruct H as [H|[H|H]]; try congruence. lra.
  - split; [|reflexivity]. intros _.
    destruct (is_nan x) eqn:Nx; [now left|]. destruct (is_nan y) eqn:Ny; [now right; left|].
    right; right. destruct (Rle_lt_dec (value y) (value x)); [assumption|].
    destruct L as [_ L]. discriminate L. auto.
Qed.

(** *** Shifting a mantissa right *)

Lemma shr_1_rel a : (0 <= shr_m a)%Z -> Rel 2 a (shr_1 a).
Proof.
  destruct a as [m r s]. unfold Rel, inex; simpl. intros H.
  destruct m as [|[p|p|]|p]; try lia; destruct r, s; simpl;
    (split; [lia|]); (split; [lia|]);
    (split;
     [ intros E; first [discriminate E | split; [reflexivity | lia]]
     | intros [E1 E2]; first [discriminate E1 | reflexivity | lia] ]).
Qed.

Lemma Rel_refl a : (0 <= shr_m a)%Z -> Rel 1 a a.
Proof. unfold Rel. intros H. split; [assumption|]. split; [lia|]. split; [intros E; split; [assumption|lia]|tauto]. Qed.

Lemma Rel_trans c1 c2 a b c :
  (0 < c1)%Z -> (0 < c2)%Z -> Rel c1 a b -> Rel c2 b c -> Rel (c1 * c2) a c.
Proof.
  unfold Rel. intros P1 P2 (A1 & A2 & A3) (B1 & B2 & B3).
  split; [assumption|]. split; [nia|]. split.
  - intros E. apply B3 in E. destruct E as [E1 E2]. apply A3 in E1. destruct E1 as [E1 E3].
    split; [assumption|]. rewrite E3, E2. ring.
  - intros [E1 E2]. apply B3. 
    assert (shr_m a = c1 * shr_m b)%Z by nia.
    split; [apply A3; split; assumption|nia].
Qed.

Lemma iter_rel n : forall a, (0 <= shr_m a)%Z -> Rel (2 ^ Z.pos n) a (SpecFloat.iter_pos shr_1 n a).
Proof.
  induction n as [n IH|n IH|]; intros a H; simpl SpecFloat.iter_pos.
  - pose proof (shr_1_rel a H) as R1.
    pose proof (IH (shr_1 a) (proj1 R1)) as R2.
    pose proof (IH _ (proj1 R2)) as R3.
    pose proof (Z.pow_pos_nonneg 2 (Z.pos n) ltac:(lia) ltac:(lia)) as P.
    replace (2 ^ Z.pos n~1)%Z with (2 * 2 ^ Z.pos n * 2 ^ Z.pos n)%Z.
    + eapply Rel_trans; [lia|lia| |exact R3]. eapply Rel_trans; [lia|lia|exact R1|exact R2].
    + replace (Z.pos n~1) with (1 + Z.pos n + Z.pos n)%Z by lia.
      rewrite !Z.pow_add_r by lia. reflexivity.
  - pose proof (IH a H) as R2.
    pose proof (IH _ (proj1 R2)) as R3.
    pose proof (Z.pow_pos_nonneg 2 (Z.pos n) ltac:(lia) ltac:(lia)) as P.
    replace (2 ^ Z.pos n~0)%Z with (2 ^ Z.pos n * 2 ^ Z.pos n)%Z.
    + eapply Rel_trans; [lia|lia|exact R2|exact R3].
    + replace (Z.pos n~0) with (Z.pos n + Z.pos n)%Z by lia.
      rewrite Z.pow_add_r by lia. reflexivity.
  - apply shr_1_rel; assumption.
Qed.

Lemma shr_rel mrs e n :
  (0 <= shr_m mrs)%Z ->
  snd (shr mrs e n) = (e + Z.max 0 n)%Z /\
  Rel (2 ^ Z.max 0 n) mrs (fst (shr mrs e n)).
Proof.
  intros H. destruct n as [|p|p].
  - split; [simpl; lia|]. now apply Rel_refl.
  - split; [simpl; lia|]. change (Z.max 0 (Z.pos p)) with (Z.pos p). now apply iter_rel.
  - split; [simpl; lia|]. now apply Rel_refl.
Qed.

Lemma record_of_loc_m m l : shr_m (shr_record_of_loc m l) = m.
Proof. destruct l as [|[| |]]; reflexivity. Qed.

Lemma record_of_loc_inex m l : inex (shr_record_of_loc m l) = false <-> l = loc_Exact.
Proof. destruct l as [|[| |]]; unfold inex; simpl; split; intros; try discriminate; reflexivity. Qed.

Lemma shr_fexp_int m e l :
  (0 <= m)%Z ->
  let mrs' := fst (shr_fexp prec emax m e l) in
  let e' := snd (shr_fexp prec emax m e l) in
  (0 <= shr_m mrs')%Z /\
  e' = Z.max e (fexp prec emax (Zdigits2 m + e)) /\
  (2 ^ (e' - e) * shr_m mrs' <= m < 2 ^ (e' - e) * (shr_m mrs' + 1))%Z /\
  (inex mrs' = false <-> l = loc_Exact /\ m = (2 ^ (e' - e) * shr_m mrs')%Z).
Proof.
  intros Hm. unfold shr_fexp.
  set (n := (fexp prec emax (Zdigits2 m + e) - e)%Z).
  destruct (shr_rel (shr_record_of_loc m l) e n) as [He R].
  { now rewrite record_of_loc_m. }
  cbv zeta. rewrite He. destruct R as (R1 & R2 & R3).
  rewrite record_of_loc_m in R2, R3. rewrite record_of_loc_inex in R3.
  replace (e + Z.max 0 n - e)%Z with (Z.max 0 n) by lia.
  split; [assumption|]. split; [lia|]. split; assumption.
Qed.

(** real-valued reading of one truncation step *)
Lemma shr_fexp_real m e l X :
  (0 <= m)%Z ->
  IZR m * powerRZ 2 e <= X < IZR (m + 1) * powerRZ 2 e ->
  (l = loc_Exact <-> X = IZR m * powerRZ 2 e) ->
  let mrs' := fst (shr_fexp prec emax m e l) in
  let e' := snd (shr_fexp prec emax m e l) in
  IZR (shr_m mrs') * powerRZ 2 e' <= X < IZR (shr_m mrs' + 1) * powerRZ 2 e' /\
  (inex mrs' = false <-> X = IZR (shr_m mrs') * powerRZ 2 e').
Proof.
  intros Hm HX Hl. cbv zeta.
  destruct (shr_fexp_int m e l Hm) as (R1 & R2 & R3 & R4).
  set (mrs' := fst (shr_fexp prec emax m e l)) in *.
  set (e' := snd (shr_fexp prec emax m e l)) in *.
  set (k := (e' - e)%Z) in *.
  assert (Hk : (0 <= k)%Z) by lia.
  assert (Pk : powerRZ 2 e' = IZR (2 ^ k) * powerRZ 2 e).
  { replace e' with (e + k)%Z by lia. rewrite pow2_add, (pow2_IZR k) by assumption. ring. }
  pose proof (pow2_pos e) as Pe.
  rewrite Pk.
  assert (A1 : IZR (shr_m mrs') * (IZR (2 ^ k) * powerRZ 2 e) = IZR (2 ^ k * shr_m mrs') * powerRZ 2 e).
  { rewrite mult_IZR. ring. }
  assert (A2 : IZR (shr_m mrs' + 1) * (IZR (2 ^ k) * powerRZ 2 e) = IZR (2 ^ k * (shr_m mrs' + 1)) * powerRZ 2 e).
  { rewrite mult_IZR. ring. }
  rewrite A1, A2.
  assert (B1 : IZR (2 ^ k * shr_m mrs') <= IZR m) by (apply IZR_le; lia).
  assert (B2 : IZR (m + 1) <= IZR (2 ^ k * (shr_m mrs' + 1))) by (apply IZR_le; lia).
  split; [nra|].
  split.
  - intros E. apply R4 in E. destruct E as [E1 E2]. apply Hl in E1. rewrite E1. rewrite <- E2. reflexivity.
  - intros E. apply R4.
    assert (IZR m = IZR (2 ^ k * shr_m mrs')) by nra.
    split; [apply Hl; nra|now apply eq_IZR].
Qed.

Lemma Zdigits2_bounds m : (0 < m)%Z -> (2 ^ (Zdigits2 m - 1) <= m < 2 ^ Zdigits2 m)%Z.
Proof.
  destruct m as [|p|p]; try lia. intros _. simpl Zdigits2. rewrite digits2_size.
  pose proof (Pos.size_gt p) as G. pose proof (Pos.size_le p) as L.
  assert (E : Z.pos (2 ^ Pos.size p) = (2 ^ Z.pos (Pos.size p))%Z) by apply Pos2Z.inj_pow.
  assert (E2 : (2 ^ Z.pos (Pos.size p) = 2 * 2 ^ (Z.pos (Pos.size p) - 1))%Z).
  { rewrite <- Z.pow_succ_r by lia. f_equal. lia. }
  lia.
Qed.

Lemma rne_bounds mrs :
  let m1 := round_nearest_even (shr_m mrs) (loc_of_shr_record mrs) in
  (shr_m mrs <= m1 <= shr_m mrs + 1)%Z /\ (inex mrs = false -> m1 = shr_m mrs).
Proof.
  destruct mrs as [m r s]. unfold inex. simpl.
  destruct r, s; simpl; try destruct (Z.even m); split; try lia; intros; try discriminate; reflexivity.
Qed.

(** when the canonical exponent is above [emin] the truncated mantissa keeps 53 bits *)
Lemma top_bits m e l :
  (0 <= m)%Z ->
  let mrs' := fst (shr_fexp prec emax m e l) in
  let e' := snd (shr_fexp prec emax m e l) in
  e' = fexp prec emax (Zdigits2 m + e) -> (-1074 < e')%Z ->
  (2 ^ 52 <= shr_m mrs')%Z.
Proof.
  intros Hm. cbv zeta.
  destruct (shr_fexp_int m e l Hm) as (R1 & R2 & R3 & _).
  set (mrs' := fst (shr_fexp prec emax m e l)) in *.
  set (e' := snd (shr_fexp prec emax m e l)) in *.
  intros E G. rewrite fexp_eq in *.
  assert (Hpos : (0 < m)%Z).
  { destruct (Z.eq_dec m 0) as [->|]; [|lia]. simpl Zdigits2 in *. lia. }
  pose proof (Zdigits2_bounds m Hpos) as D.
  set (k := (e' - e)%Z) in *.
  assert (Hk : (0 <= k)%Z) by lia.
  replace (Zdigits2 m - 1)%Z with (k + 52)%Z in D by lia.
  rewrite Z.pow_add_r in D by lia.
  pose proof (Z.pow_pos_nonneg 2 k ltac:(lia) Hk). nia.
Qed.

Lemma pow2_lt_inv a b : powerRZ 2 a < powerRZ 2 b -> (a < b)%Z.
Proof.
  intros H. destruct (Z_lt_le_dec a b) as [L|L]; [assumption|].
  apply pow2_le in L. lra.
Qed.

Lemma grid m' e' ma ea :
  (e' <= ea)%Z -> IZR m' * powerRZ 2 e' < F2R ma ea ->
  IZR (m' + 1) * powerRZ 2 e' <= F2R ma ea.
Proof.
  intros L H. unfold F2R in *.
  replace ea with (e' + (ea - e'))%Z in * by lia.
  rewrite pow2_add, (pow2_IZR (ea - e')) in * by lia.
  pose proof (pow2_pos e') as P.
  assert (A : IZR (Z.pos ma) * (powerRZ 2 e' * IZR (2 ^ (ea - e'))) =
              IZR (Z.pos ma * 2 ^ (ea - e')) * powerRZ 2 e').
  { rewrite mult_IZR. ring. }
  rewrite A in *.
  assert (IZR m' < IZR (Z.pos ma * 2 ^ (ea - e'))) by nra.
  apply lt_IZR in H0.
  assert (IZR (m' + 1) <= IZR (Z.pos ma * 2 ^ (ea - e'))) by (apply IZR_le; lia).
  nra.
Qed.

(** *** Rounding to nearest *)

Lemma bra_unfold s m e l :
  binary_round_aux prec emax s m e l =
  let mrs' := fst (shr_fexp prec emax m e l) in
  let e' := snd (shr_fexp prec emax m e l) in
  let m1 := round_nearest_even (shr_m mrs') (loc_of_shr_record mrs') in
  let mrs'' := fst (shr_fexp prec emax m1 e' loc_Exact) in
  let e'' := snd (shr_fexp prec emax m1 e' loc_Exact) in
  match shr_m mrs'' with
  | Z0 => S754_zero s
  | Zpos p => if (e'' <=? 971)%Z then S754_finite s p e'' else S754_infinity s
  | Zneg _ => S754_nan
  end.
Proof.
  unfold binary_round_aux. destruct (shr_fexp prec emax m e l) as [mrs' e']. cbv zeta. simpl fst; simpl snd.
  destruct (shr_fexp prec emax _ e' loc_Exact) as [mrs'' e'']. reflexivity.
Qed.

(** rounding a non-negative mantissa never yields NaN and keeps the sign *)
Lemma bra_cases s m e l :
  (0 <= m)%Z ->
  binary_round_aux prec emax s m e l = S754_zero s \/
  (exists p e'', binary_round_aux prec emax s m e l = S754_finite s p e'') \/
  binary_round_aux prec emax s m e l = S754_infinity s.
Proof.
  intros Hm. rewrite bra_unfold. cbv zeta.
  destruct (shr_fexp_int m e l Hm) as (R1 & _).
  set (mrs' := fst (shr_fexp prec emax m e l)) in *.
  set (e' := snd (shr_fexp prec emax m e l)) in *.
  destruct (rne_bounds mrs') as [B _]. cbv zeta in B.
  set (m1 := round_nearest_even (shr_m mrs') (loc_of_shr_record mrs')) in *.
  destruct (shr_fexp_int m1 e' loc_Exact ltac:(lia)) as (S1 & _).
  destruct (shr_m (fst (shr_fexp prec emax m1 e' loc_Exact))) as [|p|p]; [now left| |lia].
  destruct (_ <=? 971)%Z; [right; left; eauto|now right; right].
Qed.

(** the rounded magnitude does not exceed any float above the exact value *)
Lemma bra_upper s m e l X ma ea :
  (0 <= m)%Z ->
  (e <= fexp prec emax (Zdigits2 m + e))%Z ->
  IZR m * powerRZ 2 e <= X < IZR (m + 1) * powerRZ 2 e ->
  (l = loc_Exact <-> X = IZR m * powerRZ 2 e) ->
  SpecFloat.bounded prec emax ma ea = true ->
  X <= F2R ma ea ->
  binary_round_aux prec emax s m e l = S754_zero s \/
  exists p e'', binary_round_aux prec emax s m e l = S754_finite s p e'' /\
                F2R p e'' <= F2R ma ea.
Proof.
  intros Hm Hpre HX Hl Ba Ha. rewrite bra_unfold. cbv zeta.
  destruct (shr_fexp_int m e l Hm) as (R1 & R2 & R3 & R4).
  destruct (shr_fexp_real m e l X Hm HX Hl) as (Q1 & Q2).
  pose proof (top_bits m e l Hm) as T1. cbv zeta in T1.
  set (mrs' := fst (shr_fexp prec emax m e l)) in *.
  set (e' := snd (shr_fexp prec emax m e l)) in *.
  assert (E' : e' = fexp prec emax (Zdigits2 m + e)) by lia.
  specialize (T1 E').
  destruct (rne_bounds mrs') as [B1 B2]. cbv zeta in B1, B2.
  set (m1 := round_nearest_even (shr_m mrs') (loc_of_shr_record mrs')) in *.
  pose proof (pow2_pos e') as Pe'.
  pose proof (bounded_inv _ _ Ba) as [Ca Cb].
  pose proof (F2R_upper ma ea) as Ua.
  (* the rounded value at exponent e' is below a *)
  assert (A : IZR m1 * powerRZ 2 e' <= F2R ma ea).
  { destruct (inex mrs') eqn:I.
    - assert (IZR (shr_m mrs') * powerRZ 2 e' < F2R ma ea).
      { destruct (Req_dec X (IZR (shr_m mrs') * powerRZ 2 e')) as [E|N].
        - apply Q2 in E. discriminate.
        - lra. }
      assert (Lea : (e' <= ea)%Z).
      { destruct (Z_le_gt_dec e' (-1074)) as [L|G]; [lia|].
        specialize (T1 ltac:(lia)).
        assert (powerRZ 2 (e' + 52) <= IZR (shr_m mrs') * powerRZ 2 e').
        { rewrite pow2_add, (pow2_IZR 52) by lia.
          apply IZR_le in T1. nra. }
        assert (e' + 52 < Z.pos (digits2_pos ma) + ea)%Z by (apply pow2_lt_inv; lra).
        rewrite fexp_eq in E'. lia. }
      pose proof (grid _ _ _ _ Lea H) as G.
      assert (IZR m1 <= IZR (shr_m mrs' + 1)) by (apply IZR_le; lia).
      nra.
    - rewrite (B2 eq_refl). destruct Q2 as [Q2 _]. rewrite <- (Q2 eq_refl). assumption. }
  assert (Hm1 : (0 <= m1)%Z) by lia.
  destruct (shr_fexp_int m1 e' loc_Exact Hm1) as (S1 & S2 & S3 & S4).
  pose proof (top_bits m1 e' loc_Exact Hm1) as T2. cbv zeta in T2.
  set (mrs'' := fst (shr_fexp prec emax m1 e' loc_Exact)) in *.
  set (e'' := snd (shr_fexp prec emax m1 e' loc_Exact)) in *.
  assert (V : IZR (shr_m mrs'') * powerRZ 2 e'' <= IZR m1 * powerRZ 2 e').
  { replace e'' with (e' + (e'' - e'))%Z at 1 by lia.
    rewrite pow2_add, (pow2_IZR (e'' - e')) by lia.
    assert (IZR (2 ^ (e'' - e') * shr_m mrs'') <= IZR m1) by (apply IZR_le; lia).
    rewrite mult_IZR in H. nra. }
  destruct (shr_m mrs'') as [|p|p] eqn:Ep; [now left| |lia].
  right. destruct (Z.leb_spec e'' 971) as [L|G].
  - exists p, e''. split; [reflexivity|]. unfold F2R at 1. lra.
  - exfalso.
    assert (Big : (2 ^ 52 <= Z.pos p)%Z).
    { destruct (Z.max_spec e' (fexp prec emax (Zdigits2 m1 + e'))) as [[_ M]|[K M]].
      - apply T2; lia.
      - assert (e'' = e') by lia.
        specialize (T1 ltac:(lia)).
        replace (e'' - e')%Z with 0%Z in S3 by lia. simpl in S3. lia. }
    pose proof (F2R_bound _ _ Ba) as Bd.
    assert (powerRZ 2 1024 <= IZR (Z.pos p) * powerRZ 2 e'').
    { apply IZR_le in Big.
      pose proof (pow2_le (1024 - 52) e'' ltac:(lia)).
      replace 1024%Z with (52 + (1024 - 52))%Z at 1 by lia.
      rewrite pow2_add, (pow2_IZR 52) by lia.
      pose proof (pow2_pos (1024 - 52)). pose proof (pow2_pos e'').
      assert (0 < IZR (2^52)) by (apply IZR_lt; lia). nra. }
    lra.
Qed.

(** *** Alignment and normalisation *)

Lemma iter_xO_spec m d :
  Z.pos (Pos.iter xO m d) = (Z.pos m * 2 ^ Z.pos d)%Z /\
  digits2_pos (Pos.iter xO m d) = (digits2_pos m + d)%positive.
Proof.
  induction d as [|d IH] using Pos.peano_ind.
  - simpl. split; [lia|]. lia.
  - rewrite Pos.iter_succ. destruct IH as [IH1 IH2]. split.
    + rewrite Pos2Z.inj_xO, IH1, Pos2Z.inj_succ, Z.pow_succ_r by lia. ring.
    + simpl. rewrite IH2. lia.
Qed.

Lemma shl_align_spec m e e' :
  let mz := fst (shl_align m e e') in
  let ez := snd (shl_align m e e') in
  ez = Z.min e e' /\ F2R mz ez = F2R m e /\
  (Z.pos (digits2_pos mz) + ez = Z.pos (digits2_pos m) + e)%Z.
Proof.
  unfold shl_align. destruct (e' - e)%Z as [|d|d] eqn:E; cbn [fst snd].
  - split; [lia|]. split; reflexivity.
  - split; [lia|]. split; reflexivity.
  - destruct (iter_xO_spec m d) as [I1 I2].
    split; [lia|]. split.
    + unfold F2R. rewrite I1, mult_IZR, <- (pow2_IZR (Z.pos d)) by lia.
      rewrite Rmult_assoc, <- pow2_add. f_equal. f_equal. lia.
    + rewrite I2, Pos2Z.inj_add. lia.
Qed.

Lemma binary_round_eq s m e :
  binary_round prec emax s m e =
  binary_round_aux prec emax s
    (Z.pos (fst (shl_align m e (fexp prec emax (Z.pos (digits2_pos m) + e)))))
    (snd (shl_align m e (fexp prec emax (Z.pos (digits2_pos m) + e)))) loc_Exact.
Proof. unfold binary_round. destruct (shl_align _ _ _). reflexivity. Qed.

Lemma binary_round_cases s m e :
  binary_round prec emax s m e = S754_zero s \/
  (exists p e'', binary_round prec emax s m e = S754_finite s p e'') \/
  binary_round prec emax s m e = S754_infinity s.
Proof. rewrite binary_round_eq. apply bra_cases. lia. Qed.

Lemma binary_round_upper s m e ma ea :
  SpecFloat.bounded prec emax ma ea = true ->
  F2R m e <= F2R ma ea ->
  binary_round prec emax s m e = S754_zero s \/
  exists p e'', binary_round prec emax s m e = S754_finite s p e'' /\
                F2R p e'' <= F2R ma ea.
Proof.
  intros Ba H. rewrite binary_round_eq.
  destruct (shl_align_spec m e (fexp prec emax (Z.pos (digits2_pos m) + e))) as (A1 & A2 & A3).
  cbv zeta in *.
  set (mz := fst (shl_align m e _)) in *. set (ez := snd (shl_align m e _)) in *.
  apply (bra_upper s (Z.pos mz) ez loc_Exact (F2R m e) ma ea); try assumption.
  - lia.
  - simpl Zdigits2. rewrite A3. lia.
  - rewrite <- A2. unfold F2R. pose proof (pow2_pos ez). rewrite plus_IZR. lra.
  - rewrite <- A2. unfold F2R. tauto.
Qed.

(** *** Multiplication *)

Lemma sgn_F2R_nonneg s m e : 0 <= sgn s * F2R m e -> s = false.
Proof. pose proof (F2R_pos m e). destruct s; simpl; [lra|reflexivity]. Qed.

Lemma sgn_F2R_nonpos s m e : sgn s * F2R m e <= 0 -> s = true.
Proof. pose proof (F2R_pos m e). destruct s; simpl; [reflexivity|lra]. Qed.

Lemma Zdigits2_mul mx my :
  (Z.pos (digits2_pos mx) + Z.pos (digits2_pos my) - 1 <= Z.pos (digits2_pos (mx * my)))%Z.
Proof.
  pose proof (Zdigits2_bounds (Z.pos mx) ltac:(lia)) as Bx.
  pose proof (Zdigits2_bounds (Z.pos my) ltac:(lia)) as By.
  pose proof (Zdigits2_bounds (Z.pos (mx * my)) ltac:(lia)) as Bxy.
  simpl Zdigits2 in *.
  set (dx := Z.pos (digits2_pos mx)) in *. set (dy := Z.pos (digits2_pos my)) in *.
  set (d := Z.pos (digits2_pos (mx * my))) in *.
  assert (0 < dx /\ 0 < dy /\ 0 < d)%Z as (? & ? & ?) by (unfold dx, dy, d; lia).
  assert (L : (2 ^ (dx - 1 + (dy - 1)) < 2 ^ d)%Z).
  { rewrite Z.pow_add_r by lia. rewrite Pos2Z.inj_mul in Bxy.
    pose proof (Z.pow_pos_nonneg 2 (dx - 1) ltac:(lia) ltac:(lia)).
    pose proof (Z.pow_pos_nonneg 2 (dy - 1) ltac:(lia) ltac:(lia)). nia. }
  apply Z.pow_lt_mono_r_iff in L; lia.
Qed.

Lemma mul_pre mx ex my ey :
  SpecFloat.bounded prec emax mx ex = true -> SpecFloat.bounded prec emax my ey = true ->
  (ex + ey <= fexp prec emax (Zdigits2 (Z.pos (mx * my)) + (ex + ey)))%Z.
Proof.
  intros Bx By. apply bounded_inv in Bx, By. rewrite fexp_eq. simpl Zdigits2.
  pose proof (Zdigits2_mul mx my). lia.
Qed.

Lemma F2R_mul mx ex my ey : F2R (mx * my) (ex + ey) = F2R mx ex * F2R my ey.
Proof. unfold F2R. rewrite Pos2Z.inj_mul, mult_IZR, pow2_add. ring. Qed.

Lemma exact_bracket m e :
  IZR (Z.pos m) * powerRZ 2 e <= F2R m e < IZR (Z.pos m + 1) * powerRZ 2 e.
Proof. unfold F2R. pose proof (pow2_pos e). rewrite plus_IZR. lra. Qed.

Lemma big_gt1 : 1 < powerRZ 2 1024.
Proof. pose proof (pow2_lt 0 1024 ltac:(lia)) as H. change (powerRZ 2 0) with 1 in H. exact H. Qed.

(** multiplication by a factor in [0, 1] *)
Lemma SFmul_le x y :
  valid_binary x = true -> valid_binary y = true ->
  is_fin_sf x = true -> 0 <= SF2R x ->
  is_nan_sf y = false -> 0 <= SF2R y <= 1 ->
  is_fin_sf (SF64mul x y) = true /\ 0 <= SF2R (SF64mul x y) <= SF2R x.
Proof.
  intros Vx Vy Fx Px Ny Py. pose proof big_gt1 as Big.
  destruct x as [sx|sx| |sx mx ex]; try discriminate;
  destruct y as [sy|sy| |sy my ey]; try discriminate;
  unfold SF64mul; cbn [SFmul SF2R valid_binary] in *.
  all: try (pose proof (F2R_pos mx ex)); try (pose proof (F2R_pos my ey)).
  all: try solve [sf_close].
  apply sgn_F2R_nonneg in Px. destruct Py as [Py1 Py2].
  pose proof (sgn_F2R_nonneg _ _ _ Py1). subst sx sy. cbn [sgn xorb] in *.
  destruct (bra_upper false (Z.pos (mx * my)) (ex + ey) loc_Exact
              (F2R (mx * my) (ex + ey)) mx ex) as [E|(p & e'' & E & L)].
  - lia.
  - now apply mul_pre.
  - apply exact_bracket.
  - unfold F2R; tauto.
  - assumption.
  - rewrite F2R_mul. nra.
  - rewrite E. sf_close.
  - rewrite E. pose proof (F2R_pos p e''). sf_close.
Qed.

(** a product of non-negative factors is a non-negative number or +infinity *)
Lemma SFmul_nonneg x y :
  is_nan_sf x = false -> 0 <= SF2R x ->
  is_nan_sf y = false -> 0 <= SF2R y ->
  (is_fin_sf x = true \/ 0 < SF2R y) ->
  (is_fin_sf y = true \/ 0 < SF2R x) ->
  is_nan_sf (SF64mul x y) = false /\ 0 <= SF2R (SF64mul x y).
Proof.
  intros Nx Px Ny Py Cx Cy. pose proof (pow2_pos 1024) as Big.
  destruct x as [sx|sx| |sx mx ex]; try discriminate;
  destruct y as [sy|sy| |sy my ey]; try discriminate;
  unfold SF64mul; cbn [SFmul SF2R] in *.
  all: try (pose proof (F2R_pos mx ex)); try (pose proof (F2R_pos my ey)).
  all: try solve [destruct Cx, Cy; sf_close].
  apply sgn_F2R_nonneg in Px, Py. subst sx sy. cbn [xorb].
  destruct (bra_cases false (Z.pos (mx * my)) (ex + ey) loc_Exact ltac:(lia))
    as [E|[(p & e'' & E)|E]]; rewrite E.
  - sf_close.
  - pose proof (F2R_pos p e''). sf_close.
  - sf_close.
Qed.

(** *** Addition and subtraction *)

Lemma align_value m e e' :
  (e' <= e)%Z -> F2R (fst (shl_align m e e')) e' = F2R m e.
Proof.
  intros L. destruct (shl_align_spec m e e') as (A1 & A2 & _). cbv zeta in *.
  rewrite <- A2. f_equal. lia.
Qed.

Lemma binary_normalize_pos p e sz :
  binary_normalize prec emax (Z.pos p) e sz = binary_round prec emax false p e.
Proof. reflexivity. Qed.

(** a sum of non-negative terms is a non-negative number or +infinity *)
Lemma SFadd_nonneg x y :
  is_nan_sf x = false -> 0 <= SF2R x ->
  is_nan_sf y = false -> 0 <= SF2R y ->
  is_nan_sf (SF64add x y) = false /\ 0 <= SF2R (SF64add x y).
Proof.
  intros Nx Px Ny Py. pose proof (pow2_pos 1024) as Big.
  destruct x as [sx|sx| |sx mx ex]; try discriminate;
  destruct y as [sy|sy| |sy my ey]; try discriminate;
  unfold SF64add; cbn [SFadd SF2R] in *.
  all: try (pose proof (F2R_pos mx ex)); try (pose proof (F2R_pos my ey)).
  all: try solve [sf_close].
  apply sgn_F2R_nonneg in Px, Py. subst sx sy. cbn [cond_Zopp Z.add].
  rewrite binary_normalize_pos.
  destruct (binary_round_cases false
              (fst (shl_align mx ex (Z.min ex ey)) + fst (shl_align my ey (Z.min ex ey)))
              (Z.min ex ey)) as [E|[(p & e'' & E)|E]]; rewrite E.
  - sf_close.
  - pose proof (F2R_pos p e''). sf_close.
  - sf_close.
Qed.

(** adding a non-negative term to a finite [x <= 0] does not go below [x] *)
Lemma SFadd_ge_l x y :
  valid_binary x = true ->
  is_fin_sf x = true -> SF2R x <= 0 ->
  is_nan_sf y = false -> 0 <= SF2R y ->
  is_nan_sf (SF64add x y) = false /\ SF2R x <= SF2R (SF64add x y).
Proof.
  intros Vx Fx Px Ny Py. pose proof (pow2_pos 1024) as Big.
  destruct x as [sx|sx| |sx mx ex]; try discriminate;
  destruct y as [sy|sy| |sy my ey]; try discriminate;
  unfold SF64add; cbn [SFadd SF2R valid_binary] in *.
  all: try (pose proof (F2R_pos mx ex)); try (pose proof (F2R_pos my ey)).
  all: try solve [sf_close].
  apply sgn_F2R_nonpos in Px. apply sgn_F2R_nonneg in Py. subst sx sy.
  cbn [cond_Zopp sgn].
  set (ez := Z.min ex ey).
  pose proof (align_value mx ex ez ltac:(lia)) as Ax.
  pose proof (align_value my ey ez ltac:(lia)) as Ay.
  set (zx := fst (shl_align mx ex ez)) in *. set (zy := fst (shl_align my ey ez)) in *.
  unfold F2R in Ax, Ay. pose proof (pow2_pos ez) as Pz.
  destruct (- Z.pos zx + Z.pos zy)%Z as [|p|p] eqn:E; cbn [binary_normalize].
  - sf_close.
  - destruct (binary_round_cases false p ez) as [R|[(q & e'' & R)|R]]; rewrite R.
    + sf_close.
    + pose proof (F2R_pos q e''). sf_close.
    + sf_close.
  - assert (Ep : IZR (Z.pos p) = IZR (Z.pos zx) - IZR (Z.pos zy)).
    { rewrite <- minus_IZR. f_equal. lia. }
    assert (0 < IZR (Z.pos zy)) by (apply IZR_lt; lia).
    destruct (binary_round_upper true p ez mx ex Vx) as [R|(q & e'' & R & L)].
    + unfold F2R. rewrite Ep. nra.
    + rewrite R. sf_close.
    + rewrite R. cbn [SF2R sgn is_nan_sf]. split; [reflexivity|]. unfold F2R in *. lra.
Qed.

(** subtracting [0 <= y <= x] from a finite [x] stays within [0, x] *)
Lemma SFsub_le x y :
  valid_binary x = true -> valid_binary y = true ->
  is_fin_sf x = true ->
  is_nan_sf y = false -> 0 <= SF2R y <= SF2R x ->
  is_fin_sf (SF64sub x y) = true /\ 0 <= SF2R (SF64sub x y) <= SF2R x.
Proof.
  intros Vx Vy Fx Ny Py. pose proof (pow2_pos 1024) as Big.
  destruct x as [sx|sx| |sx mx ex]; try discriminate;
  destruct y as [sy|sy| |sy my ey]; try discriminate;
  unfold SF64sub; cbn [SFsub SF2R valid_binary] in *.
  all: try (pose proof (F2R_pos mx ex)); try (pose proof (F2R_pos my ey)).
  all: try (pose proof (F2R_bound _ _ Vx)).
  all: try solve [sf_close].
  destruct Py as [Py1 Py2]. pose proof (sgn_F2R_nonneg _ _ _ Py1). subst sy.
  assert (sx = false) by (apply (sgn_F2R_nonneg sx mx ex); cbn [sgn] in *; lra). subst sx.
  cbn [cond_Zopp sgn] in *.
  set (ez := Z.min ex ey).
  pose proof (align_value mx ex ez ltac:(lia)) as Ax.
  pose proof (align_value my ey ez ltac:(lia)) as Ay.
  set (zx := fst (shl_align mx ex ez)) in *. set (zy := fst (shl_align my ey ez)) in *.
  unfold F2R in Ax, Ay. pose proof (pow2_pos ez) as Pz.
  assert (0 < IZR (Z.pos zy)) by (apply IZR_lt; lia).
  destruct (Z.pos zx - Z.pos zy)%Z as [|p|p] eqn:E; cbn [binary_normalize].
  - sf_close.
  - assert (Ep : IZR (Z.pos p) = IZR (Z.pos zx) - IZR (Z.pos zy)).
    { rewrite <- minus_IZR. f_equal. lia. }
    destruct (binary_round_upper false p ez mx ex Vx) as [R|(q & e'' & R & L)].
    + unfold F2R. rewrite Ep. nra.
    + rewrite R. sf_close.
    + rewrite R. pose proof (F2R_pos q e''). cbn [SF2R sgn is_fin_sf].
      split; [reflexivity|]. unfold F2R in *. lra.
  - exfalso.
    assert (IZR (Z.pos zx) < IZR (Z.pos zy)) by (apply IZR_lt; lia).
    unfold F2R in *. nra.
Qed.

(** *** Division *)

Lemma new_location_exact n r : new_location n r = loc_Exact <-> r = 0%Z.
Proof.
  unfold new_location, new_location_even, new_location_odd.
  destruct (Z.even n); destruct (Z.eqb_spec r 0); split; intros H;
    try reflexivity; try assumption; try discriminate; contradiction.
Qed.

Lemma Zdigits2_succ_le q : (0 <= q)%Z -> (q + 1 <= 2 ^ Zdigits2 q)%Z.
Proof.
  intros H. destruct (Z.eq_dec q 0) as [->|N]; [simpl; lia|].
  pose proof (Zdigits2_bounds q ltac:(lia)). lia.
Qed.

Lemma Zdigits2_nonneg q : (0 <= Zdigits2 q)%Z.
Proof. destruct q; simpl; lia. Qed.

(** the core of the division: quotient, exponent and location *)
Lemma div_core_spec mx ex my ey :
  let '(q, e', l) := SFdiv_core_binary prec emax (Z.pos mx) ex (Z.pos my) ey in
  let X := F2R mx ex / F2R my ey in
  (0 <= q)%Z /\
  (e' <= fexp prec emax (Zdigits2 q + e'))%Z /\
  IZR q * powerRZ 2 e' <= X < IZR (q + 1) * powerRZ 2 e' /\
  (l = loc_Exact <-> X = IZR q * powerRZ 2 e').
Proof.
  unfold SFdiv_core_binary. cbn [Zdigits2].
  set (d1 := Z.pos (digits2_pos mx)). set (d2 := Z.pos (digits2_pos my)).
  set (e' := Z.min (fexp prec emax (d1 + ex - (d2 + ey))) (ex - ey)).
  set (s := (ex - ey - e')%Z).
  assert (Hs : (0 <= s)%Z) by (unfold s, e'; lia).
  set (m' := match s with Z.pos _ => Z.shiftl (Z.pos mx) s | Z0 => Z.pos mx | Z.neg _ => 0%Z end).
  assert (Hm' : m' = (Z.pos mx * 2 ^ s)%Z).
  { unfold m'. destruct s as [|p|p] eqn:Es; [simpl; lia| |lia].
    rewrite Z.shiftl_mul_pow2 by lia. reflexivity. }
  clearbody m'.
  pose proof (Z_div_mod m' (Z.pos my) ltac:(lia)) as DM.
  destruct (Z.div_eucl m' (Z.pos my)) as [q r]. destruct DM as [DM1 DM2].
  pose proof (Z.pow_pos_nonneg 2 s ltac:(lia) Hs) as Ps.
  assert (Hq : (0 <= q)%Z) by nia.
  cbv zeta. split; [assumption|].
  split.
  { (* enough digits in the quotient *)
    pose proof (Zdigits2_bounds (Z.pos mx) ltac:(lia)) as Bx.
    pose proof (Zdigits2_bounds (Z.pos my) ltac:(lia)) as By.
    cbn [Zdigits2] in Bx, By. fold d1 in Bx. fold d2 in By.
    pose proof (Zdigits2_succ_le q Hq) as Bq.
    pose proof (Zdigits2_nonneg q) as Nq.
    assert (0 < d1 /\ 0 < d2)%Z as [? ?] by (unfold d1, d2; lia).
    assert (L : (2 ^ (d1 - 1 + s) < 2 ^ (d2 + Zdigits2 q))%Z).
    { rewrite !Z.pow_add_r by lia.
      pose proof (Z.pow_pos_nonneg 2 (d1 - 1) ltac:(lia) ltac:(lia)).
      pose proof (Z.pow_pos_nonneg 2 d2 ltac:(lia) ltac:(lia)).
      nia. }
    apply Z.pow_lt_mono_r_iff in L; [|lia|lia].
    rewrite !fexp_eq. unfold e' at 1. rewrite fexp_eq. unfold s in L. lia. }
  (* the real quotient *)
  pose proof (F2R_pos mx ex) as Px. pose proof (F2R_pos my ey) as Py.
  pose proof (pow2_pos e') as Pe'.
  assert (Pmy : 0 < IZR (Z.pos my)) by (apply IZR_lt; lia).
  set (X := F2R mx ex / F2R my ey).
  assert (HX : X * IZR (Z.pos my) = IZR m' * powerRZ 2 e').
  { unfold X, F2R. rewrite Hm', mult_IZR, <- (pow2_IZR s) by assumption.
    replace ex with (s + e' + ey)%Z at 1 by (unfold s; lia).
    rewrite !pow2_add. pose proof (pow2_pos ey). pose proof (pow2_pos s).
    field. split; lra. }
  rewrite DM1, plus_IZR, mult_IZR in HX.
  assert (Hr1 : 0 <= IZR r) by (apply IZR_le; lia).
  assert (Hr2 : IZR r < IZR (Z.pos my)) by (apply IZR_lt; lia).
  rewrite plus_IZR.
  split.
  - split.
    + apply Rmult_le_reg_r with (IZR (Z.pos my)); [assumption|]. rewrite HX. nra.
    + apply Rmult_lt_reg_r with (IZR (Z.pos my)); [assumption|]. rewrite HX. nra.
  - rewrite new_location_exact. split.
    + intros ->. apply Rmult_eq_reg_r with (IZR (Z.pos my)); [|lra]. rewrite HX. simpl. ring.
    + intros E. rewrite E in HX. apply eq_IZR. nra.
Qed.

(** a quotient of positive floats stays below any float above the exact quotient *)
Lemma SFdiv_upper sx mx ex sy my ey ma ea :
  SpecFloat.bounded prec emax ma ea = true ->
  F2R mx ex / F2R my ey <= F2R ma ea ->
  let r := SF64div (S754_finite sx mx ex) (S754_finite sy my ey) in
  r = S754_zero (xorb sx sy) \/
  exists p e'', r = S754_finite (xorb sx sy) p e'' /\ F2R p e'' <= F2R ma ea.
Proof.
  intros Ba H. unfold SF64div. cbn [SFdiv].
  pose proof (div_core_spec mx ex my ey) as C.
  destruct (SFdiv_core_binary prec emax (Z.pos mx) ex (Z.pos my) ey) as [[q e'] l].
  cbv zeta in C. destruct C as (C1 & C2 & C3 & C4).
  cbv zeta. eapply bra_upper; eassumption.
Qed.

(** *** Classes and constants of primitive floats *)

Lemma is_finite_spec x : is_finite x = is_fin_sf (Prim2SF x).
Proof.
  unfold is_finite, is_infinity. rewrite is_nan_spec, FloatAxioms.eqb_spec, abs_spec.
  change (Prim2SF infinity) with (S754_infinity false).
  destruct (Prim2SF x) as [s|s| |s m e]; reflexivity.
Qed.

Lemma finite_not_nan x : is_finite x = true -> is_nan x = false.
Proof. rewrite is_finite_spec, is_nan_spec. destruct (Prim2SF x); auto; discriminate. Qed.

Lemma finite_bound x : is_finite x = true -> - powerRZ 2 1024 < value x < powerRZ 2 1024.
Proof.
  rewrite is_finite_spec. unfold value. pose proof (Prim2SF_valid x) as V.
  pose proof (pow2_pos 1024).
  destruct (Prim2SF x) as [s|s| |s m e]; try discriminate; intros _; cbn [SF2R].
  - lra.
  - pose proof (F2R_bound _ _ V). pose proof (F2R_pos m e). destruct s; cbn [sgn]; lra.
Qed.

Lemma bounded_finite x :
  is_nan x = false -> - powerRZ 2 1024 < value x < powerRZ 2 1024 -> is_finite x = true.
Proof.
  rewrite is_finite_spec, is_nan_spec. unfold value.
  destruct (Prim2SF x) as [s|s| |s m e]; try discriminate; try reflexivity.
  intros _. destruct s; cbn [SF2R sgn]; lra.
Qed.

Lemma value_opp x : value (- x)%float = - value x.
Proof.
  unfold value. rewrite opp_spec. destruct (Prim2SF x) as [s|s| |s m e]; cbn [SFopp SF2R];
    try lra; destruct s; cbn [negb sgn]; lra.
Qed.

Lemma is_nan_opp x : is_nan (- x)%float = is_nan x.
Proof. rewrite !is_nan_spec, opp_spec. destruct (Prim2SF x); reflexivity. Qed.

Lemma is_finite_opp x : is_finite (- x)%float = is_finite x.
Proof. rewrite !is_finite_spec, opp_spec. destruct (Prim2SF x); reflexivity. Qed.

Lemma pow2_neg z : powerRZ 2 (- z) = / powerRZ 2 z.
Proof. apply powerRZ_neg'. Qed.

Lemma value_zero : value 0%float = 0.
Proof. reflexivity. Qed.

Lemma value_one : value 1%float = 1.
Proof.
  unfold value. change (Prim2SF 1) with (S754_finite false 4503599627370496 (-52)).
  cbn [SF2R sgn]. unfold F2R. change (-52)%Z with (- (52))%Z. rewrite pow2_neg, (pow2_IZR 52) by lia.
  change (2 ^ 52)%Z with 4503599627370496%Z. lra.
Qed.

Lemma value_ten : value 10%float = 10.
Proof.
  unfold value. change (Prim2SF 10) with (S754_finite false 5629499534213120 (-49)).
  cbn [SF2R sgn]. unfold F2R. change (-49)%Z with (- (49))%Z. rewrite pow2_neg, (pow2_IZR 49) by lia.
  change (2 ^ 49)%Z with 562949953421312%Z. lra.
Qed.

Lemma value_twenty : value 20%float = 20.
Proof.
  unfold value. change (Prim2SF 20) with (S754_finite false 5629499534213120 (-48)).
  cbn [SF2R sgn]. unfold F2R. change (-48)%Z with (- (48))%Z. rewrite pow2_neg, (pow2_IZR 48) by lia.
  change (2 ^ 48)%Z with 281474976710656%Z. lra.
Qed.

Lemma F2R_hundred : F2R 7036874417766400 (-46) = 100.
Proof.
  unfold F2R. change (-46)%Z with (- (46))%Z. rewrite pow2_neg, (pow2_IZR 46) by lia.
  change (2 ^ 46)%Z with 70368744177664%Z. lra.
Qed.

Lemma value_hundred : value 100%float = 100.
Proof.
  unfold value. change (Prim2SF 100) with (S754_finite false 7036874417766400 (-46)).
  cbn [SF2R sgn]. rewrite F2R_hundred. lra.
Qed.

Lemma F2R_one : F2R 4503599627370496 (-52) = 1.
Proof. pose proof value_one as H. unfold value in H.
  change (Prim2SF 1) with (S754_finite false 4503599627370496 (-52)) in H.
  cbn [SF2R sgn] in H. lra.
Qed.

(** ** Arithmetic of primitive floats in terms of values *)

Lemma mul_le g q :
  is_finite g = true -> 0 <= value g ->
  is_nan q = false -> 0 <= value q <= 1 ->
  is_finite (g * q)%float = true /\ 0 <= value (g * q)%float <= value g.
Proof.
  rewrite !is_finite_spec, is_nan_spec. unfold value. rewrite mul_spec.
  intros. apply SFmul_le; auto using Prim2SF_valid.
Qed.

Lemma mul_nonneg x y :
  is_nan x = false -> 0 <= value x ->
  is_nan y = false -> 0 <= value y ->
  (is_finite x = true \/ 0 < value y) ->
  (is_finite y = true \/ 0 < value x) ->
  is_nan (x * y)%float = false /\ 0 <= value (x * y)%float.
Proof.
  rewrite !is_finite_spec, !is_nan_spec. unfold value. rewrite mul_spec.
  intros. apply SFmul_nonneg; auto.
Qed.

Lemma add_nonneg x y :
  is_nan x = false -> 0 <= value x ->
  is_nan y = false -> 0 <= value y ->
  is_nan (x + y)%float = false /\ 0 <= value (x + y)%float.
Proof.
  rewrite !is_nan_spec. unfold value. rewrite add_spec.
  intros. apply SFadd_nonneg; auto.
Qed.

Lemma add_ge_l x y :
  is_finite x = true -> value x <= 0 ->
  is_nan y = false -> 0 <= value y ->
  is_nan (x + y)%float = false /\ value x <= value (x + y)%float.
Proof.
  rewrite is_finite_spec, !is_nan_spec. unfold value. rewrite add_spec.
  intros. apply SFadd_ge_l; auto using Prim2SF_valid.
Qed.

Lemma sub_le x y :
  is_finite x = true ->
  is_nan y = false -> 0 <= value y <= value x ->
  is_finite (x - y)%float = true /\ 0 <= value (x - y)%float <= value x.
Proof.
  rewrite !is_finite_spec, !is_nan_spec. unfold value. rewrite sub_spec.
  intros. apply SFsub_le; auto using Prim2SF_valid.
Qed.

Lemma div_hundred x :
  is_finite x = true -> 0 <= value x ->
  is_finite (x / 100)%float = true /\
  0 <= value (x / 100)%float <= value x /\
  (value x <= 100 -> value (x / 100)%float <= 1).
Proof.
  rewrite !is_finite_spec. unfold value. rewrite div_spec.
  change (Prim2SF 100) with (S754_finite false 7036874417766400 (-46)).
  pose proof (Prim2SF_valid x) as V.
  destruct (Prim2SF x) as [s|s| |s m e]; try discriminate; intros _ P; cbn [SF2R] in *.
  - unfold SF64div; cbn [SFdiv SF2R is_fin_sf]. split; [reflexivity|]. split; lra.
  - apply sgn_F2R_nonneg in P. subst s. cbn [sgn valid_binary] in *.
    pose proof (F2R_pos m e) as Pm.
    assert (Q : F2R m e / F2R 7036874417766400 (-46) = F2R m e / 100) by (now rewrite F2R_hundred).
    destruct (SFdiv_upper false m e false 7036874417766400 (-46) m e V) as [R|(p & e'' & R & L)].
    { rewrite Q. lra. }
    + cbv zeta in R. rewrite R. cbn [xorb SF2R is_fin_sf]. split; [reflexivity|]. split; lra.
    + cbv zeta in R. rewrite R. cbn [xorb SF2R is_fin_sf sgn]. pose proof (F2R_pos p e'').
      split; [reflexivity|]. split; [lra|]. intros H100.
      destruct (SFdiv_upper false m e false 7036874417766400 (-46) 4503599627370496 (-52) eq_refl)
        as [R'|(p' & e3 & R' & L')].
      { rewrite Q, F2R_one. lra. }
      * cbv zeta in R'. rewrite R in R'. discriminate.
      * cbv zeta in R'. rewrite R in R'. injection R' as -> ->. rewrite F2R_one in L'. lra.
Qed.

End B64.

Import B64.

(** ** Values of the program's intermediate results *)

Section Values.

Local Open Scope R_scope.

Lemma big_gt100 : 100 < powerRZ 2 1024.
Proof.
  pose proof (pow2_lt 7 1024 ltac:(lia)) as H.
  rewrite (pow2_IZR 7) in H by lia. change (2 ^ 7)%Z with 128%Z in H. lra.
Qed.

Lemma value_zero_inv x :
  is_nan x = false -> value x = 0 -> exists s, Prim2SF x = S754_zero s.
Proof.
  rewrite is_nan_spec. unfold value. pose proof (pow2_pos 1024).
  destruct (Prim2SF x) as [s|s| |s m e]; try discriminate; intros _; cbn [SF2R].
  - eauto.
  - destruct s; cbn [sgn]; lra.
  - pose proof (F2R_pos m e). destruct s; cbn [sgn]; lra.
Qed.

(** two numbers with the same non-zero value are the same float *)
Lemma value_inj x y :
  is_nan x = false -> is_nan y = false -> value x = value y -> value x <> 0 -> x = y.
Proof.
  rewrite !is_nan_spec. unfold value. intros Nx Ny E NZ. apply Prim2SF_inj.
  pose proof (Prim2SF_valid x) as Vx. pose proof (Prim2SF_valid y) as Vy.
  pose proof (pow2_pos 1024) as Big.
  destruct (Prim2SF x) as [sx|sx| |sx mx ex]; try discriminate;
  destruct (Prim2SF y) as [sy|sy| |sy my ey]; try discriminate;
  cbn [SF2R valid_binary] in *.
  all: try (pose proof (F2R_pos mx ex)); try (pose proof (F2R_pos my ey)).
  all: try (pose proof (F2R_bound _ _ Vx)); try (pose proof (F2R_bound _ _ Vy)).
  all: try solve [sf_close].
  - destruct sx, sy; cbn [sgn] in *; try lra; reflexivity.
  - pose proof (cmp_mag_spec _ _ _ _ Vx Vy) as C.
    destruct sx, sy; cbn [sgn] in *; try lra;
      (destruct (cmp_mag mx ex my ey); [destruct C as [-> ->]; reflexivity|lra|lra]).
Qed.

Lemma mul_zero_r g q :
  is_finite g = true -> is_nan q = false -> value q = 0 ->
  is_finite (g * q)%float = true /\ value (g * q)%float = 0.
Proof.
  intros Fg Nq Vq. destruct (value_zero_inv q Nq Vq) as [s Es].
  rewrite !is_finite_spec in *. unfold value. rewrite mul_spec, Es.
  destruct (Prim2SF g) as [sg|sg| |sg m e]; try discriminate;
    unfold SF64mul; cbn [SFmul SF2R is_fin_sf]; split; reflexivity.
Qed.

Lemma add_zero_r x z :
  is_nan x = false -> is_nan z = false -> value z = 0 ->
  is_nan (x + z)%float = false /\ value (x + z)%float = value x.
Proof.
  intros Nx Nz Vz. destruct (value_zero_inv z Nz Vz) as [s Es].
  rewrite !is_nan_spec in *. unfold value. rewrite add_spec, Es.
  destruct (Prim2SF x) as [sx|sx| |sx m e]; try discriminate;
    unfold SF64add; cbn [SFadd]; try (split; reflexivity).
  destruct sx, s; cbn [SF2R is_nan_sf]; split; reflexivity.
Qed.

Lemma leb_zero_iff x : (0 <=? x)%float = true <-> is_nan x = false /\ 0 <= value x.
Proof.
  rewrite leb_iff, value_zero. change (is_nan 0) with false. tauto.
Qed.

Lemma amount_iff x : amount x = true <-> is_finite x = true /\ 0 <= value x.
Proof.
  unfold amount. rewrite andb_true_iff, leb_zero_iff.
  split; [tauto|]. intros [F V]. pose proof (finite_not_nan x F). tauto.
Qed.

(** ** The helpers of the source, in terms of values *)

Lemma clamp_range p :
  is_finite (clamp p 0 100) = true /\ 0 <= value (clamp p 0 100) <= 100.
Proof.
  unfold clamp, Py.max, Py.min. pose proof big_gt100 as Big.
  destruct (p <? 100)%float eqn:A1.
  - destruct (0 <? p)%float eqn:A2.
    + apply ltb_iff in A1, A2. rewrite value_hundred in A1. rewrite value_zero in A2.
      destruct A1 as (N & _ & U), A2 as (_ & _ & L).
      split; [apply bounded_finite; [assumption|lra]|lra].
    + split; [reflexivity|]. rewrite value_zero. lra.
  - change (0 <? 100)%float with true. cbv iota.
    split; [reflexivity|]. rewrite value_hundred. lra.
Qed.

Lemma clamp_in_range p :
  (0 <=? p)%float = true -> (p <=? 100)%float = true ->
  clamp p 0 100 = p \/ (value p = 0 /\ clamp p 0 100 = 0%float).
Proof.
  intros L U. apply leb_zero_iff in L. apply leb_iff in U. rewrite value_hundred in U.
  destruct L as [N L], U as (_ & _ & U).
  unfold clamp, Py.max, Py.min.
  destruct (p <? 100)%float eqn:A1.
  - destruct (0 <? p)%float eqn:A2; [now left|right].
    apply ltb_false_iff in A2. rewrite value_zero in A2. change (is_nan 0) with false in A2.
    split; [|reflexivity]. destruct A2 as [A|[A|A]]; try congruence. lra.
  - change (0 <? 100)%float with true. cbv iota. left.
    apply ltb_false_iff in A1. rewrite value_hundred in A1. change (is_nan 100) with false in A1.
    symmetry. apply value_inj; try assumption; try reflexivity.
    + rewrite value_hundred. destruct A1 as [A|[A|A]]; try congruence. lra.
    + destruct A1 as [A|[A|A]]; try congruence. lra.
Qed.

(** the share of the generation after clamping: a factor in [0, 1] *)
Lemma share_range p :
  let q := (clamp p 0 100 / 100)%float in
  is_finite q = true /\ 0 <= value q <= 1.
Proof.
  destruct (clamp_range p) as [F [L U]].
  destruct (div_hundred _ F L) as (F' & [L' _] & U'). cbv zeta. auto.
Qed.

Lemma target_range g p :
  is_finite g = true -> 0 <= value g ->
  let t := (g * (clamp p 0 100 / 100))%float in
  is_finite t = true /\ 0 <= value t <= value g.
Proof.
  intros Fg Pg. destruct (share_range p) as [F R]. cbv zeta.
  apply mul_le; try assumption. now apply finite_not_nan.
Qed.

Lemma self_consumed_range g c p :
  is_finite g = true -> 0 <= value g ->
  is_nan c = false -> 0 <= value c ->
  let t := (g * (clamp p 0 100 / 100))%float in
  let s := compute_self_consumed_kwh g c p in
  is_finite s = true /\ 0 <= value s /\
  value s <= value t /\ value s <= value c /\ value s <= value g.
Proof.
  intros Fg Pg Nc Pc. destruct (target_range g p Fg Pg) as [Ft [Lt Ut]]. cbv zeta.
  pose proof (finite_bound _ Ft) as Bt. pose proof (finite_not_nan _ Ft) as Nt.
  unfold compute_self_consumed_kwh, Py.min.
  destruct (c <? g * (clamp p 0 100 / 100))%float eqn:A.
  - apply ltb_iff in A. destruct A as (_ & _ & A).
    split; [apply bounded_finite; [assumption|lra]|lra].
  - apply ltb_false_iff in A. destruct A as [A|[A|A]]; try congruence.
    split; [assumption|lra].
Qed.

Lemma leb_false_iff x y :
  (x <=? y)%float = false <-> is_nan x = true \/ is_nan y = true \/ value y < value x.
Proof.
  pose proof (leb_iff x y) as L. destruct (x <=? y)%float.
  - split; [discriminate|]. intros H. destruct L as [L _]. specialize (L eq_refl).
    destruct L as (? & ? & ?). destruct H as [H|[H|H]]; try congruence. lra.
  - split; [|reflexivity]. intros _.
    destruct (is_nan x) eqn:Nx; [now left|]. destruct (is_nan y) eqn:Ny; [now right; left|].
    right; right. destruct (Rle_lt_dec (value x) (value y)); [|assumption].
    destruct L as [_ L]. discriminate L. auto.
Qed.

Lemma Prim2SF_neg_zero : Prim2SF neg_zero = S754_zero true.
Proof. reflexivity. Qed.

(** Adding to negative zero returns the other operand unchanged. *)
Lemma add_neg_zero_l (x : float) : (neg_zero + x)%float = x.
Proof.
  apply Prim2SF_inj. rewrite add_spec, Prim2SF_neg_zero.
  unfold SF64add. destruct (Prim2SF x) as [[|]|[|]| |s m e]; reflexivity.
Qed.

Lemma price_range x :
  amount x = true ->
  is_finite (euro_per_kwh_from_cent x) = true /\ 0 <= value (euro_per_kwh_from_cent x).
Proof.
  intros A. apply amount_iff in A. destruct A as [F P].
  destruct (div_hundred x F P) as (F' & [L _] & _). unfold euro_per_kwh_from_cent. auto.
Qed.

(** energy sold: [max(0, generation - self)] is finite and not negative *)
Lemma export_range g c p :
  is_finite g = true -> 0 <= value g -> is_nan c = false -> 0 <= value c ->
  let d := (g - compute_self_consumed_kwh g c p)%float in
  is_finite d = true /\ 0 <= value d /\
  is_finite (Py.max 0 d) = true /\ 0 <= value (Py.max 0 d).
Proof.
  intros Fg Pg Nc Pc. cbv zeta.
  destruct (self_consumed_range g c p Fg Pg Nc Pc) as (Fs & Ls & _ & _ & Us).
  destruct (sub_le g (compute_self_consumed_kwh g c p) Fg (finite_not_nan _ Fs) (conj Ls Us))
    as (Fd & Ld & _).
  split; [assumption|]. split; [assumption|].
  unfold Py.max. destruct (0 <? _)%float; [auto|].
  split; [reflexivity|]. rewrite value_zero. lra.
Qed.

Lemma amount_nonneg x : amount x = true -> (0 <=? x)%float = true.
Proof. intros A. apply amount_iff in A. apply leb_zero_iff. split; [apply finite_not_nan|]; tauto. Qed.

(** yearly cash flow of the self-consumption variants; the consumption may
    be infinite *)
Lemma annual_nonneg g c p rc ec :
  amount g = true -> (0 <=? c)%float = true -> amount rc = true -> amount ec = true ->
  let self_kwh := compute_self_consumed_kwh g c p in
  let export_kwh := Py.max 0 (g - self_kwh)%float in
  let annual := (self_kwh * euro_per_kwh_from_cent rc
                 + export_kwh * euro_per_kwh_from_cent ec)%float in
  is_nan annual = false /\ 0 <= value annual.
Proof.
  intros Ag Ac Arc Aec. cbv zeta.
  apply amount_iff in Ag. apply leb_zero_iff in Ac. destruct Ag as [Fg Pg], Ac as [Nc Pc].
  destruct (self_consumed_range g c p Fg Pg Nc Pc) as (Fs & Ls & _).
  destruct (export_range g c p Fg Pg Nc Pc) as (_ & _ & Fe & Le).
  destruct (price_range rc Arc) as [Fr Lr]. destruct (price_range ec Aec) as [Fx Lx].
  destruct (mul_nonneg _ _ (finite_not_nan _ Fs) Ls (finite_not_nan _ Fr) Lr
              (or_introl Fs) (or_introl Fr)) as [N1 P1].
  destruct (mul_nonneg _ _ (finite_not_nan _ Fe) Le (finite_not_nan _ Fx) Lx
              (or_introl Fe) (or_introl Fx)) as [N2 P2].
  now apply add_nonneg.
Qed.

(** a record built from a non-negative yearly cash flow is sound *)
Lemma sound_of_annual n invest annual t10 :
  amount invest = true -> is_nan annual = false -> 0 <= value annual ->
  sound_result (mkResult n invest annual t10 (- invest + 20 * annual)%float
                         (payback_years invest annual)).
Proof.
  intros Ai Na Pa. apply amount_iff in Ai. destruct Ai as [Fi Pi].
  pose proof (finite_not_nan _ Fi) as Ni.
  unfold sound_result. cbn [annual_cashflow_eur res_payback_years invest_eur total_20y_eur].
  split; [|split].
  - apply leb_zero_iff. auto.
  - unfold payback_years. destruct (invest <=? 0)%float eqn:E1; [discriminate|].
    destruct (annual <=? 0)%float eqn:E2; [|discriminate]. intros _.
    apply leb_false_iff in E1. apply leb_iff in E2. rewrite value_zero in *.
    change (is_nan 0) with false in *. destruct E2 as (_ & _ & E2).
    split.
    + apply eqb_iff. rewrite value_zero. change (is_nan 0) with false.
      repeat split; try assumption; lra.
    + apply ltb_iff. rewrite value_zero. change (is_nan 0) with false.
      repeat split; try assumption. destruct E1 as [E|[E|E]]; try congruence.
  - assert (P20' : 0 < value 20) by (rewrite value_twenty; lra).
    destruct (mul_nonneg 20 annual eq_refl (Rlt_le _ _ P20') Na Pa
                (or_introl eq_refl) (or_intror P20')) as [N20 P20].
    destruct (add_ge_l (- invest)%float (20 * annual)%float) as [Ns Ls]; try assumption.
    + now rewrite is_finite_opp.
    + rewrite value_opp. lra.
    + apply leb_iff. rewrite is_nan_opp. auto.
Qed.

End Values.

(** ** Order facts on floats *)

Lemma eqb_false_iff x y :
  (x =? y) = false <-> is_nan x = true \/ is_nan y = true \/ value x <> value y.
Proof.
  pose proof (eqb_iff x y) as L. destruct (x =? y).
  - split; [discriminate|]. intros H. destruct L as [L _]. specialize (L eq_refl).
    destruct L as (? & ? & ?). destruct H as [H|[H|H]]; congruence.
  - split; [|reflexivity]. intros _.
    destruct (is_nan x) eqn:Nx; [now left|]. destruct (is_nan y) eqn:Ny; [now right; left|].
    right; right. intros E. destruct L as [_ L]. discriminate L. auto.
Qed.

Lemma ltb_irrefl x : (x <? x) = false.
Proof.
  apply ltb_false_iff. destruct (is_nan x); [now left|]. right; right. apply Rle_refl.
Qed.

Lemma ltb_leb_false x y : (x <? y) = true -> (y <=? x) = false.
Proof.
  intros H. apply ltb_iff in H. apply leb_false_iff. tauto.
Qed.

(** once [x] has beaten [b], nothing that [b] was not below beats or ties [x] *)
Lemma beaten_stays_below b x y :
  (b <? x) = true -> (b <? y) = false ->
  (x <? y) = false /\ (y =? x) = false.
Proof.
  intros H1 H2. apply ltb_iff in H1. apply ltb_false_iff in H2.
  destruct H1 as (Nb & Nx & L).
  destruct (is_nan y) eqn:Ny.
  - split; [apply ltb_false_iff|apply eqb_false_iff]; tauto.
  - destruct H2 as [H2|[H2|H2]]; try congruence.
    split; [apply ltb_false_iff|apply eqb_false_iff]; right; right; lra.
Qed.

Lemma not_below_leb b r :
  is_nan b = false -> is_nan r = false -> (b <? r) = false -> (r <=? b) = true.
Proof.
  intros Nb Nr H. apply ltb_false_iff in H. apply leb_iff.
  destruct H as [H|[H|H]]; try congruence. auto.
Qed.

Lemma leb_neq_ltb r b : (r <=? b) = true -> (r =? b) = false -> (r <? b) = true.
Proof.
  intros H1 H2. apply leb_iff in H1. apply eqb_false_iff in H2. apply ltb_iff.
  destruct H1 as (N1 & N2 & L). destruct H2 as [H|[H|H]]; try congruence.
  repeat split; try assumption. lra.
Qed.

(** ** [max(..., key=...)] returns the first maximal element *)

Lemma max_key_from_spec {A : Type} (key : A -> float) :
  forall l pre best post0,
    (forall y, In y pre -> (key y =? key best) = false) ->
    (forall y, In y (pre ++ best :: post0) -> (key best <? key y) = false) ->
    exists pre' post',
      pre ++ best :: post0 ++ l = pre' ++ Py.max_key_from key best l :: post' /\
      (forall y, In y pre' -> (key y =? key (Py.max_key_from key best l)) = false) /\
      (forall y, In y (pre ++ best :: post0 ++ l) ->
                 (key (Py.max_key_from key best l) <? key y) = false).
Proof.
  induction l as [|x l IH]; intros pre best post0 HT HM; simpl Py.max_key_from.
  - exists pre, post0. rewrite app_nil_r. auto.
  - destruct (key best <? key x) eqn:E.
    + destruct (IH (pre ++ best :: post0) x []) as (pre' & post' & E1 & T1 & M1).
      * intros y Hy. apply (beaten_stays_below _ _ _ E (HM y Hy)).
      * intros y Hy. rewrite in_app_iff in Hy. destruct Hy as [Hy|[<-|[]]].
        -- apply (beaten_stays_below _ _ _ E (HM y Hy)).
        -- apply ltb_irrefl.
      * exists pre', post'. simpl in E1, M1. rewrite <- app_assoc in E1, M1.
        simpl in E1, M1. auto.
    + destruct (IH pre best (post0 ++ [x])) as (pre' & post' & E1 & T1 & M1).
      * assumption.
      * intros y Hy. rewrite app_comm_cons, app_assoc, in_app_iff in Hy.
        destruct Hy as [Hy|[<-|[]]]; [now apply HM|assumption].
      * exists pre', post'. rewrite <- app_assoc in E1, M1. simpl in E1, M1. auto.
Qed.

Lemma max_key_spec {A : Type} (key : A -> float) (x : A) (l : list A) :
  exists pre b post,
    x :: l = pre ++ b :: post /\
    Py.max_key key (x :: l) = Some b /\
    (forall y, In y (x :: l) -> (key b <? key y) = false) /\
    (forall y, In y pre -> (key y =? key b) = false).
Proof.
  destruct (max_key_from_spec key l [] x []) as (pre & post & E & T & M).
  - intros y [].
  - intros y [<-|[]]. apply ltb_irrefl.
  - exists pre, (Py.max_key_from key x l), post. simpl in E, M. auto.
Qed.

(** ** Multi-year totals *)

(** C1: for each of the three evaluators and for all inputs, the record
    built satisfies [total_10y_eur = -invest_eur + 10 * annual_cashflow_eur]
    and [total_20y_eur = -invest_eur + 20 * annual_cashflow_eur]: the two
    sides are the same float. *)
Theorem totals_linear_all_variants :
  (forall g m,
      let r := variant1_full_feed_in g m in
      total_10y_eur r = - invest_eur r + 10 * annual_cashflow_eur r /\
      total_20y_eur r = - invest_eur r + 20 * annual_cashflow_eur r) /\
  (forall n g c p i rc ec,
      let r := variant_self_consumption n g c p i rc ec in
      total_10y_eur r = - invest_eur r + 10 * annual_cashflow_eur r /\
      total_20y_eur r = - invest_eur r + 20 * annual_cashflow_eur r) /\
  (forall g c p i rc ec,
      let r := variant4_new_system g c p i rc ec in
      total_10y_eur r = - invest_eur r + 10 * annual_cashflow_eur r /\
      total_20y_eur r = - invest_eur r + 20 * annual_cashflow_eur r).
Proof.
  repeat split; try reflexivity.
  - cbn [variant1_full_feed_in total_10y_eur invest_eur annual_cashflow_eur].
    change (- 0) with neg_zero. now rewrite add_neg_zero_l.
  - cbn [variant1_full_feed_in total_20y_eur invest_eur annual_cashflow_eur].
    change (- 0) with neg_zero. now rewrite add_neg_zero_l.
Qed.

(** ** Payback *)

(** C2: [payback_years] returns 0 when [invest <= 0], whatever the yearly
    cash flow; [None] when [invest > 0] and [annual <= 0]; and
    [invest / annual] when both are positive. *)
Theorem payback_years_cases (invest annual : float) :
  ((invest <=? 0) = true -> payback_years invest annual = Some 0) /\
  ((0 <? invest) = true -> (annual <=? 0) = true ->
     payback_years invest annual = None) /\
  ((0 <? invest) = true -> (0 <? annual) = true ->
     payback_years invest annual = Some (invest / annual)).
Proof.
  unfold payback_years. repeat split.
  - intros ->. reflexivity.
  - intros Hi Ha. rewrite (ltb_leb_false _ _ Hi), Ha. reflexivity.
  - intros Hi Ha. rewrite (ltb_leb_false _ _ Hi), (ltb_leb_false _ _ Ha). reflexivity.
Qed.

Lemma payback_years_cases_witness :
  ((0 <=? 0) = true /\ payback_years 0 157.5 = Some 0) /\
  ((0 <? 1200) = true /\ (0 <=? 0) = true /\ payback_years 1200 0 = None) /\
  ((0 <? 1200) = true /\ (0 <? 542.25) = true /\
   payback_years 1200 542.25 = Some (1200 / 542.25)).
Proof.
  split; [split; [reflexivity|]|split; [split; [reflexivity|split; [reflexivity|]]
                                        |split; [reflexivity|split; [reflexivity|]]]].
  - exact (proj1 (payback_years_cases 0 157.5) eq_refl).
  - exact (proj1 (proj2 (payback_years_cases 1200 0)) eq_refl eq_refl).
  - exact (proj2 (proj2 (payback_years_cases 1200 542.25)) eq_refl eq_refl).
Defined.

(** ** The allocator *)

(** C3, as stated, fails.  With the sidebar defaults and a share of 7 %
    the allocator returns 315.00000000000006, above 4500 * 7 / 100 = 315;
    and for an infinite generation with a share of 0 % it returns NaN,
    which is below nothing, whichever way the product is bracketed. *)
Lemma allocation_bound_counterexample :
  ~ (forall g c p,
        (0 <=? g) = true -> (0 <=? c) = true ->
        (0 <=? p) = true -> (p <=? 100) = true ->
        (compute_self_consumed_kwh g c p <=? c) = true /\
        (compute_self_consumed_kwh g c p <=? g * p / 100) = true) /\
  ~ (forall g c p,
        (0 <=? g) = true -> (0 <=? c) = true ->
        (0 <=? p) = true -> (p <=? 100) = true ->
        (compute_self_consumed_kwh g c p <=? c) = true /\
        (compute_self_consumed_kwh g c p <=? g * (p / 100)) = true).
Proof.
  split; intros H.
  - destruct (H 4500 4000 7 eq_refl eq_refl eq_refl eq_refl) as [_ B].
    vm_compute in B. discriminate B.
  - destruct (H infinity 4000 0 eq_refl eq_refl eq_refl eq_refl) as [B _].
    vm_compute in B. discriminate B.
Qed.

(** C3 (amended): for every finite generation >= 0, every consumption >= 0
    and every pct in [0, 100] the allocator returns a value that is
    <= consumption, <= the product [generation * (pct / 100)] as the code
    rounds it, and <= generation. *)
Theorem allocation_bounds (g c p : float) :
  is_finite g = true -> (0 <=? g) = true -> (0 <=? c) = true ->
  (0 <=? p) = true -> (p <=? 100) = true ->
  let s := compute_self_consumed_kwh g c p in
  (s <=? c) = true /\ (s <=? g * (p / 100)) = true /\ (s <=? g) = true.
Proof.
  intros Fg Pg Pc Lp Up. cbv zeta.
  apply leb_zero_iff in Pg, Pc. destruct Pg as [Ng Pg], Pc as [Nc Pc].
  destruct (self_consumed_range g c p Fg Pg Nc Pc) as (Fs & Ls & Ut & Uc & Ug).
  cbv zeta in Ut. pose proof (finite_not_nan _ Fs) as Ns.
  split; [apply leb_iff; auto|]. split; [|apply leb_iff; auto].
  destruct (clamp_in_range p Lp Up) as [E|[Vp E]].
  - rewrite E in Ut. destruct (target_range g p Fg Pg) as [Ft _]. cbv zeta in Ft.
    rewrite E in Ft. apply leb_iff. auto using finite_not_nan.
  - rewrite E in Ut. change (0 / 100) with 0 in Ut.
    destruct (mul_zero_r g 0 Fg eq_refl value_zero) as [_ V0]. rewrite V0 in Ut.
    apply leb_zero_iff in Lp. destruct Lp as [Np _].
    assert (Fp : is_finite p = true).
    { apply bounded_finite; [assumption|]. rewrite Vp. pose proof (pow2_pos 1024). lra. }
    destruct (div_hundred p Fp ltac:(lra)) as (Fq & [Lq Uq] & _).
    destruct (mul_zero_r g (p / 100) Fg (finite_not_nan _ Fq) ltac:(lra)) as [Ft Vt].
    apply leb_iff. rewrite Vt. auto using finite_not_nan.
Qed.

Lemma allocation_bounds_witness :
  (is_finite 4500 = true /\ (0 <=? 4500) = true /\ (0 <=? 4000) = true /\
   (0 <=? 30) = true /\ (30 <=? 100) = true) /\
  (compute_self_consumed_kwh 4500 4000 30 <=? 4000) = true /\
  (compute_self_consumed_kwh 4500 4000 30 <=? 4500 * (30 / 100)) = true /\
  (compute_self_consumed_kwh 4500 4000 30 <=? 4500) = true.
Proof.
  split; [repeat split|].
  exact (allocation_bounds 4500 4000 30 eq_refl eq_refl eq_refl eq_refl eq_refl).
Defined.

(** ** The clamp *)

Lemma clamp_idempotent p : clamp (clamp p 0 100) 0 100 = clamp p 0 100.
Proof.
  unfold clamp, Py.max, Py.min.
  destruct (p <? 100) eqn:A1.
  - destruct (0 <? p) eqn:A2.
    + rewrite A1, A2. reflexivity.
    + reflexivity.
  - reflexivity.
Qed.

Lemma clamp_above p : (100 <? p) = true -> clamp p 0 100 = 100.
Proof.
  intros H. unfold clamp, Py.max, Py.min.
  assert (A : (p <? 100) = false).
  { apply ltb_iff in H. destruct H as (_ & _ & H).
    apply ltb_false_iff. right; right. lra. }
  rewrite A. reflexivity.
Qed.

Lemma clamp_below p : (p <? 0) = true -> clamp p 0 100 = 0.
Proof.
  intros H. unfold clamp, Py.max, Py.min.
  apply ltb_iff in H. destruct H as (Np & _ & H). rewrite value_zero in H.
  assert (A1 : (p <? 100) = true).
  { apply ltb_iff. rewrite value_hundred. repeat split; auto. lra. }
  assert (A2 : (0 <? p) = false).
  { apply ltb_false_iff. rewrite value_zero. right; right. lra. }
  rewrite A1, A2. reflexivity.
Qed.

Lemma clamp_inside p :
  (0 <=? p) = true -> (p <=? 100) = true -> (clamp p 0 100 =? p) = true.
Proof.
  intros H0 H1. pose proof H0 as N. apply leb_zero_iff in N. destruct N as [N _].
  destruct (clamp_in_range p H0 H1) as [E|[V E]]; rewrite E; apply eqb_iff.
  - auto.
  - rewrite value_zero. auto.
Qed.

(** C6: a percentage outside [0, 100] is clamped, not rejected: the
    allocator gives the same result for [pct] and for [clamp(pct, 0, 100)],
    where the clamped share always lies in [0, 100], is 100 for every
    [pct > 100] and 0 for every [pct < 0], and equals [pct] when that is
    in range; so a share above 100 acts as 100 and one below 0 as 0, and
    in particular 150 gives the same as 100. *)
Theorem clamp_before_use :
  (forall g c p,
      compute_self_consumed_kwh g c p =
      compute_self_consumed_kwh g c (clamp p 0 100)) /\
  (forall p, (0 <=? clamp p 0 100) = true /\ (clamp p 0 100 <=? 100) = true) /\
  (forall p, (100 <? p) = true -> clamp p 0 100 = 100) /\
  (forall p, (p <? 0) = true -> clamp p 0 100 = 0) /\
  (forall p, (0 <=? p) = true -> (p <=? 100) = true -> (clamp p 0 100 =? p) = true) /\
  (forall g c p, (100 <? p) = true ->
      compute_self_consumed_kwh g c p = compute_self_consumed_kwh g c 100) /\
  (forall g c p, (p <? 0) = true ->
      compute_self_consumed_kwh g c p = compute_self_consumed_kwh g c 0) /\
  compute_self_consumed_kwh 1000 1000 150 = compute_self_consumed_kwh 1000 1000 100.
Proof.
  split; [|split; [|split; [|split; [|split; [|split; [|split]]]]]].
  - intros g c p. unfold compute_self_consumed_kwh. now rewrite clamp_idempotent.
  - intros p. destruct (clamp_range p) as [F [L U]].
    pose proof (finite_not_nan _ F) as N.
    split; apply leb_iff; rewrite ?value_zero, ?value_hundred; auto.
  - exact clamp_above.
  - exact clamp_below.
  - exact clamp_inside.
  - intros g c p H. unfold compute_self_consumed_kwh. now rewrite (clamp_above p H).
  - intros g c p H. unfold compute_self_consumed_kwh. now rewrite (clamp_below p H).
  - reflexivity.
Qed.

Lemma clamp_before_use_witness :
  ((100 <? 150) = true /\ (-5 <? 0) = true /\
   (0 <=? 30) = true /\ (30 <=? 100) = true) /\
  compute_self_consumed_kwh 1000 2000 150 = compute_self_consumed_kwh 1000 2000 100 /\
  compute_self_consumed_kwh 1000 2000 (-5) = compute_self_consumed_kwh 1000 2000 0 /\
  (clamp 30 0 100 =? 30) = true.
Proof.
  destruct clamp_before_use as (_ & _ & _ & _ & I & A & B & _).
  split; [repeat split|]. split; [|split].
  - exact (A 1000 2000 150 eq_refl).
  - exact (B 1000 2000 (-5) eq_refl).
  - exact (I 30 eq_refl eq_refl).
Defined.

(** ** Exported energy *)

(** C7, as stated, fails: an infinite generation with a share of 0 % makes
    the self-consumed energy NaN, and so is the difference. *)
Lemma export_nonneg_counterexample :
  ~ (forall g c p,
        (0 <=? g) = true -> (0 <=? c) = true ->
        (0 <=? g - compute_self_consumed_kwh g c p) = true).
Proof.
  intros H. specialize (H infinity 4000 0 eq_refl eq_refl).
  vm_compute in H. discriminate H.
Qed.

(** C7 (amended): for every finite generation >= 0, every consumption >= 0
    and any pct, [generation - self_consumed >= 0], so that [max(0, ...)]
    returns a value equal to it; and for all inputs whatsoever the quantity
    the evaluators use, [max(0, generation - self_consumed)], is not
    negative. *)
Theorem export_nonneg :
  (forall g c p,
      is_finite g = true -> (0 <=? g) = true -> (0 <=? c) = true ->
      let d := g - compute_self_consumed_kwh g c p in
      (0 <=? d) = true /\ (Py.max 0 d =? d) = true) /\
  (forall g c p,
      (0 <=? Py.max 0 (g - compute_self_consumed_kwh g c p)) = true).
Proof.
  split.
  - intros g c p Fg Pg Pc. cbv zeta.
    apply leb_zero_iff in Pg, Pc. destruct Pg as [Ng Pg], Pc as [Nc Pc].
    destruct (export_range g c p Fg Pg Nc Pc) as (Fd & Ld & _). cbv zeta in Fd, Ld.
    pose proof (finite_not_nan _ Fd) as Nd.
    split; [apply leb_zero_iff; auto|].
    unfold Py.max. destruct (0 <? _) eqn:E.
    + apply eqb_iff. auto.
    + apply ltb_false_iff in E. rewrite value_zero in E. change (is_nan 0) with false in E.
      apply eqb_iff. rewrite value_zero. change (is_nan 0) with false.
      repeat split; try assumption. destruct E as [E|[E|E]]; try congruence. lra.
  - intros g c p. unfold Py.max. destruct (0 <? _) eqn:E.
    + apply ltb_iff in E. apply leb_iff. destruct E as (? & ? & ?). repeat split; try assumption. lra.
    + reflexivity.
Qed.

Lemma export_nonneg_witness :
  (is_finite 4500 = true /\ (0 <=? 4500) = true /\ (0 <=? 4000) = true) /\
  (0 <=? 4500 - compute_self_consumed_kwh 4500 4000 30) = true /\
  (Py.max 0 (4500 - compute_self_consumed_kwh 4500 4000 30)
   =? 4500 - compute_self_consumed_kwh 4500 4000 30) = true.
Proof.
  split; [repeat split|].
  exact (proj1 export_nonneg 4500 4000 30 eq_refl eq_refl eq_refl).
Defined.

(** ** The aggregator *)

(** C4: from the ordered list of the four results the aggregator returns a
    result [b] of the list such that no result has a strictly greater
    [total_20y_eur] and no result before [b] has an equal one: the first
    maximum in evaluation order.  When no total is NaN this is: every
    total is <= that of [b], and every earlier one is strictly smaller. *)
Theorem best_20_first_maximum (r1 r2 r3 r4 : Result) :
  exists pre b post,
    [r1; r2; r3; r4] = pre ++ b :: post /\
    App.best_20 [r1; r2; r3; r4] = Some b /\
    (forall r, In r [r1; r2; r3; r4] ->
               (total_20y_eur b <? total_20y_eur r) = false) /\
    (forall r, In r pre -> (total_20y_eur r =? total_20y_eur b) = false) /\
    ((forall r, In r [r1; r2; r3; r4] -> is_nan (total_20y_eur r) = false) ->
     (forall r, In r [r1; r2; r3; r4] ->
                (total_20y_eur r <=? total_20y_eur b) = true) /\
     (forall r, In r pre -> (total_20y_eur r <? total_20y_eur b) = true)).
Proof.
  destruct (max_key_spec total_20y_eur r1 [r2; r3; r4]) as (pre & b & post & E & B & M & T).
  exists pre, b, post. repeat (split; [assumption|]).
  intros N.
  assert (Nb : is_nan (total_20y_eur b) = false).
  { apply N. rewrite E. apply in_or_app. right. now left. }
  assert (L : forall r, In r [r1; r2; r3; r4] ->
                        (total_20y_eur r <=? total_20y_eur b) = true).
  { intros r Hr. apply not_below_leb; auto. }
  split; [exact L|].
  intros r Hr. apply leb_neq_ltb; [|now apply T].
  apply L. rewrite E. apply in_or_app. now left.
Qed.

Lemma best_20_first_maximum_witness :
  (forall r, In r (App.results App.defaults) -> is_nan (total_20y_eur r) = false) /\
  exists b, App.best_20 (App.results App.defaults) = Some b /\
            forall r, In r (App.results App.defaults) ->
                      (total_20y_eur r <=? total_20y_eur b) = true.
Proof.
  assert (N : forall r, In r (App.results App.defaults) ->
                        is_nan (total_20y_eur r) = false).
  { intros r [<-|[<-|[<-|[<-|[]]]]]; reflexivity. }
  split; [exact N|].
  destruct (best_20_first_maximum (App.r1 App.defaults) (App.r2 App.defaults)
              (App.r3 App.defaults) (App.r4 App.defaults))
    as (pre & b & post & _ & B & _ & _ & H).
  exists b. split; [exact B|]. exact (proj1 (H N)).
Defined.

(** ** The cash-flow series *)

(** C5, as stated, fails in its last part: with an infinite yearly cash
    flow the point of year 0 is [-invest + inf * 0], which is NaN and not
    [-invest]. *)
Lemma cashflow_year0_counterexample :
  ~ (forall invest annual v0,
        nth_error (App.cashflow_curve invest annual) 0 = Some v0 ->
        (v0 =? - invest) = true).
Proof.
  intros H. specialize (H 1200 infinity nan eq_refl). vm_compute in H. discriminate H.
Qed.

Lemma years_nth y :
  (0 <= y <= 20)%Z -> nth_error App.years (Z.to_nat y) = Some y.
Proof.
  intros H.
  assert (C : (y = 0 \/ y = 1 \/ y = 2 \/ y = 3 \/ y = 4 \/ y = 5 \/ y = 6 \/ y = 7 \/
               y = 8 \/ y = 9 \/ y = 10 \/ y = 11 \/ y = 12 \/ y = 13 \/ y = 14 \/
               y = 15 \/ y = 16 \/ y = 17 \/ y = 18 \/ y = 19 \/ y = 20)%Z) by lia.
  repeat (destruct C as [->|C]; [reflexivity|]). subst y. reflexivity.
Qed.

(** C5 (amended): for every invest and annual the series has the 21 points
    of the years 0..20 and its point of year [y] is
    [-invest + annual * y]; the point of year 0 equals [-invest] whenever
    annual is finite and invest is a number; [df_line] holds this series
    for every result. *)
Theorem cashflow_curve_spec (invest annual : float) :
  List.length (App.cashflow_curve invest annual) = 21%nat /\
  App.years = [0; 1; 2; 3; 4; 5; 6; 7; 8; 9; 10; 11; 12; 13; 14; 15; 16; 17; 18; 19; 20]%Z /\
  (forall y, (0 <= y <= 20)%Z ->
     nth_error (App.cashflow_curve invest annual) (Z.to_nat y)
     = Some (- invest + annual * Py.float_of_int y)) /\
  (is_finite annual = true -> is_nan invest = false ->
   exists v0, nth_error (App.cashflow_curve invest annual) 0 = Some v0 /\
              (v0 =? - invest) = true) /\
  (forall rs r, In r rs ->
     In (name r, App.cashflow_curve (invest_eur r) (annual_cashflow_eur r))
        (App.df_line rs)).
Proof.
  split; [reflexivity|]. split; [reflexivity|].
  split; [|split; [|intros rs r Hr; unfold App.df_line;
                     exact (in_map (fun r => (name r, App.cashflow_curve (invest_eur r) (annual_cashflow_eur r))) rs r Hr)]].
  - intros y Hy. unfold App.cashflow_curve.
    now rewrite nth_error_map, (years_nth y Hy).
  - intros Fa Ni. exists (- invest + annual * Py.float_of_int 0). split; [reflexivity|].
    change (Py.float_of_int 0) with 0.
    destruct (mul_zero_r annual 0 Fa eq_refl value_zero) as [Fz Vz].
    destruct (add_zero_r (- invest) (annual * 0)) as [Ns Vs];
      [now rewrite is_nan_opp|now apply finite_not_nan|assumption|].
    apply eqb_iff. rewrite is_nan_opp. auto.
Qed.

Lemma cashflow_curve_spec_witness :
  (is_finite 542.25 = true /\ is_nan 1200 = false) /\
  exists v0, nth_error (App.cashflow_curve 1200 542.25) 0 = Some v0 /\
             (v0 =? - 1200) = true.
Proof.
  split; [split; reflexivity|].
  exact (proj1 (proj2 (proj2 (proj2 (cashflow_curve_spec 1200 542.25)))) eq_refl eq_refl).
Defined.

(** ** Scenarios *)

(** C8, as stated, fails in its scenario: 3.5 / 100 is not exactly 0.035
    in binary64, and 4500 times it rounds to 157.50000000000003, not
    157.5; twenty times that is 3150.0000000000005, not 3150. *)
Lemma variant1_scenario_counterexample :
  (annual_cashflow_eur (variant1_full_feed_in 4500 3.5) =? 157.5) = false /\
  (total_20y_eur (variant1_full_feed_in 4500 3.5) =? 3150) = false.
Proof. split; reflexivity. Qed.

(** C8 (amended): variant 1 always has [invest_eur = 0], yearly cash flow
    [generation * (market_cent / 100)] and payback 0; for generation 4500
    and 3.5 ct it yields invest 0, payback 0, and a yearly cash flow and a
    20-year total that are the floats next above 157.5 and 3150
    (157.50000000000003 and 3150.0000000000005). *)
Theorem variant1_spec :
  (forall g m,
      let r := variant1_full_feed_in g m in
      invest_eur r = 0 /\
      annual_cashflow_eur r = g * (m / 100) /\
      res_payback_years r = Some 0) /\
  (let r := variant1_full_feed_in 4500 3.5 in
   invest_eur r = 0 /\
   res_payback_years r = Some 0 /\
   annual_cashflow_eur r = next_up 157.5 /\
   total_20y_eur r = next_up 3150 /\
   annual_cashflow_eur r - 157.5 = 0x1p-45 /\
   total_20y_eur r - 3150 = 0x1p-41).
Proof.
  split.
  - intros g m. repeat split.
  - repeat split.
Qed.

(** C9: for generation 4500, consumption 4000, a share of 30 %, 32 ct
    retail and 3.5 ct export the evaluator computes exactly 1350 kWh
    self-consumed, 3150 kWh exported and a yearly cash flow of 542.25,
    whatever the name and the investment; as floats
    [1350 * 0.32 + 3150 * 0.035] and [432 + 110.25] are 542.25 too. *)
Theorem self_consumption_scenario :
  compute_self_consumed_kwh 4500 4000 30 = 1350 /\
  Py.max 0 (4500 - compute_self_consumed_kwh 4500 4000 30) = 3150 /\
  (forall n i,
      annual_cashflow_eur (variant_self_consumption n 4500 4000 30 i 32 3.5) = 542.25) /\
  1350 * euro_per_kwh_from_cent 32 + 3150 * euro_per_kwh_from_cent 3.5 = 542.25 /\
  432 + 110.25 = 542.25.
Proof.
  repeat split.
Qed.

(** ** Soundness of every variant *)

(** C10, as stated, fails: an infinite generation sold at 0 ct gives the
    yearly cash flow [inf * 0], which is NaN and not >= 0. *)
Lemma variants_sound_counterexample :
  ~ (forall g m,
        (0 <=? g) = true -> (0 <=? m) = true ->
        (0 <=? annual_cashflow_eur (variant1_full_feed_in g m)) = true).
Proof.
  intros H. specialize (H infinity 0 eq_refl eq_refl). vm_compute in H. discriminate H.
Qed.

(** C10 (amended): for all finite non-negative generations, prices in
    cents and investments, every consumption >= 0 (infinite or not) and
    any percentage, every variant evaluator produces
    [annual_cashflow_eur >= 0]; its payback is [None] only when the yearly
    cash flow is 0 while [invest_eur > 0]; and
    [total_20y_eur >= -invest_eur]. *)
Theorem variants_sound :
  (forall g m,
      amount g = true -> amount m = true ->
      sound_result (variant1_full_feed_in g m)) /\
  (forall n g c p i rc ec,
      amount g = true -> (0 <=? c) = true -> amount i = true ->
      amount rc = true -> amount ec = true ->
      sound_result (variant_self_consumption n g c p i rc ec)) /\
  (forall g c p i rc ec,
      amount g = true -> (0 <=? c) = true -> amount i = true ->
      amount rc = true -> amount ec = true ->
      sound_result (variant4_new_system g c p i rc ec)).
Proof.
  split; [|split].
  - intros g m Ag Am. unfold variant1_full_feed_in. cbv zeta.
    rewrite <- (add_neg_zero_l (20 * _)). change neg_zero with (- 0).
    destruct (price_range m Am) as [Fm Pm].
    apply amount_iff in Ag. destruct Ag as [Fg Pg].
    destruct (mul_nonneg _ _ (finite_not_nan _ Fg) Pg (finite_not_nan _ Fm) Pm
                (or_introl Fg) (or_introl Fm)) as [Na Pa].
    now apply sound_of_annual.
  - intros n g c p i rc ec Ag Ac Ai Arc Aec.
    destruct (annual_nonneg g c p rc ec Ag Ac Arc Aec) as [Na Pa].
    unfold variant_self_consumption. cbv zeta. now apply sound_of_annual.
  - intros g c p i rc ec Ag Ac Ai Arc Aec.
    destruct (annual_nonneg g c p rc ec Ag Ac Arc Aec) as [Na Pa].
    unfold variant4_new_system. cbv zeta. now apply sound_of_annual.
Qed.

Lemma variants_sound_witness :
  (amount 4500 = true /\ amount 3.5 = true /\ (0 <=? 4000) = true /\
   (0 <=? infinity) = true /\
   amount 1200 = true /\ amount 32 = true /\ amount 16000 = true /\
   amount 7000 = true /\ amount 8 = true) /\
  sound_result (variant1_full_feed_in 4500 3.5) /\
  sound_result (variant_self_consumption "V2 Eigenverbrauch (ohne Speicher)"
                  4500 4000 30 1200 32 3.5) /\
  sound_result (variant_self_consumption "V3 Eigenverbrauch + Speicher"
                  4500 infinity 60 1200 32 3.5) /\
  sound_result (variant4_new_system 7000 4000 35 16000 32 8).
Proof.
  split; [repeat split|]. split; [|split; [|split]].
  - exact (proj1 variants_sound 4500 3.5 eq_refl eq_refl).
  - exact (proj1 (proj2 variants_sound) _ 4500 4000 30 1200 32 3.5
             eq_refl eq_refl eq_refl eq_refl eq_refl).
  - exact (proj1 (proj2 variants_sound) _ 4500 infinity 60 1200 32 3.5
             eq_refl eq_refl eq_refl eq_refl eq_refl).
  - exact (proj2 (proj2 variants_sound) 7000 4000 35 16000 32 8
             eq_refl eq_refl eq_refl eq_refl eq_refl).
Defined.

(** * Further properties of the code *)

(** ** More about rounding *)

Section Rounding.

Local Open Scope R_scope.

(** a float strictly above a truncated mantissa sits on its grid *)
Lemma exp_le_of_above m' e' ma ea :
  SpecFloat.bounded prec emax ma ea = true ->
  ((-1074 < e')%Z -> (2 ^ 52 <= m')%Z) ->
  IZR m' * powerRZ 2 e' < F2R ma ea ->
  (e' <= ea)%Z.
Proof.
  intros Ba T H. pose proof (bounded_inv _ _ Ba) as [Ca Cb].
  pose proof (F2R_upper ma ea) as Ua. pose proof (pow2_pos e') as Pe'.
  destruct (Z_le_gt_dec e' (-1074)) as [L|G]; [lia|].
  specialize (T ltac:(lia)).
  assert (powerRZ 2 (e' + 52) <= IZR m' * powerRZ 2 e').
  { rewrite pow2_add, (pow2_IZR 52) by lia. apply IZR_le in T. nra. }
  assert (e' + 52 < Z.pos (digits2_pos ma) + ea)%Z by (apply pow2_lt_inv; lra).
  lia.
Qed.

(** the truncation is the largest grid point below: no float lies strictly
    between it and the next grid point *)
Lemma floor_rep m' e' ma ea :
  SpecFloat.bounded prec emax ma ea = true ->
  ((-1074 < e')%Z -> (2 ^ 52 <= m')%Z) ->
  F2R ma ea < IZR (m' + 1) * powerRZ 2 e' ->
  F2R ma ea <= IZR m' * powerRZ 2 e'.
Proof.
  intros Ba T H.
  destruct (Rle_lt_dec (F2R ma ea) (IZR m' * powerRZ 2 e')) as [L|G]; [assumption|].
  pose proof (exp_le_of_above _ _ _ _ Ba T G) as Lea.
  pose proof (grid _ _ _ _ Lea G). lra.
Qed.

(** the rounded magnitude is not below any float under the exact value *)
Lemma bra_lower s m e l X ma ea :
  (0 <= m)%Z ->
  (e <= fexp prec emax (Zdigits2 m + e))%Z ->
  IZR m * powerRZ 2 e <= X < IZR (m + 1) * powerRZ 2 e ->
  (l = loc_Exact <-> X = IZR m * powerRZ 2 e) ->
  SpecFloat.bounded prec emax ma ea = true ->
  F2R ma ea <= X ->
  binary_round_aux prec emax s m e l = S754_infinity s \/
  exists p e'', binary_round_aux prec emax s m e l = S754_finite s p e'' /\
                F2R ma ea <= F2R p e''.
Proof.
  intros Hm Hpre HX Hl Ba Ha. rewrite bra_unfold. cbv zeta.
  destruct (shr_fexp_int m e l Hm) as (R1 & R2 & R3 & R4).
  destruct (shr_fexp_real m e l X Hm HX Hl) as (Q1 & Q2).
  pose proof (top_bits m e l Hm) as T1. cbv zeta in T1.
  set (mrs' := fst (shr_fexp prec emax m e l)) in *.
  set (e' := snd (shr_fexp prec emax m e l)) in *.
  assert (E' : e' = fexp prec emax (Zdigits2 m + e)) by lia.
  specialize (T1 E').
  destruct (rne_bounds mrs') as [B1 B2]. cbv zeta in B1, B2.
  set (m1 := round_nearest_even (shr_m mrs') (loc_of_shr_record mrs')) in *.
  pose proof (pow2_pos e') as Pe'.
  pose proof (F2R_pos ma ea) as Pa.
  assert (A0 : F2R ma ea <= IZR (shr_m mrs') * powerRZ 2 e').
  { apply floor_rep; [assumption|assumption|lra]. }
  assert (A : F2R ma ea <= IZR m1 * powerRZ 2 e').
  { assert (IZR (shr_m mrs') <= IZR m1) by (apply IZR_le; lia). nra. }
  assert (Hm1 : (0 <= m1)%Z) by lia.
  destruct (shr_fexp_int m1 e' loc_Exact Hm1) as (S1 & S2 & S3 & S4).
  destruct (shr_fexp_real m1 e' loc_Exact (IZR m1 * powerRZ 2 e') Hm1) as (U1 & U2).
  { rewrite plus_IZR. lra. }
  { tauto. }
  pose proof (top_bits m1 e' loc_Exact Hm1) as T2. cbv zeta in T2.
  set (mrs'' := fst (shr_fexp prec emax m1 e' loc_Exact)) in *.
  set (e'' := snd (shr_fexp prec emax m1 e' loc_Exact)) in *.
  assert (V : F2R ma ea <= IZR (shr_m mrs'') * powerRZ 2 e'').
  { apply floor_rep; [assumption| |lra].
    intros G.
    destruct (Z.max_spec e' (fexp prec emax (Zdigits2 m1 + e'))) as [[_ M]|[K M]].
    - apply T2; lia.
    - assert (e'' = e') by lia.
      specialize (T1 ltac:(lia)).
      replace (e'' - e')%Z with 0%Z in S3 by lia. change (2 ^ 0)%Z with 1%Z in S3. lia. }
  pose proof (pow2_pos e'') as Pe''.
  destruct (shr_m mrs'') as [|p|p] eqn:Ep; [lra| |lia].
  destruct (Z.leb_spec e'' 971) as [L|G]; [right|now left].
  exists p, e''. split; [reflexivity|]. unfold F2R at 2. lra.
Qed.

(** rounding a value that is a float returns that float *)
Lemma bra_exact s m e ma ea :
  (0 <= m)%Z ->
  (e <= fexp prec emax (Zdigits2 m + e))%Z ->
  SpecFloat.bounded prec emax ma ea = true ->
  IZR m * powerRZ 2 e = F2R ma ea ->
  valid_binary (binary_round_aux prec emax s m e loc_Exact) = true ->
  binary_round_aux prec emax s m e loc_Exact = S754_finite s ma ea.
Proof.
  intros Hm Hpre Ba E V. pose proof (pow2_pos e) as Pe.
  assert (HX : IZR m * powerRZ 2 e <= F2R ma ea < IZR (m + 1) * powerRZ 2 e).
  { rewrite plus_IZR. lra. }
  assert (Hl : loc_Exact = loc_Exact <-> F2R ma ea = IZR m * powerRZ 2 e) by (split; auto).
  destruct (bra_upper s m e loc_Exact (F2R ma ea) ma ea Hm Hpre HX Hl Ba (Rle_refl _))
    as [Z|(p & e1 & E1 & L1)];
  destruct (bra_lower s m e loc_Exact (F2R ma ea) ma ea Hm Hpre HX Hl Ba (Rle_refl _))
    as [I|(q & e2 & E2 & L2)]; try congruence.
  rewrite E1 in *. injection E2 as <- <-. cbn [valid_binary] in V.
  pose proof (cmp_mag_spec _ _ _ _ V Ba) as C.
  destruct (cmp_mag p e1 ma ea); [destruct C as [-> ->]; reflexivity|lra|lra].
Qed.

(** *** Exact products *)

Lemma SFmul_comm x y : SF64mul x y = SF64mul y x.
Proof.
  unfold SF64mul. destruct x as [sx|sx| |sx mx ex], y as [sy|sy| |sy my ey]; cbn [SFmul];
    try reflexivity; try (now rewrite xorb_comm).
  now rewrite xorb_comm, Pos.mul_comm, Z.add_comm.
Qed.

Lemma float_mul_comm (x y : float) : (x * y)%float = (y * x)%float.
Proof. apply Prim2SF_inj. rewrite !mul_spec. apply SFmul_comm. Qed.

Lemma float_mul_one_r (x : float) : (x * 1)%float = x.
Proof.
  apply Prim2SF_inj. pose proof (Prim2SF_valid (x * 1)%float) as V.
  rewrite mul_spec in *. pose proof (Prim2SF_valid x) as Vx.
  change (Prim2SF 1) with (S754_finite false 4503599627370496 (-52)) in *.
  destruct (Prim2SF x) as [s|s| |s m e]; unfold SF64mul in *; cbn [SFmul] in *;
    rewrite ?xorb_false_r in *; try reflexivity.
  cbn [valid_binary] in Vx.
  apply bra_exact; try assumption.
  - lia.
  - now apply mul_pre.
  - change (IZR (Z.pos (m * 4503599627370496)) * powerRZ 2 (e + -52))
      with (F2R (m * 4503599627370496) (e + -52)).
    rewrite F2R_mul, F2R_one. lra.
Qed.

(** *** Quotients *)

Lemma SFdiv_nonneg x y :
  is_nan_sf x = false -> 0 <= SF2R x ->
  is_nan_sf y = false -> 0 < SF2R y ->
  is_fin_sf x = true \/ is_fin_sf y = true ->
  is_nan_sf (SF64div x y) = false /\ 0 <= SF2R (SF64div x y).
Proof.
  intros Nx Px Ny Py F. pose proof (pow2_pos 1024) as Big.
  destruct x as [sx|sx| |sx mx ex]; try discriminate;
  destruct y as [sy|sy| |sy my ey]; try discriminate;
  unfold SF64div; cbn [SFdiv SF2R] in *.
  all: try (pose proof (F2R_pos mx ex)); try (pose proof (F2R_pos my ey)).
  all: try solve [destruct F; sf_close].
  apply sgn_F2R_nonneg in Px. apply Rlt_le in Py. apply sgn_F2R_nonneg in Py.
  subst sx sy. cbn [xorb].
  pose proof (div_core_spec mx ex my ey) as C.
  destruct (SFdiv_core_binary prec emax (Z.pos mx) ex (Z.pos my) ey) as [[q e'] l].
  cbv zeta in C. destruct C as (C1 & _).
  destruct (bra_cases false q e' l C1) as [E|[(p & e'' & E)|E]]; rewrite E.
  - sf_close.
  - pose proof (F2R_pos p e''). sf_close.
  - sf_close.
Qed.

Lemma div_nonneg x y :
  is_nan x = false -> 0 <= value x ->
  is_nan y = false -> 0 < value y ->
  is_finite x = true \/ is_finite y = true ->
  is_nan (x / y)%float = false /\ 0 <= value (x / y)%float.
Proof.
  rewrite !is_finite_spec, !is_nan_spec. unfold value. rewrite div_spec.
  intros. apply SFdiv_nonneg; auto.
Qed.

(** *** Sums of non-negative terms *)

Lemma binary_round_lower s m e ma ea :
  SpecFloat.bounded prec emax ma ea = true ->
  F2R ma ea <= F2R m e ->
  binary_round prec emax s m e = S754_infinity s \/
  exists p e'', binary_round prec emax s m e = S754_finite s p e'' /\
                F2R ma ea <= F2R p e''.
Proof.
  intros Ba H. rewrite binary_round_eq.
  destruct (shl_align_spec m e (fexp prec emax (Z.pos (digits2_pos m) + e))) as (A1 & A2 & A3).
  cbv zeta in *.
  set (mz := fst (shl_align m e _)) in *. set (ez := snd (shl_align m e _)) in *.
  apply (bra_lower s (Z.pos mz) ez loc_Exact (F2R m e) ma ea); try assumption.
  - lia.
  - simpl Zdigits2. rewrite A3. lia.
  - rewrite <- A2. unfold F2R. pose proof (pow2_pos ez). rewrite plus_IZR. lra.
  - rewrite <- A2. unfold F2R. tauto.
Qed.

Lemma SFadd_ge_nonneg x y :
  valid_binary x = true ->
  is_nan_sf x = false -> 0 <= SF2R x ->
  is_nan_sf y = false -> 0 <= SF2R y ->
  SF2R x <= SF2R (SF64add x y).
Proof.
  intros Vx Nx Px Ny Py. pose proof (pow2_pos 1024) as Big.
  destruct x as [sx|sx| |sx mx ex]; try discriminate;
  destruct y as [sy|sy| |sy my ey]; try discriminate;
  unfold SF64add; cbn [SFadd SF2R valid_binary] in *.
  all: try (pose proof (F2R_pos mx ex)); try (pose proof (F2R_pos my ey)).
  all: try (pose proof (F2R_bound _ _ Vx)).
  all: try solve [sf_close].
  apply sgn_F2R_nonneg in Px, Py. subst sx sy. cbn [cond_Zopp Z.add sgn].
  rewrite binary_normalize_pos.
  set (ez := Z.min ex ey).
  pose proof (align_value mx ex ez ltac:(lia)) as Ax.
  pose proof (align_value my ey ez ltac:(lia)) as Ay.
  set (zx := fst (shl_align mx ex ez)) in *. set (zy := fst (shl_align my ey ez)) in *.
  assert (S : F2R (zx + zy) ez = F2R mx ex + F2R my ey).
  { rewrite <- Ax, <- Ay. unfold F2R. rewrite Pos2Z.inj_add, plus_IZR. ring. }
  destruct (binary_round_lower false (zx + zy) ez mx ex Vx) as [R|(q & e'' & R & L)].
  - rewrite S. lra.
  - rewrite R. cbn [SF2R sgn]. lra.
  - rewrite R. cbn [SF2R sgn]. lra.
Qed.

Lemma add_ge_nonneg x y :
  is_nan x = false -> 0 <= value x ->
  is_nan y = false -> 0 <= value y ->
  value x <= value (x + y)%float.
Proof.
  rewrite !is_nan_spec. unfold value. rewrite add_spec.
  intros. apply SFadd_ge_nonneg; auto using Prim2SF_valid.
Qed.

Lemma SFadd_comm x y : SF64add x y = SF64add y x.
Proof.
  unfold SF64add. destruct x as [sx|sx| |sx mx ex], y as [sy|sy| |sy my ey]; cbn [SFadd];
    try reflexivity; try (destruct sx, sy; reflexivity).
  now rewrite Z.min_comm, Z.add_comm.
Qed.

Lemma float_add_comm (x y : float) : (x + y)%float = (y + x)%float.
Proof. apply Prim2SF_inj. rewrite !add_spec. apply SFadd_comm. Qed.

(** *** Zeros *)

Lemma sub_zero_r x z :
  is_nan x = false -> is_nan z = false -> value z = 0 ->
  is_nan (x - z)%float = false /\ value (x - z)%float = value x.
Proof.
  intros Nx Nz Vz. destruct (value_zero_inv z Nz Vz) as [s Es].
  rewrite !is_nan_spec in *. unfold value. rewrite sub_spec, Es.
  destruct (Prim2SF x) as [sx|sx| |sx m e]; try discriminate;
    unfold SF64sub; cbn [SFsub]; try (split; reflexivity).
  destruct sx, s; cbn [SF2R is_nan_sf]; split; reflexivity.
Qed.

Lemma add_zero_l z y :
  is_nan z = false -> value z = 0 -> is_nan y = false ->
  is_nan (z + y)%float = false /\ value (z + y)%float = value y.
Proof.
  intros Nz Vz Ny. rewrite float_add_comm. now apply add_zero_r.
Qed.

Lemma mul_zero_l z y :
  is_nan z = false -> value z = 0 -> is_finite y = true ->
  is_finite (z * y)%float = true /\ value (z * y)%float = 0.
Proof.
  intros Nz Vz Fy. rewrite float_mul_comm. now apply mul_zero_r.
Qed.

Lemma SFsub_self x :
  is_fin_sf x = true -> is_fin_sf (SF64sub x x) = true /\ SF2R (SF64sub x x) = 0.
Proof.
  destruct x as [s|s| |s m e]; try discriminate; intros _; unfold SF64sub; cbn [SFsub].
  - destruct s; split; reflexivity.
  - rewrite Z.sub_diag. split; reflexivity.
Qed.

Lemma sub_self x :
  is_finite x = true -> is_finite (x - x)%float = true /\ value (x - x)%float = 0.
Proof.
  rewrite !is_finite_spec. unfold value. rewrite sub_spec. apply SFsub_self.
Qed.

Lemma leb_of_values x y :
  is_nan x = false -> is_nan y = false -> value x <= value y -> (x <=? y)%float = true.
Proof. intros. apply leb_iff. auto. Qed.

Lemma eqb_of_values x y :
  is_nan x = false -> is_nan y = false -> value x = value y -> (x =? y)%float = true.
Proof. intros. apply eqb_iff. auto. Qed.

(** *** Rounding to nearest, ties to even *)

Lemma shr_1_loc X a : (0 <= shr_m a)%Z -> Loc X a -> Loc (X / 2) (shr_1 a).
Proof.
  destruct a as [m r s]. unfold Loc; simpl. intros H L.
  destruct m as [|[p|p|]|p]; try lia;
    try rewrite Pos2Z.inj_xI in L; try rewrite Pos2Z.inj_xO in L;
    try rewrite plus_IZR in L; try rewrite mult_IZR in L;
    destruct r, s; simpl in *; loc_fin.
Qed.

Lemma Loc_ext X Y a : X = Y -> Loc X a -> Loc Y a.
Proof. now intros ->. Qed.

Lemma iter_loc n : forall X a, (0 <= shr_m a)%Z -> Loc X a ->
  Loc (X / powerRZ 2 (Z.pos n)) (SpecFloat.iter_pos shr_1 n a).
Proof.
  induction n as [n IH|n IH|]; intros X a H L; simpl SpecFloat.iter_pos.
  - pose proof (shr_1_rel a H) as R1.
    pose proof (iter_rel n (shr_1 a) (proj1 R1)) as R2.
    pose proof (shr_1_loc X a H L) as L1.
    pose proof (IH _ _ (proj1 R1) L1) as L2.
    pose proof (IH _ _ (proj1 R2) L2) as L3.
    eapply Loc_ext; [|exact L3].
    replace (Z.pos n~1) with (1 + Z.pos n + Z.pos n)%Z by lia.
    rewrite !pow2_add. change (powerRZ 2 1) with (2 * 1).
    pose proof (pow2_pos (Z.pos n)). field. lra.
  - pose proof (iter_rel n a H) as R2.
    pose proof (IH _ _ H L) as L2.
    pose proof (IH _ _ (proj1 R2) L2) as L3.
    eapply Loc_ext; [|exact L3].
    replace (Z.pos n~0) with (Z.pos n + Z.pos n)%Z by lia.
    rewrite !pow2_add.
    pose proof (pow2_pos (Z.pos n)). field. lra.
  - eapply Loc_ext; [|exact (shr_1_loc X a H L)].
    change (powerRZ 2 1) with (2 * 1). field.
Qed.

Lemma shr_loc X mrs e n :
  (0 <= shr_m mrs)%Z -> Loc X mrs ->
  Loc (X / powerRZ 2 (Z.max 0 n)) (fst (shr mrs e n)).
Proof.
  intros H L. destruct n as [|p|p]; simpl fst.
  - eapply Loc_ext; [|exact L]. change (powerRZ 2 (Z.max 0 0)) with 1. field.
  - change (Z.max 0 (Z.pos p)) with (Z.pos p). now apply iter_loc.
  - eapply Loc_ext; [|exact L]. change (powerRZ 2 (Z.max 0 (Z.neg p))) with 1. field.
Qed.

Lemma rne_near X mrs :
  Loc X mrs -> Znear X (round_nearest_even (shr_m mrs) (loc_of_shr_record mrs)).
Proof.
  destruct mrs as [m r s]. unfold Loc, Znear; simpl. intros L.
  destruct r, s; simpl in *.
  - rewrite plus_IZR. loc_fin.
  - destruct (Z.even m) eqn:E.
    + split; [loc_fin | intros _; exact E].
    + rewrite plus_IZR. split; [loc_fin|]. intros _.
      change (m + 1)%Z with (Z.succ m). rewrite Z.even_succ, <- Z.negb_even, E. reflexivity.
  - loc_fin.
  - loc_fin.
Qed.

Lemma Znear_mono X Y r q : X <= Y -> Znear X r -> Znear Y q -> (r <= q)%Z.
Proof.
  intros H [[A1 A2] A3] [[B1 B2] B3].
  destruct (Z_le_gt_dec r q) as [L|G]; [assumption|exfalso].
  assert (G' : IZR (q + 1) <= IZR r) by (apply IZR_le; lia).
  rewrite plus_IZR in G'.
  assert (E : IZR r = IZR (q + 1)) by (rewrite plus_IZR; lra).
  apply eq_IZR in E.
  assert (Er : Z.even r = true) by (apply A3; left; lra).
  assert (Eq : Z.even q = true) by (apply B3; right; lra).
  subst r. change (q + 1)%Z with (Z.succ q) in Er.
  rewrite Z.even_succ, <- Z.negb_even, Eq in Er. discriminate.
Qed.

Lemma Znear_ge X r n : IZR n <= X -> Znear X r -> (n <= r)%Z.
Proof.
  intros H [[A1 A2] _].
  assert (L : IZR (n - 1) < IZR r) by (rewrite minus_IZR; lra).
  apply lt_IZR in L. lia.
Qed.

Lemma Znear_le X r n : X <= IZR n -> Znear X r -> (r <= n)%Z.
Proof.
  intros H [[A1 A2] _].
  assert (L : IZR r < IZR (n + 1)) by (rewrite plus_IZR; lra).
  apply lt_IZR in L. lia.
Qed.

Lemma pow2_52 : powerRZ 2 52 = 4503599627370496.
Proof. rewrite pow2_IZR by lia. reflexivity. Qed.

Lemma pow2_53 : powerRZ 2 53 = 9007199254740992.
Proof. rewrite pow2_IZR by lia. reflexivity. Qed.

Lemma Rnd_nonneg X v : 0 <= X -> Rnd X v -> 0 <= v.
Proof.
  intros H (e & r & X' & E & C & N & ->).
  pose proof (pow2_pos e) as P. pose proof (pow2_pos 1024) as P'.
  assert (0 <= X') by nra.
  assert (0 <= r)%Z by (apply (Znear_ge X'); [simpl; lra|assumption]).
  apply IZR_le in H1. apply Rmin_glb; [nra|lra].
Qed.

Lemma Rnd_zero v : Rnd 0 v -> v = 0.
Proof.
  intros (e & r & X' & E & C & N & ->).
  pose proof (pow2_pos e) as P. pose proof (pow2_pos 1024) as P'.
  assert (X' = 0) by nra. subst X'.
  assert (0 <= r)%Z by (apply (Znear_ge 0); [simpl; lra|assumption]).
  assert (r <= 0)%Z by (apply (Znear_le 0); [simpl; lra|assumption]).
  replace r with 0%Z by lia. rewrite Rmult_0_l. apply Rmin_left. lra.
Qed.

Lemma Rnd_mono X Y v w : X <= Y -> Rnd X v -> Rnd Y w -> v <= w.
Proof.
  intros H (e1 & r1 & X1 & E1 & C1 & N1 & ->) (e2 & r2 & X2 & E2 & C2 & N2 & ->).
  pose proof (pow2_pos e1) as P1. pose proof (pow2_pos e2) as P2.
  apply Rle_min_compat_r.
  destruct (Z.lt_trichotomy e1 e2) as [L|[L|L]].
  - assert (C2' : 4503599627370496 <= X2) by (destruct C2 as [[? _]|[_ ?]]; [lia|lra]).
    assert (C1' : X1 < 9007199254740992) by (destruct C1 as [[_ ?]|[_ ?]]; lra).
    assert (A : (r1 <= 9007199254740992)%Z) by (apply (Znear_le X1); [lra|assumption]).
    assert (B : (4503599627370496 <= r2)%Z) by (apply (Znear_ge X2); [lra|assumption]).
    apply IZR_le in A, B.
    pose proof (pow2_le (e1 + 53) (e2 + 52) ltac:(lia)) as Q.
    rewrite !pow2_add, pow2_52, pow2_53 in Q.
    assert (IZR r1 * powerRZ 2 e1 <= 9007199254740992 * powerRZ 2 e1)
      by (apply Rmult_le_compat_r; lra).
    assert (4503599627370496 * powerRZ 2 e2 <= IZR r2 * powerRZ 2 e2)
      by (apply Rmult_le_compat_r; lra).
    lra.
  - subst e2.
    assert (X1 <= X2) by (apply Rmult_le_reg_r with (powerRZ 2 e1); lra).
    pose proof (Znear_mono _ _ _ _ H0 N1 N2) as M. apply IZR_le in M.
    apply Rmult_le_compat_r; lra.
  - exfalso.
    assert (C1' : 4503599627370496 <= X1) by (destruct C1 as [[? _]|[_ ?]]; [|lra];
      destruct C2 as [[? _]|[? _]]; lia).
    assert (C2' : X2 < 9007199254740992) by (destruct C2 as [[_ ?]|[_ ?]]; lra).
    pose proof (pow2_le (e2 + 53) (e1 + 52) ltac:(lia)) as Q.
    rewrite !pow2_add, pow2_52, pow2_53 in Q.
    assert (4503599627370496 * powerRZ 2 e1 <= X1 * powerRZ 2 e1)
      by (apply Rmult_le_compat_r; lra).
    assert (X2 * powerRZ 2 e2 < 9007199254740992 * powerRZ 2 e2)
      by (apply Rmult_lt_compat_r; lra).
    lra.
Qed.

Lemma Rnd_le_big X v : Rnd X v -> v <= powerRZ 2 1024.
Proof. intros (e & r & X' & E & C & N & ->). apply Rmin_r. Qed.

Lemma RndS_mono X Y v w : X <= Y -> RndS X v -> RndS Y w -> v <= w.
Proof.
  intros H [[A1 A2]|[A1 A2]] [[B1 B2]|[B1 B2]].
  - now apply (Rnd_mono X Y).
  - assert (X = 0) by lra. assert (Y = 0) by lra. subst.
    rewrite Ropp_0 in B2. apply Rnd_zero in A2, B2. lra.
  - assert (A1' : 0 <= - X) by lra.
    pose proof (Rnd_nonneg _ _ A1' A2). pose proof (Rnd_nonneg _ _ B1 B2). lra.
  - assert (H' : - Y <= - X) by lra.
    pose proof (Rnd_mono (- Y) (- X) _ _ H' B2 A2). lra.
Qed.

Lemma Rnd_0 : Rnd 0 0.
Proof.
  exists (-1074)%Z, 0%Z, 0. split; [ring|]. split; [left; split; [reflexivity|lra]|].
  split.
  - unfold Znear. simpl. split; [lra|]. intros _. reflexivity.
  - rewrite Rmult_0_l. symmetry. apply Rmin_left. pose proof (pow2_pos 1024). lra.
Qed.

Lemma Zdigits2_le53 m : (0 <= m < 2 ^ 53)%Z -> (Zdigits2 m <= 53)%Z.
Proof.
  intros [H0 H1]. destruct (Z.eq_dec m 0) as [->|N]; [simpl; lia|].
  assert (Hp : (0 < m)%Z) by lia.
  pose proof (Zdigits2_bounds m Hp) as [B _].
  destruct (Z_le_gt_dec (Zdigits2 m) 53); [assumption|exfalso].
  assert (2 ^ 53 <= 2 ^ (Zdigits2 m - 1))%Z by (apply Z.pow_le_mono_r; lia). lia.
Qed.

(** The value [binary_round_aux] returns is the nearest-even rounding of
    the real its arguments stand for. *)
Lemma bra_Rnd s m e l X' :
  (0 <= m)%Z ->
  (e <= fexp prec emax (Zdigits2 m + e))%Z ->
  Loc X' (shr_record_of_loc m l) ->
  exists v, SF2R (binary_round_aux prec emax s m e l) = sgn s * v /\
            Rnd (X' * powerRZ 2 e) v.
Proof.
  intros Hm Hpre L. rewrite bra_unfold. cbv zeta.
  destruct (shr_fexp_int m e l Hm) as (R1 & R2 & R3 & R4).
  pose proof (top_bits m e l Hm) as T1. cbv zeta in T1.
  assert (L1 : Loc (X' / powerRZ 2 (Z.max 0 (fexp prec emax (Zdigits2 m + e) - e)))
                   (fst (shr_fexp prec emax m e l))).
  { unfold shr_fexp. apply shr_loc; [now rewrite record_of_loc_m | exact L]. }
  set (mrs' := fst (shr_fexp prec emax m e l)) in *.
  set (e' := snd (shr_fexp prec emax m e l)) in *.
  assert (E' : e' = fexp prec emax (Zdigits2 m + e)) by lia.
  specialize (T1 E').
  replace (Z.max 0 (fexp prec emax (Zdigits2 m + e) - e)) with (e' - e)%Z in L1 by lia.
  set (k := (e' - e)%Z) in *.
  assert (Hk : (0 <= k)%Z) by lia.
  pose proof (Z.pow_pos_nonneg 2 k ltac:(lia) Hk) as Pk.
  set (X1 := X' / powerRZ 2 k) in *.
  pose proof (rne_near _ _ L1) as N1.
  destruct (rne_bounds mrs') as [B1 _]. cbv zeta in B1.
  set (m1 := round_nearest_even (shr_m mrs') (loc_of_shr_record mrs')) in *.
  assert (U : (shr_m mrs' < 2 ^ 53)%Z).
  { destruct (Z.eq_dec m 0) as [Em|Nm].
    - rewrite Em in R3. assert (shr_m mrs' <= 0)%Z by nia. lia.
    - assert (Hp : (0 < m)%Z) by lia.
      pose proof (Zdigits2_bounds m Hp) as [_ D].
      pose proof (Zdigits2_nonneg m) as Dn.
      rewrite fexp_eq in E'.
      assert (Q : (2 ^ Zdigits2 m <= 2 ^ (k + 53))%Z) by (apply Z.pow_le_mono_r; lia).
      rewrite Z.pow_add_r in Q by lia. nia. }
  assert (Hm1 : (0 <= m1)%Z) by lia.
  destruct (shr_fexp_int m1 e' loc_Exact Hm1) as (S1 & S2 & S3 & _).
  set (mrs'' := fst (shr_fexp prec emax m1 e' loc_Exact)) in *.
  set (e'' := snd (shr_fexp prec emax m1 e' loc_Exact)) in *.
  assert (Ge' : (-1074 <= e')%Z) by (rewrite fexp_eq in E'; lia).
  assert (V : (e'' = e' /\ shr_m mrs'' = m1 /\ (m1 < 2 ^ 53)%Z) \/
              (e'' = e' + 1 /\ m1 = 2 ^ 53 /\ shr_m mrs'' = 2 ^ 52)%Z).
  { destruct (Z_lt_le_dec m1 (2 ^ 53)) as [Lt|Ge].
    - left. pose proof (Zdigits2_le53 m1 (conj Hm1 Lt)) as D.
      rewrite fexp_eq in S2.
      assert (Ee : e'' = e') by lia.
      split; [exact Ee|]. split; [|exact Lt].
      replace (e'' - e')%Z with 0%Z in S3 by lia. change (2 ^ 0)%Z with 1%Z in S3. lia.
    - right. assert (Em1 : m1 = (2 ^ 53)%Z) by lia.
      rewrite Em1 in S2, S3.
      change (Zdigits2 (2 ^ 53)) with 54%Z in S2. rewrite fexp_eq in S2.
      assert (Ee : e'' = (e' + 1)%Z) by lia.
      split; [exact Ee|]. split; [exact Em1|].
      replace (e'' - e')%Z with 1%Z in S3 by lia.
      change (2 ^ 1)%Z with 2%Z in S3. change (2 ^ 53)%Z with 9007199254740992%Z in S3.
      change (2 ^ 52)%Z with 4503599627370496%Z. lia. }
  pose proof (pow2_pos e') as Pe'. pose proof (pow2_pos e'') as Pe''.
  pose proof (pow2_pos 1024) as Pbig.
  assert (VR : IZR (shr_m mrs'') * powerRZ 2 e'' = IZR m1 * powerRZ 2 e').
  { destruct V as [(-> & -> & _)|(-> & -> & ->)]; [reflexivity|].
    rewrite pow2_succ. change (2 ^ 52)%Z with 4503599627370496%Z.
    change (2 ^ 53)%Z with 9007199254740992%Z. lra. }
  exists (Rmin (IZR m1 * powerRZ 2 e') (powerRZ 2 1024)). split.
  - destruct (shr_m mrs'') as [|p|p] eqn:Ep; [| |lia].
    + cbn [SF2R]. rewrite <- VR. rewrite Rmult_0_l, Rmin_left by lra. ring.
    + assert (Hp : (Z.pos p <= 2 ^ 53 - 1)%Z).
      { destruct V as [(_ & A & B)|(_ & _ & A)]; [lia|rewrite A; lia]. }
      assert (Hq : (-1074 < e'' -> 2 ^ 52 <= Z.pos p)%Z).
      { intros G. destruct V as [(A & B & _)|(_ & _ & A)].
        - rewrite B. specialize (T1 ltac:(lia)). lia.
        - rewrite A. lia. }
      change (2 ^ 53 - 1)%Z with 9007199254740991%Z in Hp.
      change (2 ^ 52)%Z with 4503599627370496%Z in Hq.
      apply IZR_le in Hp.
      destruct (Z.leb_spec e'' 971) as [Le|Gt]; cbn [SF2R]; f_equal; unfold F2R.
      * rewrite <- VR. symmetry. apply Rmin_left.
        pose proof (pow2_le e'' 971 Le) as Q.
        assert (B : powerRZ 2 1024 = 9007199254740992 * powerRZ 2 971).
        { replace 1024%Z with (53 + 971)%Z by lia. now rewrite pow2_add, pow2_53. }
        rewrite B.
        assert (IZR (Z.pos p) * powerRZ 2 e'' <= 9007199254740991 * powerRZ 2 e'')
          by (apply Rmult_le_compat_r; lra).
        assert (9007199254740991 * powerRZ 2 e'' <= 9007199254740991 * powerRZ 2 971)
          by (apply Rmult_le_compat_l; lra).
        pose proof (pow2_pos 971). lra.
      * rewrite <- VR. symmetry. apply Rmin_right.
        specialize (Hq ltac:(lia)). apply IZR_le in Hq.
        pose proof (pow2_le 972 e'' ltac:(lia)) as Q.
        assert (B : powerRZ 2 1024 = 4503599627370496 * powerRZ 2 972).
        { replace 1024%Z with (52 + 972)%Z by lia. now rewrite pow2_add, pow2_52. }
        rewrite B.
        assert (4503599627370496 * powerRZ 2 e'' <= IZR (Z.pos p) * powerRZ 2 e'')
          by (apply Rmult_le_compat_r; lra).
        assert (4503599627370496 * powerRZ 2 972 <= 4503599627370496 * powerRZ 2 e'')
          by (apply Rmult_le_compat_l; lra).
        lra.
  - exists e', m1, X1. split.
    { unfold X1. replace e' with (k + e)%Z by (unfold k; lia).
      rewrite pow2_add. pose proof (pow2_pos k). pose proof (pow2_pos e). field. lra. }
    split; [|split; [exact N1 | reflexivity]].
    destruct L1 as (L1 & _).
    change (2 ^ 53)%Z with 9007199254740992%Z in U.
    assert (IZR (shr_m mrs' + 1) <= 9007199254740992) by (apply IZR_le; lia).
    rewrite plus_IZR in H.
    destruct (Z.eq_dec e' (-1074)) as [Ee|Ne].
    + left. split; [exact Ee | lra].
    + right. split; [lia|]. specialize (T1 ltac:(lia)).
      change (2 ^ 52)%Z with 4503599627370496%Z in T1. apply IZR_le in T1. lra.
Qed.

Lemma RndS_of_sign s X v : 0 <= X -> Rnd X v -> RndS (sgn s * X) (sgn s * v).
Proof.
  intros H R. destruct s; simpl.
  - right. split; [lra|].
    replace (- (-1 * X)) with X by ring. replace (- (-1 * v)) with v by ring. exact R.
  - left. split; [lra|]. now rewrite !Rmult_1_l.
Qed.

Lemma RndS_0 : RndS 0 0.
Proof. left. split; [lra | apply Rnd_0]. Qed.

(** a float is its own rounding *)
Lemma Rnd_float m e :
  SpecFloat.bounded prec emax m e = true -> Rnd (F2R m e) (F2R m e).
Proof.
  intros B. pose proof (bounded_inv _ _ B) as [C1 C2].
  pose proof (digits_upper m) as U. pose proof (digits_lower m) as L.
  exists e, (Z.pos m), (IZR (Z.pos m)). split; [reflexivity|].
  assert (D : (Z.pos (digits2_pos m) <= 53)%Z) by lia.
  pose proof (pow2_le _ _ D) as Q. rewrite pow2_53 in Q.
  split; [|split].
  - destruct (Z.eq_dec e (-1074)) as [E|N].
    + left. split; [exact E | lra].
    + right. split; [lia|].
      replace (Z.pos (digits2_pos m) - 1)%Z with 52%Z in L by lia.
      rewrite pow2_52 in L. lra.
  - unfold Znear. split; lra.
  - symmetry. apply Rmin_left. pose proof (F2R_bound _ _ B). unfold F2R in *. lra.
Qed.

Lemma binary_round_Rnd s m e :
  exists v, SF2R (binary_round prec emax s m e) = sgn s * v /\ Rnd (F2R m e) v.
Proof.
  rewrite binary_round_eq.
  destruct (shl_align_spec m e (fexp prec emax (Z.pos (digits2_pos m) + e))) as (A1 & A2 & A3).
  cbv zeta in *.
  set (mz := fst (shl_align m e _)) in *. set (ez := snd (shl_align m e _)) in *.
  destruct (bra_Rnd s (Z.pos mz) ez loc_Exact (IZR (Z.pos mz))) as (v & E & R).
  - lia.
  - simpl Zdigits2. rewrite A3. lia.
  - unfold Loc; simpl. split; [lra|]. split; [lra | left; reflexivity].
  - exists v. split; [exact E|]. rewrite <- A2. exact R.
Qed.

(** The product of two finite floats is the rounding of the real product. *)
Lemma SFmul_RndS x y :
  valid_binary x = true -> valid_binary y = true ->
  is_fin_sf x = true -> is_fin_sf y = true ->
  RndS (SF2R x * SF2R y) (SF2R (SF64mul x y)).
Proof.
  intros Vx Vy Fx Fy.
  destruct x as [sx|sx| |sx mx ex]; try discriminate;
  destruct y as [sy|sy| |sy my ey]; try discriminate;
  unfold SF64mul; cbn [SFmul SF2R valid_binary] in *.
  - rewrite Rmult_0_l. apply RndS_0.
  - rewrite Rmult_0_l. apply RndS_0.
  - rewrite Rmult_0_r. apply RndS_0.
  - destruct (bra_Rnd (xorb sx sy) (Z.pos (mx * my)) (ex + ey) loc_Exact
                (IZR (Z.pos (mx * my)))) as (v & E & R).
    + lia.
    + now apply mul_pre.
    + unfold Loc; simpl. split; [lra|]. split; [lra | left; reflexivity].
    + rewrite E.
      replace (sgn sx * F2R mx ex * (sgn sy * F2R my ey))
        with (sgn (xorb sx sy) * (F2R mx ex * F2R my ey))
        by (destruct sx, sy; simpl; ring).
      apply RndS_of_sign.
      * pose proof (F2R_pos mx ex). pose proof (F2R_pos my ey). nra.
      * rewrite <- F2R_mul. exact R.
Qed.

(** The sum of two finite floats is the rounding of the real sum. *)
Lemma SFadd_RndS x y :
  valid_binary x = true -> valid_binary y = true ->
  is_fin_sf x = true -> is_fin_sf y = true ->
  RndS (SF2R x + SF2R y) (SF2R (SF64add x y)).
Proof.
  intros Vx Vy Fx Fy.
  destruct x as [sx|sx| |sx mx ex]; try discriminate;
  destruct y as [sy|sy| |sy my ey]; try discriminate;
  unfold SF64add; cbn [SFadd SF2R valid_binary] in *.
  - rewrite Rplus_0_l. destruct sx, sy; cbn [SF2R]; apply RndS_0.
  - rewrite Rplus_0_l. apply RndS_of_sign;
      [pose proof (F2R_pos my ey); lra | now apply Rnd_float].
  - rewrite Rplus_0_r. apply RndS_of_sign;
      [pose proof (F2R_pos mx ex); lra | now apply Rnd_float].
  - set (ez := Z.min ex ey).
    pose proof (align_value mx ex ez ltac:(lia)) as Ax.
    pose proof (align_value my ey ez ltac:(lia)) as Ay.
    set (zx := fst (shl_align mx ex ez)) in *. set (zy := fst (shl_align my ey ez)) in *.
    rewrite <- Ax, <- Ay. unfold F2R at 1 2.
    assert (S : sgn sx * (IZR (Z.pos zx) * powerRZ 2 ez) +
                sgn sy * (IZR (Z.pos zy) * powerRZ 2 ez) =
                IZR (cond_Zopp sx (Z.pos zx) + cond_Zopp sy (Z.pos zy)) * powerRZ 2 ez).
    { rewrite plus_IZR. destruct sx, sy; cbn [cond_Zopp sgn];
        rewrite ?opp_IZR; ring. }
    rewrite S.
    destruct (cond_Zopp sx (Z.pos zx) + cond_Zopp sy (Z.pos zy))%Z as [|p|p];
      cbn [binary_normalize].
    + cbn [SF2R]. rewrite Rmult_0_l. apply RndS_0.
    + destruct (binary_round_Rnd false p ez) as (v & E & R). rewrite E.
      fold (F2R p ez). rewrite <- (Rmult_1_l (F2R p ez)).
      change 1 with (sgn false) at 1.
      apply RndS_of_sign; [pose proof (F2R_pos p ez); lra | exact R].
    + destruct (binary_round_Rnd true p ez) as (v & E & R). rewrite E.
      replace (IZR (Z.neg p) * powerRZ 2 ez) with (sgn true * F2R p ez).
      * apply RndS_of_sign; [pose proof (F2R_pos p ez); lra | exact R].
      * unfold F2R. change (Z.neg p) with (- Z.pos p)%Z. rewrite opp_IZR. simpl. ring.
Qed.

(** The location the division computes from the remainder [r] of a
    division by [n]. *)
Lemma new_location_loc n r q X' :
  (0 <= r < n)%Z ->
  X' * IZR n = IZR q * IZR n + IZR r ->
  Loc X' (shr_record_of_loc q (new_location n r)).
Proof.
  intros [Hr Hn] E.
  assert (Pn : 0 < IZR n) by (apply IZR_lt; lia).
  assert (Rr : 0 <= IZR r < IZR n) by (split; [apply IZR_le | apply IZR_lt]; lia).
  assert (Q : X' = IZR q + IZR r / IZR n) by (field_simplify_eq; lra).
  assert (C : forall c : comparison, (2 * r ?= n)%Z = c ->
              match c with
              | Lt => 2 * IZR r < IZR n
              | Eq => 2 * IZR r = IZR n
              | Gt => IZR n < 2 * IZR r
              end).
  { intros c Hc. destruct c.
    - apply Z.compare_eq in Hc. rewrite <- Hc, mult_IZR. reflexivity.
    - apply Z.compare_lt_iff, IZR_lt in Hc. rewrite mult_IZR in Hc. exact Hc.
    - apply Z.compare_gt_iff, IZR_lt in Hc. rewrite mult_IZR in Hc. exact Hc. }
  assert (D : forall a b, 0 < b -> (a / b < / 2 <-> 2 * a < b) /\
                                   (a / b = / 2 <-> 2 * a = b) /\
                                   (/ 2 < a / b <-> b < 2 * a)).
  { intros a b Pb. repeat split; intros K.
    - apply Rmult_lt_reg_r with (/ b); [now apply Rinv_0_lt_compat|].
      replace (b * / b) with 1 by (field; lra). unfold Rdiv in K. lra.
    - replace (a / b) with ((2 * a) * / b * / 2) by (field; lra).
      assert (2 * a * / b < b * / b)
        by (apply Rmult_lt_compat_r; [now apply Rinv_0_lt_compat | exact K]).
      replace (b * / b) with 1 in H by (field; lra). lra.
    - apply Rmult_eq_reg_r with (/ b); [|apply Rinv_neq_0_compat; lra].
      replace (b * / b) with 1 by (field; lra). unfold Rdiv in K. lra.
    - rewrite <- K. field. lra.
    - apply Rmult_lt_reg_r with (/ b); [now apply Rinv_0_lt_compat|].
      replace (b * / b) with 1 by (field; lra). unfold Rdiv in K. lra.
    - replace (a / b) with ((2 * a) * / b * / 2) by (field; lra).
      assert (b * / b < 2 * a * / b)
        by (apply Rmult_lt_compat_r; [now apply Rinv_0_lt_compat | exact K]).
      replace (b * / b) with 1 in H by (field; lra). lra. }
  destruct (D (IZR r) (IZR n) Pn) as (D1 & D2 & D3).
  assert (F0 : 0 <= IZR r / IZR n < 1).
  { split.
    - apply Rmult_le_pos; [lra | left; now apply Rinv_0_lt_compat].
    - apply Rmult_lt_reg_r with (IZR n); [exact Pn|].
      replace (IZR r / IZR n * IZR n) with (IZR r) by (field; lra). lra. }
  assert (Z0 : r <> 0%Z -> IZR r / IZR n <> 0).
  { intros N K. apply N. apply eq_IZR.
    replace (IZR r) with (IZR r / IZR n * IZR n) by (field; lra). rewrite K. simpl. ring. }
  assert (Hz : r = 0%Z -> Loc X' (shr_record_of_loc q loc_Exact)).
  { intros E0.
    assert (IZR r / IZR n = 0) by (rewrite E0; unfold Rdiv; simpl; ring).
    unfold Loc; simpl. split; [lra|]. split; [lra | left; lra]. }
  unfold new_location.
  destruct (Z.even n) eqn:En; unfold new_location_even, new_location_odd;
    destruct (Z.eqb_spec r 0) as [E0|N0]; try (now apply Hz); specialize (Z0 N0).
  - pose proof (C (2 * r ?= n)%Z eq_refl) as C2.
    destruct (2 * r ?= n)%Z; unfold Loc; simpl.
    + apply D2 in C2. split; [lra|]. split; [lra | right; lra].
    + apply D1 in C2. split; [lra|]. split; [lra|]. split; intros K; lra.
    + apply D3 in C2. split; [lra|]. split; [lra|]. split; intros K; lra.
  - assert (O : (2 * r)%Z <> n).
    { intros K. rewrite <- K, Z.even_mul in En. discriminate. }
    destruct (2 * r + 1 ?= n)%Z eqn:Cmp.
    + apply Z.compare_eq in Cmp.
      assert (L : (2 * r < n)%Z) by lia. apply IZR_lt in L. rewrite mult_IZR in L.
      apply D1 in L. unfold Loc; simpl.
      split; [lra|]. split; [lra|]. split; intros K; lra.
    + pose proof (proj1 (Z.compare_lt_iff _ _) Cmp) as Cmp'.
      assert (L : (2 * r < n)%Z) by lia. apply IZR_lt in L. rewrite mult_IZR in L.
      apply D1 in L. unfold Loc; simpl.
      split; [lra|]. split; [lra|]. split; intros K; lra.
    + pose proof (proj1 (Z.compare_gt_iff _ _) Cmp) as Cmp'.
      assert (L : (n < 2 * r)%Z) by lia. apply IZR_lt in L. rewrite mult_IZR in L.
      apply D3 in L. unfold Loc; simpl.
      split; [lra|]. split; [lra|]. split; intros K; lra.
Qed.

Lemma div_core_loc mx ex my ey :
  let '(q, e', l) := SFdiv_core_binary prec emax (Z.pos mx) ex (Z.pos my) ey in
  Loc (F2R mx ex / F2R my ey / powerRZ 2 e') (shr_record_of_loc q l).
Proof.
  unfold SFdiv_core_binary. cbn [Zdigits2].
  set (d1 := Z.pos (digits2_pos mx)). set (d2 := Z.pos (digits2_pos my)).
  set (e' := Z.min (fexp prec emax (d1 + ex - (d2 + ey))) (ex - ey)).
  set (s := (ex - ey - e')%Z).
  assert (Hs : (0 <= s)%Z) by (unfold s, e'; lia).
  set (m' := match s with Z.pos _ => Z.shiftl (Z.pos mx) s | Z0 => Z.pos mx | Z.neg _ => 0%Z end).
  assert (Hm' : m' = (Z.pos mx * 2 ^ s)%Z).
  { unfold m'. destruct s as [|p|p] eqn:Es; [simpl; lia| |lia].
    rewrite Z.shiftl_mul_pow2 by lia. reflexivity. }
  clearbody m'.
  pose proof (Z_div_mod m' (Z.pos my) ltac:(lia)) as DM.
  destruct (Z.div_eucl m' (Z.pos my)) as [q r]. destruct DM as [DM1 DM2].
  apply new_location_loc; [exact DM2|].
  pose proof (pow2_pos e') as Pe'. pose proof (pow2_pos ey). pose proof (pow2_pos s).
  assert (Pmy : 0 < IZR (Z.pos my)) by (apply IZR_lt; lia).
  rewrite <- mult_IZR, <- plus_IZR, (Z.mul_comm q), <- DM1, Hm', mult_IZR,
    <- (pow2_IZR s) by assumption.
  unfold F2R. replace ex with (s + e' + ey)%Z at 1 by (unfold s; lia).
  rewrite !pow2_add. field. repeat split; lra.
Qed.

(** The quotient of two finite floats, the divisor not zero, is the
    rounding of the real quotient. *)
Lemma SFdiv_RndS x y :
  valid_binary x = true -> valid_binary y = true ->
  is_fin_sf x = true -> is_fin_sf y = true -> SF2R y <> 0 ->
  RndS (SF2R x / SF2R y) (SF2R (SF64div x y)).
Proof.
  intros Vx Vy Fx Fy Ny.
  destruct x as [sx|sx| |sx mx ex]; try discriminate;
  destruct y as [sy|sy| |sy my ey]; try discriminate;
  unfold SF64div; cbn [SFdiv SF2R valid_binary] in *; try (now contradiction Ny).
  - unfold Rdiv. rewrite Rmult_0_l. apply RndS_0.
  - pose proof (div_core_spec mx ex my ey) as C.
    pose proof (div_core_loc mx ex my ey) as L.
    destruct (SFdiv_core_binary prec emax (Z.pos mx) ex (Z.pos my) ey) as [[q e'] l].
    cbv zeta in C. destruct C as (C1 & C2 & _).
    destruct (bra_Rnd (xorb sx sy) q e' l _ C1 C2 L) as (v & E & R).
    rewrite E.
    pose proof (F2R_pos mx ex) as Px. pose proof (F2R_pos my ey) as Py.
    pose proof (pow2_pos e') as Pe'.
    replace (sgn sx * F2R mx ex / (sgn sy * F2R my ey))
      with (sgn (xorb sx sy) * (F2R mx ex / F2R my ey))
      by (destruct sx, sy; simpl; field; lra).
    apply RndS_of_sign.
    + apply Rmult_le_pos; [lra | left; now apply Rinv_0_lt_compat].
    + replace (F2R mx ex / F2R my ey)
        with (F2R mx ex / F2R my ey / powerRZ 2 e' * powerRZ 2 e') by (field; lra).
      exact R.
Qed.

(** ** Operations of primitive floats as roundings, and their monotonicity *)

Lemma mul_round x y :
  is_finite x = true -> is_finite y = true ->
  RndS (value x * value y) (value (x * y)%float).
Proof.
  rewrite !is_finite_spec. unfold value. rewrite mul_spec.
  intros. apply SFmul_RndS; auto using Prim2SF_valid.
Qed.

Lemma add_round x y :
  is_finite x = true -> is_finite y = true ->
  RndS (value x + value y) (value (x + y)%float).
Proof.
  rewrite !is_finite_spec. unfold value. rewrite add_spec.
  intros. apply SFadd_RndS; auto using Prim2SF_valid.
Qed.

Lemma div_round x y :
  is_finite x = true -> is_finite y = true -> value y <> 0 ->
  RndS (value x / value y) (value (x / y)%float).
Proof.
  rewrite !is_finite_spec. unfold value. rewrite div_spec.
  intros. apply SFdiv_RndS; auto using Prim2SF_valid.
Qed.

Lemma value_range x : - powerRZ 2 1024 <= value x <= powerRZ 2 1024.
Proof.
  unfold value. pose proof (Prim2SF_valid x) as V. pose proof (pow2_pos 1024).
  destruct (Prim2SF x) as [s|s| |s m e]; cbn [SF2R]; try lra.
  - destruct s; cbn [sgn]; lra.
  - pose proof (F2R_bound _ _ V). pose proof (F2R_pos m e). destruct s; cbn [sgn]; lra.
Qed.

(** a float that is neither NaN nor finite is an infinity *)
Lemma infinite_cases x :
  is_nan x = false -> is_finite x = false ->
  exists s, Prim2SF x = S754_infinity s.
Proof.
  rewrite is_nan_spec, is_finite_spec.
  destruct (Prim2SF x) as [s|s| |s m e]; try discriminate. intros _ _. now exists s.
Qed.

Lemma mul_mono a b c :
  is_finite a = true -> is_finite b = true -> is_finite c = true ->
  0 <= value a -> value b <= value c ->
  value (a * b)%float <= value (a * c)%float.
Proof.
  intros Fa Fb Fc Pa H.
  apply (RndS_mono (value a * value b) (value a * value c)).
  - now apply Rmult_le_compat_l.
  - now apply mul_round.
  - now apply mul_round.
Qed.

Lemma add_mono a b c d :
  is_finite a = true -> is_finite b = true ->
  is_finite c = true -> is_finite d = true ->
  value a <= value c -> value b <= value d ->
  value (a + b)%float <= value (c + d)%float.
Proof.
  intros Fa Fb Fc Fd H1 H2.
  apply (RndS_mono (value a + value b) (value c + value d)).
  - lra.
  - now apply add_round.
  - now apply add_round.
Qed.

Lemma div_mono a b c d :
  is_finite a = true -> is_finite b = true ->
  is_finite c = true -> is_finite d = true ->
  0 <= value a <= value b -> 0 < value d <= value c ->
  value (a / c)%float <= value (b / d)%float.
Proof.
  intros Fa Fb Fc Fd [H0 H1] [H2 H3].
  apply (RndS_mono (value a / value c) (value b / value d)).
  - apply Rle_trans with (value b / value c).
    + apply Rmult_le_compat_r; [left; apply Rinv_0_lt_compat; lra | exact H1].
    + apply Rmult_le_compat_l; [lra|]. apply Rinv_le_contravar; lra.
  - apply div_round; auto. lra.
  - apply div_round; auto. lra.
Qed.

(** A sum with [+infinity], the other term not [-infinity], is [+infinity]. *)
Lemma add_infinity_r a b :
  is_nan a = false -> - powerRZ 2 1024 < value a ->
  Prim2SF b = S754_infinity false ->
  Prim2SF (a + b)%float = S754_infinity false.
Proof.
  rewrite is_nan_spec. unfold value. rewrite add_spec. intros N L ->.
  pose proof (pow2_pos 1024).
  destruct (Prim2SF a) as [s|s| |s m e]; try discriminate; try reflexivity.
  destruct s; [cbn [SF2R sgn] in L; lra | reflexivity].
Qed.

Lemma add_infinity_l a b :
  is_nan b = false -> - powerRZ 2 1024 < value b ->
  Prim2SF a = S754_infinity false ->
  Prim2SF (a + b)%float = S754_infinity false.
Proof.
  rewrite is_nan_spec. unfold value. rewrite add_spec. intros N L ->.
  pose proof (pow2_pos 1024).
  destruct (Prim2SF b) as [s|s| |s m e]; try discriminate; try reflexivity.
  destruct s; [cbn [SF2R sgn] in L; lra | reflexivity].
Qed.

(** a number that is not [-infinity]: finite or [+infinity] *)
Lemma above_cases x :
  is_nan x = false -> - powerRZ 2 1024 < value x ->
  is_finite x = true \/ Prim2SF x = S754_infinity false.
Proof.
  intros N L. destruct (is_finite x) eqn:F; [now left|right].
  destruct (infinite_cases x N F) as [s E]. unfold value in L. rewrite E in *.
  pose proof (pow2_pos 1024). destruct s; [cbn [SF2R sgn] in L; lra | reflexivity].
Qed.

Lemma below_big_finite x :
  is_nan x = false -> - powerRZ 2 1024 < value x -> value x < powerRZ 2 1024 ->
  is_finite x = true.
Proof. intros N L U. apply bounded_finite; [assumption | lra]. Qed.

(** Addition is monotone on numbers that are not [-infinity]. *)
Lemma add_mono_ext a b c d :
  is_nan a = false -> is_nan b = false -> is_nan c = false -> is_nan d = false ->
  - powerRZ 2 1024 < value a -> - powerRZ 2 1024 < value b ->
  value a <= value c -> value b <= value d ->
  value (a + b)%float <= value (c + d)%float.
Proof.
  intros Na Nb Nc Nd La Lb H1 H2.
  assert (Lc : - powerRZ 2 1024 < value c) by lra.
  assert (Ld : - powerRZ 2 1024 < value d) by lra.
  destruct (above_cases c Nc Lc) as [Fc|Ic].
  - destruct (above_cases d Nd Ld) as [Fd|Id].
    + pose proof (finite_bound c Fc). pose proof (finite_bound d Fd).
      apply add_mono; auto; apply below_big_finite; auto; lra.
    + pose proof (add_infinity_r c d Nc Lc Id) as E.
      unfold value at 2. rewrite E. cbn [SF2R sgn]. rewrite Rmult_1_l.
      apply value_range.
  - pose proof (add_infinity_l c d Nd Ld Ic) as E.
    unfold value at 2. rewrite E. cbn [SF2R sgn]. rewrite Rmult_1_l.
    apply value_range.
Qed.

(** A positive finite factor times [+infinity] is [+infinity]. *)
Lemma mul_infinity_r a b :
  is_finite a = true -> 0 < value a ->
  Prim2SF b = S754_infinity false ->
  Prim2SF (a * b)%float = S754_infinity false.
Proof.
  rewrite is_finite_spec. unfold value. rewrite mul_spec. intros F P ->.
  destruct (Prim2SF a) as [s|s| |s m e]; try discriminate; cbn [SF2R] in P; try lra.
  pose proof (F2R_pos m e). destruct s; [cbn [sgn] in P; lra | reflexivity].
Qed.

(** Multiplication by a positive finite factor is monotone in the factor,
    for a second operand that is a number [>= 0] or [+infinity]. *)
Lemma mul_mono_factor a c b :
  is_finite a = true -> is_finite c = true -> 0 < value a <= value c ->
  is_nan b = false -> 0 <= value b ->
  value (a * b)%float <= value (c * b)%float.
Proof.
  intros Fa Fc [P H] Nb Pb. pose proof (pow2_pos 1024) as Big.
  assert (Lb : - powerRZ 2 1024 < value b) by lra.
  destruct (above_cases b Nb Lb) as [Fb|Ib].
  - rewrite (float_mul_comm a b), (float_mul_comm c b). now apply mul_mono.
  - unfold value. rewrite (mul_infinity_r a b Fa P Ib), (mul_infinity_r c b Fc ltac:(lra) Ib).
    lra.
Qed.

Lemma SFadd_finite_not_nan x y :
  is_fin_sf x = true -> is_nan_sf y = false -> is_nan_sf (SF64add x y) = false.
Proof.
  destruct x as [sx|sx| |sx mx ex]; try discriminate;
  destruct y as [sy|sy| |sy my ey]; try discriminate; intros _ _;
  unfold SF64add; cbn [SFadd]; try reflexivity.
  - destruct sx, sy; reflexivity.
  - destruct (cond_Zopp sx _ + cond_Zopp sy _)%Z as [|p|p]; cbn [binary_normalize].
    + reflexivity.
    + destruct (binary_round_cases false p (Z.min ex ey)) as [R|[(q & e'' & R)|R]];
        rewrite R; reflexivity.
    + destruct (binary_round_cases true p (Z.min ex ey)) as [R|[(q & e'' & R)|R]];
        rewrite R; reflexivity.
Qed.

Lemma add_finite_not_nan x y :
  is_finite x = true -> is_nan y = false -> is_nan (x + y)%float = false.
Proof.
  rewrite is_finite_spec, !is_nan_spec, add_spec. apply SFadd_finite_not_nan.
Qed.

Lemma mul_mono2 a b c d :
  is_finite a = true -> is_finite b = true ->
  is_finite c = true -> is_finite d = true ->
  0 <= value a <= value c -> 0 <= value b <= value d ->
  value (a * b)%float <= value (c * d)%float.
Proof.
  intros Fa Fb Fc Fd [H0 H1] [H2 H3].
  apply (RndS_mono (value a * value b) (value c * value d)).
  - apply Rmult_le_compat; assumption.
  - now apply mul_round.
  - now apply mul_round.
Qed.

(** The values [Py.min] and [Py.max] return, on numbers. *)
Lemma min_value a b :
  is_nan a = false -> is_nan b = false ->
  is_nan (Py.min a b) = false /\ value (Py.min a b) = Rmin (value a) (value b).
Proof.
  intros Na Nb. unfold Py.min. destruct (b <? a)%float eqn:E.
  - apply ltb_iff in E. destruct E as (_ & _ & E).
    split; [assumption|]. rewrite Rmin_right; lra.
  - apply ltb_false_iff in E. destruct E as [E|[E|E]]; try congruence.
    split; [assumption|]. rewrite Rmin_left; lra.
Qed.

Lemma max_value a b :
  is_nan a = false -> is_nan b = false ->
  is_nan (Py.max a b) = false /\ value (Py.max a b) = Rmax (value a) (value b).
Proof.
  intros Na Nb. unfold Py.max. destruct (a <? b)%float eqn:E.
  - apply ltb_iff in E. destruct E as (_ & _ & E).
    split; [assumption|]. rewrite Rmax_right; lra.
  - apply ltb_false_iff in E. destruct E as [E|[E|E]]; try congruence.
    split; [assumption|]. rewrite Rmax_left; lra.
Qed.

Lemma clamp_value p :
  is_nan p = false ->
  value (clamp p 0 100) = Rmax 0 (Rmin 100 (value p)).
Proof.
  intros Np. unfold clamp.
  destruct (min_value 100 p eq_refl Np) as [N1 V1].
  destruct (max_value 0 (Py.min 100 p) eq_refl N1) as [N2 V2].
  now rewrite V2, V1, value_zero, value_hundred.
Qed.

Lemma clamp_mono p p' :
  is_nan p = false -> is_nan p' = false -> value p <= value p' ->
  value (clamp p 0 100) <= value (clamp p' 0 100).
Proof.
  intros Np Np' H. rewrite !clamp_value by assumption.
  apply Rmax_lub.
  - apply Rmax_l.
  - apply Rle_trans with (Rmin 100 (value p')); [|apply Rmax_r].
    apply Rmin_glb; [apply Rmin_l|]. apply Rle_trans with (value p); [apply Rmin_r | exact H].
Qed.

Lemma finite_hundred : is_finite 100 = true.
Proof. reflexivity. Qed.

Lemma share_mono p p' :
  is_nan p = false -> is_nan p' = false -> value p <= value p' ->
  value (clamp p 0 100 / 100)%float <= value (clamp p' 0 100 / 100)%float.
Proof.
  intros Np Np' H.
  destruct (clamp_range p) as [F1 [L1 _]]. destruct (clamp_range p') as [F2 _].
  pose proof (clamp_mono p p' Np Np' H) as M.
  apply div_mono; auto using finite_hundred; rewrite ?value_hundred; lra.
Qed.

Lemma price_mono x y :
  amount x = true -> amount y = true -> value x <= value y ->
  value (euro_per_kwh_from_cent x) <= value (euro_per_kwh_from_cent y).
Proof.
  intros Ax Ay H. apply amount_iff in Ax, Ay. destruct Ax as [Fx Px], Ay as [Fy Py].
  unfold euro_per_kwh_from_cent.
  apply div_mono; auto using finite_hundred; rewrite ?value_hundred; lra.
Qed.

Lemma allocation_mono g g' c c' p p' :
  amount g = true -> amount g' = true ->
  is_nan c = false -> is_nan c' = false -> 0 <= value c ->
  is_nan p = false -> is_nan p' = false ->
  value g <= value g' -> value c <= value c' -> value p <= value p' ->
  value (compute_self_consumed_kwh g c p) <= value (compute_self_consumed_kwh g' c' p').
Proof.
  intros Ag Ag' Nc Nc' Pc Np Np' Hg Hc Hp.
  apply amount_iff in Ag, Ag'. destruct Ag as [Fg Pg], Ag' as [Fg' Pg'].
  unfold compute_self_consumed_kwh. cbv zeta.
  destruct (share_range p) as [Fq [Pq _]]. destruct (share_range p') as [Fq' [Pq' _]].
  cbv zeta in *.
  destruct (target_range g p Fg Pg) as [Ft _].
  destruct (target_range g' p' Fg' Pg') as [Ft' _]. cbv zeta in *.
  pose proof (share_mono p p' Np Np' Hp) as Mq.
  assert (Mt : value (g * (clamp p 0 100 / 100))%float <=
               value (g' * (clamp p' 0 100 / 100))%float).
  { apply mul_mono2; auto; lra. }
  destruct (min_value _ c (finite_not_nan _ Ft) Nc) as [_ V1].
  destruct (min_value _ c' (finite_not_nan _ Ft') Nc') as [_ V2].
  rewrite V1, V2.
  apply Rmin_glb.
  - eapply Rle_trans; [apply Rmin_l | exact Mt].
  - eapply Rle_trans; [apply Rmin_r | exact Hc].
Qed.

(** the yearly cash flow of the two evaluators with self-consumption *)
Lemma annual_mono s e rc rc' ec ec' :
  amount s = true -> amount e = true ->
  amount rc = true -> amount rc' = true -> amount ec = true -> amount ec' = true ->
  value rc <= value rc' -> value ec <= value ec' ->
  let a := (s * euro_per_kwh_from_cent rc + e * euro_per_kwh_from_cent ec)%float in
  let a' := (s * euro_per_kwh_from_cent rc' + e * euro_per_kwh_from_cent ec')%float in
  is_nan a = false /\ is_nan a' = false /\ value a <= value a'.
Proof.
  intros As Ae Ar Ar' Ac Ac' Hr Hc. cbv zeta.
  pose proof (price_mono _ _ Ar Ar' Hr) as Mr. pose proof (price_mono _ _ Ac Ac' Hc) as Mc.
  destruct (price_range _ Ar) as [Fr Pr]. destruct (price_range _ Ar') as [Fr' Pr'].
  destruct (price_range _ Ac) as [Fc Pc]. destruct (price_range _ Ac') as [Fc' Pc'].
  apply amount_iff in As, Ae. destruct As as [Fs Ps], Ae as [Fe Pe].
  pose proof (finite_not_nan _ Fs) as Ns. pose proof (finite_not_nan _ Fe) as Ne.
  destruct (mul_nonneg s _ Ns Ps (finite_not_nan _ Fr) Pr (or_introl Fs) (or_introl Fr)) as [N1 P1].
  destruct (mul_nonneg s _ Ns Ps (finite_not_nan _ Fr') Pr' (or_introl Fs) (or_introl Fr')) as [N1' P1'].
  destruct (mul_nonneg e _ Ne Pe (finite_not_nan _ Fc) Pc (or_introl Fe) (or_introl Fc)) as [N2 P2].
  destruct (mul_nonneg e _ Ne Pe (finite_not_nan _ Fc') Pc' (or_introl Fe) (or_introl Fc')) as [N2' P2'].
  destruct (add_nonneg _ _ N1 P1 N2 P2) as [Na _].
  destruct (add_nonneg _ _ N1' P1' N2' P2') as [Na' _].
  split; [exact Na|]. split; [exact Na'|].
  pose proof (pow2_pos 1024).
  apply add_mono_ext; auto; try lra.
  - apply mul_mono; auto.
  - apply mul_mono; auto.
Qed.

(** the two totals of a result with investment [i] and yearly cash flow [a] *)
Lemma total_mono (k k' i i' a a' : float) :
  is_finite k = true -> is_finite k' = true -> 0 < value k <= value k' ->
  is_finite i = true -> is_finite i' = true -> value i' <= value i ->
  is_nan a = false -> is_nan a' = false -> 0 <= value a <= value a' ->
  is_nan (- i + k * a)%float = false /\ is_nan (- i' + k' * a')%float = false /\
  value (- i + k * a)%float <= value (- i' + k' * a')%float.
Proof.
  intros Fk Fk' [Pk Hk] Fi Fi' Hi Na Na' [Pa Ha]. pose proof (pow2_pos 1024) as Big.
  assert (Pa' : 0 <= value a') by lra.
  assert (Pk0 : 0 <= value k) by lra.
  assert (Pk' : 0 < value k') by lra.
  assert (Pk0' : 0 <= value k') by lra.
  assert (La' : - powerRZ 2 1024 < value a') by lra.
  destruct (mul_nonneg k a (finite_not_nan _ Fk) Pk0 Na Pa (or_introl Fk) (or_intror Pk))
    as [N1 P1].
  destruct (mul_nonneg k' a' (finite_not_nan _ Fk') Pk0' Na' Pa' (or_introl Fk')
              (or_intror Pk')) as [N2 P2].
  assert (Fni : is_finite (- i)%float = true) by now rewrite is_finite_opp.
  assert (Fni' : is_finite (- i')%float = true) by now rewrite is_finite_opp.
  split; [now apply add_finite_not_nan|]. split; [now apply add_finite_not_nan|].
  pose proof (finite_bound _ Fni).
  apply add_mono_ext; auto using finite_not_nan; try lra.
  - rewrite !value_opp. lra.
  - apply Rle_trans with (value (k' * a)%float).
    + now apply mul_mono_factor.
    + destruct (above_cases a' Na' La') as [Fa'|Ia'].
      * assert (Fa : is_finite a = true).
        { apply bounded_finite; [assumption|]. pose proof (finite_bound _ Fa'). lra. }
        apply mul_mono; auto.
      * unfold value at 2. rewrite (mul_infinity_r k' a' Fk' Pk' Ia').
        cbn [SF2R sgn]. rewrite Rmult_1_l. apply value_range.
Qed.

Lemma finite_ten : is_finite 10 = true.
Proof. reflexivity. Qed.

Lemma finite_twenty : is_finite 20 = true.
Proof. reflexivity. Qed.

Lemma SFmul_finite_not_nan x y :
  is_fin_sf x = true -> is_fin_sf y = true -> is_nan_sf (SF64mul x y) = false.
Proof.
  destruct x as [sx|sx| |sx mx ex]; try discriminate;
  destruct y as [sy|sy| |sy my ey]; try discriminate; intros _ _;
  unfold SF64mul; cbn [SFmul]; try reflexivity.
  destruct (bra_cases (xorb sx sy) (Z.pos (mx * my)) (ex + ey) loc_Exact ltac:(lia))
    as [E|[(p & e'' & E)|E]]; rewrite E; reflexivity.
Qed.

Lemma mul_finite_not_nan x y :
  is_finite x = true -> is_finite y = true -> is_nan (x * y)%float = false.
Proof.
  rewrite !is_finite_spec, is_nan_spec, mul_spec. apply SFmul_finite_not_nan.
Qed.

(** a product of factors of opposite signs is not above zero *)
Lemma mul_nonpos x y :
  is_finite x = true -> is_finite y = true ->
  value x <= 0 -> 0 <= value y -> value (x * y)%float <= 0.
Proof.
  intros Fx Fy Px Py.
  apply (RndS_mono (value x * value y) 0).
  - nra.
  - now apply mul_round.
  - apply RndS_0.
Qed.

(** adding a term [<= 0] to a finite [x] does not go above [x] *)
Lemma add_le_l x y :
  is_finite x = true -> is_nan y = false -> value y <= 0 ->
  is_nan (x + y)%float = false /\ value (x + y)%float <= value x.
Proof.
  intros Fx Ny Py. split; [now apply add_finite_not_nan|].
  pose proof (finite_bound x Fx) as Bx. pose proof (pow2_pos 1024) as Big.
  destruct (is_finite y) eqn:Fy.
  - apply (RndS_mono (value x + value y) (value x)).
    + lra.
    + now apply add_round.
    + replace (value x) with (value x + value 0%float) at 1 by (rewrite value_zero; lra).
      destruct (add_zero_r x 0%float (finite_not_nan _ Fx) eq_refl value_zero) as [_ V].
      rewrite <- V at 2. apply add_round; [assumption | reflexivity].
  - destruct (infinite_cases y Ny Fy) as [s E].
    assert (Es : s = true).
    { unfold value in Py. rewrite E in Py. destruct s; [reflexivity|].
      cbn [SF2R sgn] in Py. lra. }
    subst s. unfold value at 1. rewrite add_spec, E.
    rewrite is_finite_spec in Fx.
    destruct (Prim2SF x) as [sx|sx| |sx mx ex] eqn:Ex; try discriminate;
      unfold SF64add; cbn [SFadd SF2R sgn]; lra.
Qed.

End Rounding.

(** ** The clamp, for any bounds *)

(** X1: for bounds [lo <= hi], [clamp(x, lo, hi)] lies in [lo, hi] for every
    [x]; it equals [x] when [x] is already in [lo, hi]; and a NaN [x] is
    mapped to the upper bound. *)
Theorem clamp_within_bounds (x lo hi : float) :
  (lo <=? hi) = true ->
  (lo <=? clamp x lo hi) = true /\ (clamp x lo hi <=? hi) = true /\
  ((lo <=? x) = true -> (x <=? hi) = true -> (clamp x lo hi =? x) = true) /\
  (is_nan x = true -> (clamp x lo hi =? hi) = true).
Proof.
  intros H. apply leb_iff in H. destruct H as (Nl & Nh & L).
  unfold clamp, Py.max, Py.min.
  destruct (x <? hi) eqn:A1.
  - apply ltb_iff in A1. destruct A1 as (Nx & _ & A1).
    destruct (lo <? x) eqn:A2.
    + apply ltb_iff in A2. destruct A2 as (_ & _ & A2).
      repeat split; try (apply leb_of_values; auto; lra).
      * intros _ _. now apply eqb_of_values.
      * congruence.
    + apply ltb_false_iff in A2. repeat split; try (apply leb_of_values; auto; lra).
      * intros B _. apply leb_iff in B. destruct B as (_ & _ & B).
        destruct A2 as [A2|[A2|A2]]; try congruence. apply eqb_of_values; auto. lra.
      * congruence.
  - apply ltb_false_iff in A1.
    destruct (lo <? hi) eqn:A3.
    + repeat split; try (apply leb_of_values; auto; lra).
      * intros _ B. apply leb_iff in B. destruct B as (Nx & _ & B).
        destruct A1 as [A1|[A1|A1]]; try congruence. apply eqb_of_values; auto. lra.
      * intros _. apply eqb_of_values; auto.
    + apply ltb_false_iff in A3. destruct A3 as [A3|[A3|A3]]; try congruence.
      repeat split; try (apply leb_of_values; auto; lra).
      * intros _ B. apply leb_iff in B. destruct B as (Nx & _ & B).
        destruct A1 as [A1|[A1|A1]]; try congruence. apply eqb_of_values; auto. lra.
      * intros _. apply eqb_of_values; auto. lra.
Qed.

Lemma clamp_within_bounds_witness :
  (0 <=? 100) = true /\
  (0 <=? clamp 150 0 100) = true /\ (clamp 150 0 100 <=? 100) = true /\
  (clamp 30 0 100 =? 30) = true /\ (clamp nan 0 100 =? 100) = true.
Proof.
  split; [reflexivity|].
  destruct (clamp_within_bounds 150 0 100 eq_refl) as (A & B & _).
  destruct (clamp_within_bounds 30 0 100 eq_refl) as (_ & _ & C & _).
  destruct (clamp_within_bounds nan 0 100 eq_refl) as (_ & _ & _ & D).
  split; [exact A|]. split; [exact B|]. split; [exact (C eq_refl eq_refl)|exact (D eq_refl)].
Defined.

(** ** The tariff converter *)

(** X2: a finite non-negative price in cents is converted to a finite
    non-negative price in euros that does not exceed the number of cents,
    and is at most 1 when the price is at most 100 cents. *)
Theorem euro_per_kwh_range (cent : float) :
  amount cent = true ->
  amount (euro_per_kwh_from_cent cent) = true /\
  (euro_per_kwh_from_cent cent <=? cent) = true /\
  ((cent <=? 100) = true -> (euro_per_kwh_from_cent cent <=? 1) = true).
Proof.
  intros A. apply amount_iff in A. destruct A as [F P].
  destruct (div_hundred cent F P) as (F' & [L U] & U1).
  unfold euro_per_kwh_from_cent.
  pose proof (finite_not_nan _ F) as N. pose proof (finite_not_nan _ F') as N'.
  split; [apply amount_iff; auto|]. split; [now apply leb_of_values|].
  intros H. apply leb_iff in H. rewrite value_hundred in H. destruct H as (_ & _ & H).
  apply leb_of_values; auto. rewrite value_one. auto.
Qed.

Lemma euro_per_kwh_range_witness :
  amount 32 = true /\
  amount (euro_per_kwh_from_cent 32) = true /\
  (euro_per_kwh_from_cent 32 <=? 32) = true /\
  (euro_per_kwh_from_cent 32 <=? 1) = true.
Proof.
  split; [reflexivity|].
  destruct (euro_per_kwh_range 32 eq_refl) as (A & B & C).
  split; [exact A|]. split; [exact B|exact (C eq_refl)].
Defined.

(** ** The allocator at the ends of the range *)

Lemma full_share_allocation g c p :
  (p <? 100) = false -> compute_self_consumed_kwh g c p = Py.min g c.
Proof.
  intros H. unfold compute_self_consumed_kwh, clamp, Py.max, Py.min.
  rewrite H. change (0 <? 100) with true. cbv iota.
  change (100 / 100) with 1. now rewrite float_mul_one_r.
Qed.

Lemma zero_share_allocation g c p :
  (p <=? 0) = true -> is_finite g = true -> (0 <=? c) = true ->
  (compute_self_consumed_kwh g c p =? 0) = true.
Proof.
  intros H Fg Pc. apply leb_iff in H. rewrite value_zero in H.
  destruct H as (Np & _ & H). apply leb_zero_iff in Pc. destruct Pc as [Nc Pc].
  assert (E : clamp p 0 100 = 0).
  { unfold clamp, Py.max, Py.min.
    assert (A1 : (p <? 100) = true).
    { apply ltb_iff. rewrite value_hundred. repeat split; auto. lra. }
    rewrite A1.
    assert (A2 : (0 <? p) = false).
    { apply ltb_false_iff. rewrite value_zero. right; right. assumption. }
    now rewrite A2. }
  unfold compute_self_consumed_kwh. rewrite E. change (0 / 100) with 0.
  destruct (mul_zero_r g 0 Fg eq_refl value_zero) as [Ft Vt].
  unfold Py.min.
  assert (A : (c <? g * 0) = false).
  { apply ltb_false_iff. right; right. rewrite Vt. assumption. }
  rewrite A. apply eqb_of_values; auto using finite_not_nan.
Qed.

(** X3: with a share of 100 % or more, or a NaN share, the allocator
    returns exactly [min(generation, consumption)]; with a share of 0 % or
    less, a finite generation and a consumption >= 0 it returns zero. *)
Theorem allocator_extremes :
  (forall g c p, (p <? 100) = false ->
                 compute_self_consumed_kwh g c p = Py.min g c) /\
  (forall g c p, (p <=? 0) = true -> is_finite g = true -> (0 <=? c) = true ->
                 (compute_self_consumed_kwh g c p =? 0) = true).
Proof.
  split; [exact full_share_allocation|exact zero_share_allocation].
Qed.

Lemma allocator_extremes_witness :
  ((0 <=? 0) = true /\ is_finite 4500 = true /\ (0 <=? 4000) = true) /\
  (compute_self_consumed_kwh 4500 4000 0 =? 0) = true.
Proof.
  split; [repeat split|].
  exact (proj2 allocator_extremes 4500 4000 0 eq_refl eq_refl eq_refl).
Defined.

(** ** Energy balance *)

(** X4: for a finite generation >= 0, a consumption >= 0 and any share, the
    self-consumed energy and the exported energy [max(0, generation - self)]
    are both finite and lie between 0 and the generation. *)
Theorem energy_split_in_range (g c p : float) :
  is_finite g = true -> (0 <=? g) = true -> (0 <=? c) = true ->
  let self_kwh := compute_self_consumed_kwh g c p in
  let export_kwh := Py.max 0 (g - self_kwh) in
  (is_finite self_kwh = true /\ (0 <=? self_kwh) = true /\ (self_kwh <=? g) = true) /\
  (is_finite export_kwh = true /\ (0 <=? export_kwh) = true /\ (export_kwh <=? g) = true).
Proof.
  intros Fg Pg Pc. cbv zeta.
  apply leb_zero_iff in Pg, Pc. destruct Pg as [Ng Pg], Pc as [Nc Pc].
  destruct (self_consumed_range g c p Fg Pg Nc Pc) as (Fs & Ls & _ & _ & Us).
  pose proof (finite_not_nan _ Fs) as Ns.
  split.
  - split; [assumption|]. split; [apply leb_zero_iff; auto|now apply leb_of_values].
  - destruct (sub_le g (compute_self_consumed_kwh g c p) Fg Ns (conj Ls Us)) as (Fd & Ld & Ud).
    unfold Py.max. destruct (0 <? _) eqn:E.
    + split; [assumption|]. split; [apply leb_zero_iff; auto using finite_not_nan|].
      apply leb_of_values; auto using finite_not_nan.
    + split; [reflexivity|]. split; [reflexivity|]. apply leb_of_values; auto.
Qed.

Lemma energy_split_in_range_witness :
  (is_finite 4500 = true /\ (0 <=? 4500) = true /\ (0 <=? 4000) = true) /\
  (compute_self_consumed_kwh 4500 4000 30 <=? 4500) = true /\
  (Py.max 0 (4500 - compute_self_consumed_kwh 4500 4000 30) <=? 4500) = true.
Proof.
  split; [repeat split|].
  destruct (energy_split_in_range 4500 4000 30 eq_refl eq_refl eq_refl)
    as ((_ & _ & A) & (_ & _ & B)).
  split; [exact A|exact B].
Defined.

(** ** Sign of the payback *)

(** X5: for a finite investment and a yearly cash flow that is not NaN,
    [payback_years] never returns a negative number or NaN: the result is
    [None] or a value >= 0. *)
Theorem payback_years_nonneg (invest annual y : float) :
  is_finite invest = true -> is_nan annual = false ->
  payback_years invest annual = Some y -> (0 <=? y) = true.
Proof.
  intros Fi Na. unfold payback_years.
  destruct (invest <=? 0) eqn:E1; [intros [= <-]; reflexivity|].
  destruct (annual <=? 0) eqn:E2; [discriminate|]. intros [= <-].
  pose proof (finite_not_nan _ Fi) as Ni.
  apply leb_false_iff in E1, E2. rewrite value_zero in *. change (is_nan 0) with false in *.
  assert (Pi : (0 < value invest)%R) by (destruct E1 as [E|[E|E]]; congruence || assumption).
  assert (Pa : (0 < value annual)%R) by (destruct E2 as [E|[E|E]]; congruence || assumption).
  destruct (div_nonneg invest annual Ni (Rlt_le _ _ Pi) Na Pa (or_introl Fi)) as [N P].
  apply leb_zero_iff. auto.
Qed.

Lemma payback_years_nonneg_witness :
  (is_finite 1200 = true /\ is_nan 542.25 = false /\
   payback_years 1200 542.25 = Some (1200 / 542.25)) /\
  (0 <=? 1200 / 542.25) = true.
Proof.
  split; [repeat split|].
  exact (payback_years_nonneg 1200 542.25 _ eq_refl eq_refl eq_refl).
Defined.

(** ** The chart and the table agree *)

Lemma curve_year_10 invest annual :
  nth_error (App.cashflow_curve invest annual) 10 = Some (- invest + 10 * annual).
Proof.
  change (nth_error (App.cashflow_curve invest annual) 10) with (Some (- invest + annual * 10)).
  now rewrite float_mul_comm.
Qed.

Lemma curve_year_20 invest annual :
  nth_error (App.cashflow_curve invest annual) 20 = Some (- invest + 20 * annual).
Proof.
  change (nth_error (App.cashflow_curve invest annual) 20) with (Some (- invest + annual * 20)).
  now rewrite float_mul_comm.
Qed.

(** X6: for every result of the three evaluators, on all inputs, the points
    of years 10 and 20 of the cash-flow curve drawn for it are exactly the
    [total_10y_eur] and [total_20y_eur] shown in the table. *)
Theorem curve_meets_totals :
  let agrees (r : Result) :=
    nth_error (App.cashflow_curve (invest_eur r) (annual_cashflow_eur r)) 10
      = Some (total_10y_eur r) /\
    nth_error (App.cashflow_curve (invest_eur r) (annual_cashflow_eur r)) 20
      = Some (total_20y_eur r) in
  (forall g m, agrees (variant1_full_feed_in g m)) /\
  (forall n g c p i rc ec, agrees (variant_self_consumption n g c p i rc ec)) /\
  (forall g c p i rc ec, agrees (variant4_new_system g c p i rc ec)).
Proof.
  cbv zeta. split; [|split]; intros; rewrite curve_year_10, curve_year_20.
  - cbn [variant1_full_feed_in invest_eur annual_cashflow_eur total_10y_eur total_20y_eur].
    change (- 0) with neg_zero. now rewrite !add_neg_zero_l.
  - split; reflexivity.
  - split; reflexivity.
Qed.

(** ** The curve never dips below the outlay *)

Lemma years_members y :
  In y App.years -> is_finite (Py.float_of_int y) = true /\ (0 <=? Py.float_of_int y) = true.
Proof.
  unfold App.years. simpl. intros H.
  repeat (destruct H as [<-|H]; [split; reflexivity|]). destruct H.
Qed.

(** X7: for a finite investment >= 0 and a finite yearly cash flow >= 0,
    every point of the cash-flow curve is >= -invest: the curve never dips
    below its starting point. *)
Theorem curve_above_outlay (invest annual v : float) :
  amount invest = true -> amount annual = true ->
  In v (App.cashflow_curve invest annual) -> (- invest <=? v) = true.
Proof.
  intros Ai Aa H. apply amount_iff in Ai, Aa. destruct Ai as [Fi Pi], Aa as [Fa Pa].
  unfold App.cashflow_curve in H. apply in_map_iff in H. destruct H as (y & <- & Hy).
  destruct (years_members y Hy) as [Fy Py]. apply leb_zero_iff in Py. destruct Py as [Ny Py].
  destruct (mul_nonneg annual (Py.float_of_int y) (finite_not_nan _ Fa) Pa Ny Py
              (or_introl Fa) (or_introl Fy)) as [Np Pp].
  destruct (add_ge_l (- invest) (annual * Py.float_of_int y)) as [Ns Ls]; try assumption.
  - now rewrite is_finite_opp.
  - rewrite value_opp. lra.
  - apply leb_of_values; auto. rewrite is_nan_opp. now apply finite_not_nan.
Qed.

Lemma curve_above_outlay_witness :
  (amount 1200 = true /\ amount 542.25 = true /\
   In (- 1200 + 542.25 * 3) (App.cashflow_curve 1200 542.25)) /\
  (- 1200 <=? - 1200 + 542.25 * 3) = true.
Proof.
  assert (H : In (- 1200 + 542.25 * 3) (App.cashflow_curve 1200 542.25)).
  { right; right; right; left. reflexivity. }
  split; [split; [reflexivity|split; [reflexivity|exact H]]|].
  exact (curve_above_outlay 1200 542.25 _ eq_refl eq_refl H).
Defined.

(** ** The variants at the ends of the share range *)

(** X8: with a share of 0 % or less, the self-consumption evaluator has the
    same yearly cash flow as continued full export at the same export
    price, for finite non-negative generation, consumption and prices. *)
Theorem zero_share_is_full_feed_in (n : string) (g c p i rc ec : float) :
  (p <=? 0) = true ->
  amount g = true -> amount c = true -> amount rc = true -> amount ec = true ->
  (annual_cashflow_eur (variant_self_consumption n g c p i rc ec)
   =? annual_cashflow_eur (variant1_full_feed_in g ec)) = true.
Proof.
  intros Hp Ag Ac Arc Aec.
  cbn [variant_self_consumption variant1_full_feed_in annual_cashflow_eur].
  pose proof Ag as Ag'. pose proof Ac as Ac'.
  apply amount_iff in Ag', Ac'. destruct Ag' as [Fg Pg], Ac' as [Fc Pc].
  pose proof (finite_not_nan _ Fg) as Ng. pose proof (finite_not_nan _ Fc) as Nc.
  assert (Lc : (0 <=? c) = true) by (apply leb_zero_iff; auto).
  destruct (proj1 (eqb_iff _ _) (zero_share_allocation g c p Hp Fg Lc)) as (Ns & _ & Vs).
  rewrite value_zero in Vs.
  set (s := compute_self_consumed_kwh g c p) in *.
  destruct (price_range rc Arc) as [Fr Pr]. destruct (price_range ec Aec) as [Fx Px].
  destruct (mul_zero_l s _ Ns Vs Fr) as [F1 V1].
  destruct (sub_zero_r g s Ng Ns Vs) as [Nd Vd].
  destruct (mul_nonneg g _ Ng Pg (finite_not_nan _ Fx) Px (or_introl Fg) (or_introl Fx))
    as [Nt Pt].
  unfold Py.max. destruct (0 <? g - s) eqn:E.
  - apply ltb_iff in E. rewrite value_zero, Vd in E. destruct E as (_ & _ & E).
    assert (Eg : g - s = g).
    { apply value_inj; auto. rewrite Vd. lra. }
    rewrite Eg.
    destruct (add_zero_l _ (g * euro_per_kwh_from_cent ec) (finite_not_nan _ F1) V1 Nt)
      as [Na Va].
    apply eqb_of_values; auto.
  - apply ltb_false_iff in E. rewrite value_zero, Vd in E. change (is_nan 0) with false in E.
    assert (Vg : value g = 0%R) by (destruct E as [E|[E|E]]; try congruence; lra).
    destruct (mul_zero_l 0 _ eq_refl value_zero Fx) as [F2 V2].
    destruct (add_zero_l _ (0 * euro_per_kwh_from_cent ec) (finite_not_nan _ F1) V1
                (finite_not_nan _ F2)) as [Na Va].
    destruct (mul_zero_l g _ Ng Vg Fx) as [F3 V3].
    apply eqb_of_values; auto. rewrite Va, V2, V3. reflexivity.
Qed.

Lemma zero_share_is_full_feed_in_witness :
  ((0 <=? 0) = true /\ amount 4500 = true /\ amount 4000 = true /\
   amount 32 = true /\ amount 3.5 = true) /\
  (annual_cashflow_eur (variant_self_consumption "V2" 4500 4000 0 1200 32 3.5)
   =? annual_cashflow_eur (variant1_full_feed_in 4500 3.5)) = true.
Proof.
  split; [repeat split|].
  exact (zero_share_is_full_feed_in "V2" 4500 4000 0 1200 32 3.5
           eq_refl eq_refl eq_refl eq_refl eq_refl).
Defined.

(** X9: for a finite generation >= 0 and finite retail and export prices
    >= 0 in cents, with a share of 100 % or more (or a NaN share) and a
    consumption that is not below the generation, all of the generation is
    self-consumed, nothing is exported, and the yearly cash flow equals
    generation times the retail price. *)
Theorem full_share_cash_flow (n : string) (g c p i rc ec : float) :
  (p <? 100) = false -> (c <? g) = false ->
  amount g = true -> amount rc = true -> amount ec = true ->
  compute_self_consumed_kwh g c p = g /\
  Py.max 0 (g - compute_self_consumed_kwh g c p) = 0 /\
  (annual_cashflow_eur (variant_self_consumption n g c p i rc ec)
   =? g * euro_per_kwh_from_cent rc) = true.
Proof.
  intros Hp Hc Ag Arc Aec.
  assert (Es : compute_self_consumed_kwh g c p = g).
  { rewrite (full_share_allocation g c p Hp). unfold Py.min. now rewrite Hc. }
  apply amount_iff in Ag. destruct Ag as [Fg Pg].
  pose proof (finite_not_nan _ Fg) as Ng.
  destruct (sub_self g Fg) as [Fd Vd].
  assert (Ee : Py.max 0 (g - g) = 0).
  { unfold Py.max.
    assert (A : (0 <? g - g) = false).
    { apply ltb_false_iff. right; right. rewrite Vd, value_zero. apply Rle_refl. }
    now rewrite A. }
  split; [exact Es|]. rewrite Es. split; [exact Ee|].
  cbn [variant_self_consumption annual_cashflow_eur]. rewrite Es, Ee.
  destruct (price_range rc Arc) as [Fr Pr]. destruct (price_range ec Aec) as [Fx Px].
  destruct (mul_nonneg g _ Ng Pg (finite_not_nan _ Fr) Pr (or_introl Fg) (or_introl Fr))
    as [Nt Pt].
  destruct (mul_zero_l 0 _ eq_refl value_zero Fx) as [F2 V2].
  destruct (add_zero_r (g * euro_per_kwh_from_cent rc) _ Nt (finite_not_nan _ F2) V2)
    as [Na Va].
  now apply eqb_of_values.
Qed.

Lemma full_share_cash_flow_witness :
  ((100 <? 100) = false /\ (5000 <? 4500) = false /\ amount 4500 = true /\
   amount 32 = true /\ amount 3.5 = true) /\
  compute_self_consumed_kwh 4500 5000 100 = 4500 /\
  (annual_cashflow_eur (variant_self_consumption "V3" 4500 5000 100 5200 32 3.5)
   =? 4500 * euro_per_kwh_from_cent 32) = true.
Proof.
  split; [repeat split|].
  destruct (full_share_cash_flow "V3" 4500 5000 100 5200 32 3.5
              eq_refl eq_refl eq_refl eq_refl eq_refl) as (A & _ & B).
  split; [exact A|exact B].
Defined.

(** ** The investment of variant 3 *)

(** X10: for finite non-negative rewiring cost, battery size and price per
    kWh, the battery cost is >= 0 and the total investment of variant 3 is
    a number not below the rewiring cost and not below the battery cost. *)
Theorem investment_v3_covers_parts (i : App.Inputs) :
  amount (App.inv_v3_umbau i) = true ->
  amount (App.battery_size_kwh i) = true ->
  amount (App.battery_price_per_kwh i) = true ->
  (0 <=? App.battery_cost i) = true /\
  (App.inv_v3_umbau i <=? App.inv_v3 i) = true /\
  (App.battery_cost i <=? App.inv_v3 i) = true.
Proof.
  intros Au As Ap. apply amount_iff in Au, As, Ap.
  destruct Au as [Fu Pu], As as [Fs Ps], Ap as [Fp Pp].
  pose proof (finite_not_nan _ Fu) as Nu.
  unfold App.inv_v3, App.battery_cost.
  destruct (mul_nonneg _ _ (finite_not_nan _ Fs) Ps (finite_not_nan _ Fp) Pp
              (or_introl Fs) (or_introl Fp)) as [Nc Pc].
  destruct (add_nonneg _ _ Nu Pu Nc Pc) as [Nt Pt].
  split; [apply leb_zero_iff; auto|]. split.
  - apply leb_of_values; auto. now apply add_ge_nonneg.
  - apply leb_of_values; auto. rewrite float_add_comm. now apply add_ge_nonneg.
Qed.

Lemma investment_v3_covers_parts_witness :
  (amount (App.inv_v3_umbau App.defaults) = true /\
   amount (App.battery_size_kwh App.defaults) = true /\
   amount (App.battery_price_per_kwh App.defaults) = true) /\
  (App.inv_v3_umbau App.defaults <=? App.inv_v3 App.defaults) = true /\
  (App.battery_cost App.defaults <=? App.inv_v3 App.defaults) = true.
Proof.
  split; [repeat split|].
  exact (proj2 (investment_v3_covers_parts App.defaults eq_refl eq_refl eq_refl)).
Defined.

(** ** A longer horizon never lowers the total *)

(** X11: for finite non-negative energies and prices and a finite investment,
    the 20-year total of each evaluator's result is not below its 10-year
    total. *)
Theorem totals_grow_with_horizon (n : string) (g c p i rc ec : float) :
  amount g = true -> amount c = true -> is_finite i = true ->
  amount rc = true -> amount ec = true ->
  let grows (r : Result) := (total_10y_eur r <=? total_20y_eur r) = true in
  grows (variant1_full_feed_in g ec) /\
  grows (variant_self_consumption n g c p i rc ec) /\
  grows (variant4_new_system g c p i rc ec).
Proof.
  intros Ag Ac Fi Ar Ae. cbv zeta.
  destruct (annual_nonneg g c p rc ec Ag (amount_nonneg _ Ac) Ar Ae) as [Na Pa].
  cbv zeta in Na, Pa.
  assert (K : (0 < value 10 <= value 20)%R) by (rewrite value_ten, value_twenty; lra).
  assert (T : forall a, is_nan a = false -> (0 <= value a)%R ->
              (- i + 10 * a <=? - i + 20 * a) = true).
  { intros a N P.
    destruct (total_mono 10 20 i i a a finite_ten finite_twenty K Fi Fi (Rle_refl _)
                N N (conj P (Rle_refl _))) as (N1 & N2 & L).
    now apply leb_of_values. }
  split; [|split].
  - unfold variant1_full_feed_in. cbn [total_10y_eur total_20y_eur].
    destruct (price_range ec Ae) as [Fm Pm].
    apply amount_iff in Ag. destruct Ag as [Fg Pg].
    destruct (mul_nonneg g _ (finite_not_nan _ Fg) Pg (finite_not_nan _ Fm) Pm
                (or_introl Fg) (or_introl Fm)) as [N P].
    assert (K10 : (0 <= value 10)%R) by lra. assert (K20 : (0 <= value 20)%R) by lra.
    destruct (mul_nonneg 10 _ eq_refl K10 N P (or_introl finite_ten) (or_intror (proj1 K)))
      as [N1 _].
    assert (K' : (0 < value 20)%R) by lra.
    destruct (mul_nonneg 20 _ eq_refl K20 N P (or_introl finite_twenty) (or_intror K'))
      as [N2 _].
    apply leb_of_values; auto.
    now apply mul_mono_factor.
  - unfold variant_self_consumption. cbn [total_10y_eur total_20y_eur]. now apply T.
  - unfold variant4_new_system. cbn [total_10y_eur total_20y_eur]. now apply T.
Qed.

Lemma totals_grow_with_horizon_witness :
  (amount 4500 = true /\ amount 4000 = true /\ is_finite 1200 = true /\
   amount 32 = true /\ amount 3.5 = true) /\
  (total_10y_eur (variant_self_consumption "V2" 4500 4000 30 1200 32 3.5) <=?
   total_20y_eur (variant_self_consumption "V2" 4500 4000 30 1200 32 3.5)) = true.
Proof.
  split; [repeat split|].
  exact (proj1 (proj2 (totals_grow_with_horizon "V2" 4500 4000 30 1200 32 3.5
                         eq_refl eq_refl eq_refl eq_refl eq_refl))).
Defined.

(** ** The curve rises with the years *)

Lemma years_in y : (0 <= y <= 20)%Z -> In y App.years.
Proof. intros H. apply (nth_error_In _ (Z.to_nat y)). now apply years_nth. Qed.

Lemma year_floats_ordered y1 y2 :
  In y1 App.years -> In y2 App.years -> (y1 <= y2)%Z ->
  (Py.float_of_int y1 <=? Py.float_of_int y2) = true.
Proof.
  intros H1 H2 L.
  assert (A : forallb (fun a => forallb (fun b =>
                implb (a <=? b)%Z (Py.float_of_int a <=? Py.float_of_int b))
                App.years) App.years = true) by (vm_compute; reflexivity).
  rewrite forallb_forall in A. specialize (A y1 H1).
  rewrite forallb_forall in A. specialize (A y2 H2).
  apply Z.leb_le in L. rewrite L in A. exact A.
Qed.

(** X12: for a finite investment and a finite yearly cash flow >= 0, the
    cash-flow curve never falls from one year to a later one. *)
Theorem curve_nondecreasing (invest annual v1 v2 : float) (y1 y2 : Z) :
  is_finite invest = true -> amount annual = true ->
  (0 <= y1)%Z -> (y1 <= y2)%Z -> (y2 <= 20)%Z ->
  nth_error (App.cashflow_curve invest annual) (Z.to_nat y1) = Some v1 ->
  nth_error (App.cashflow_curve invest annual) (Z.to_nat y2) = Some v2 ->
  (v1 <=? v2) = true.
Proof.
  intros Fi Aa H0 H1 H2 E1 E2.
  assert (R1 : (0 <= y1 <= 20)%Z) by lia. assert (R2 : (0 <= y2 <= 20)%Z) by lia.
  unfold App.cashflow_curve in E1, E2.
  rewrite nth_error_map, (years_nth _ R1) in E1. rewrite nth_error_map, (years_nth _ R2) in E2.
  injection E1 as <-. injection E2 as <-.
  apply amount_iff in Aa. destruct Aa as [Fa Pa].
  destruct (years_members y1 (years_in y1 R1)) as [F1 P1].
  destruct (years_members y2 (years_in y2 R2)) as [F2 P2].
  apply leb_zero_iff in P1, P2. destruct P1 as [N1 P1], P2 as [N2 P2].
  pose proof (year_floats_ordered y1 y2 (years_in y1 R1) (years_in y2 R2) H1) as L.
  apply leb_iff in L. destruct L as (_ & _ & L).
  pose proof (finite_not_nan _ Fa) as Na.
  destruct (mul_nonneg annual _ Na Pa N1 P1 (or_introl Fa) (or_introl F1)) as [M1 Q1].
  destruct (mul_nonneg annual _ Na Pa N2 P2 (or_introl Fa) (or_introl F2)) as [M2 Q2].
  assert (Fni : is_finite (- invest) = true) by now rewrite is_finite_opp.
  pose proof (finite_bound _ Fni) as Bi. pose proof (pow2_pos 1024) as Big.
  apply leb_of_values.
  - now apply add_finite_not_nan.
  - now apply add_finite_not_nan.
  - apply add_mono_ext; auto using finite_not_nan; try lra.
    now apply mul_mono.
Qed.

Lemma curve_nondecreasing_witness :
  (is_finite 1200 = true /\ amount 542.25 = true /\
   (0 <= 3)%Z /\ (3 <= 7)%Z /\ (7 <= 20)%Z /\
   nth_error (App.cashflow_curve 1200 542.25) (Z.to_nat 3) = Some (- 1200 + 542.25 * 3) /\
   nth_error (App.cashflow_curve 1200 542.25) (Z.to_nat 7) = Some (- 1200 + 542.25 * 7)) /\
  (- 1200 + 542.25 * 3 <=? - 1200 + 542.25 * 7) = true.
Proof.
  split; [repeat split; lia|].
  exact (curve_nondecreasing 1200 542.25 _ _ 3 7 eq_refl eq_refl
           ltac:(lia) ltac:(lia) ltac:(lia) eq_refl eq_refl).
Defined.

(** ** Better prices and a lower investment never hurt *)

(** X13: for a finite generation >= 0, a consumption >= 0, finite prices
    >= 0 in cents and finite investments, and with the same energies and
    share, a result computed with prices that are not lower and an
    investment that is not higher has a yearly cash flow, a 10-year total
    and a 20-year total that are not lower; this holds for both evaluators
    with self-consumption, and for the full feed-in evaluator in its
    market value. *)
Theorem result_monotone (n : string) (g c p i i' rc rc' ec ec' : float) :
  amount g = true -> (0 <=? c) = true ->
  is_finite i = true -> is_finite i' = true -> (i' <=? i) = true ->
  amount rc = true -> amount rc' = true -> (rc <=? rc') = true ->
  amount ec = true -> amount ec' = true -> (ec <=? ec') = true ->
  let improves (r r' : Result) :=
    (annual_cashflow_eur r <=? annual_cashflow_eur r') = true /\
    (total_10y_eur r <=? total_10y_eur r') = true /\
    (total_20y_eur r <=? total_20y_eur r') = true in
  improves (variant_self_consumption n g c p i rc ec)
           (variant_self_consumption n g c p i' rc' ec') /\
  improves (variant4_new_system g c p i rc ec)
           (variant4_new_system g c p i' rc' ec') /\
  improves (variant1_full_feed_in g ec) (variant1_full_feed_in g ec').
Proof.
  intros Ag Ac Fi Fi' Li Ar Ar' Lr Ae Ae' Le. cbv zeta.
  apply leb_iff in Li, Lr, Le.
  destruct Li as (_ & _ & Li), Lr as (_ & _ & Lr), Le as (_ & _ & Le).
  assert (K10 : (0 < value 10 <= value 10)%R) by (rewrite value_ten; lra).
  assert (K20 : (0 < value 20 <= value 20)%R) by (rewrite value_twenty; lra).
  pose proof Ag as Ag'. apply amount_iff in Ag'. destruct Ag' as [Fg Pg].
  pose proof Ac as Ac'. apply leb_zero_iff in Ac'. destruct Ac' as [Nc Pc].
  destruct (self_consumed_range g c p Fg Pg Nc Pc) as (Fs & Ps & _).
  destruct (export_range g c p Fg Pg Nc Pc) as (_ & _ & Fe & Pe).
  cbv zeta in Fs, Ps, Fe, Pe.
  assert (As : amount (compute_self_consumed_kwh g c p) = true) by (apply amount_iff; auto).
  assert (Ax : amount (Py.max 0 (g - compute_self_consumed_kwh g c p)) = true)
    by (apply amount_iff; auto).
  destruct (annual_mono _ _ rc rc' ec ec' As Ax Ar Ar' Ae Ae' Lr Le) as (Na & Na' & La).
  cbv zeta in Na, Na', La.
  destruct (annual_nonneg g c p rc ec Ag Ac Ar Ae) as [_ Pa]. cbv zeta in Pa.
  destruct (total_mono 10 10 i i' _ _ finite_ten finite_ten K10 Fi Fi' Li Na Na' (conj Pa La))
    as (T1 & T1' & L10).
  destruct (total_mono 20 20 i i' _ _ finite_twenty finite_twenty K20 Fi Fi' Li Na Na'
              (conj Pa La)) as (T2 & T2' & L20).
  assert (V : (annual_cashflow_eur (variant_self_consumption n g c p i rc ec) <=?
               annual_cashflow_eur (variant_self_consumption n g c p i' rc' ec')) = true /\
              (total_10y_eur (variant_self_consumption n g c p i rc ec) <=?
               total_10y_eur (variant_self_consumption n g c p i' rc' ec')) = true /\
              (total_20y_eur (variant_self_consumption n g c p i rc ec) <=?
               total_20y_eur (variant_self_consumption n g c p i' rc' ec')) = true).
  { unfold variant_self_consumption.
    cbn [annual_cashflow_eur total_10y_eur total_20y_eur].
    split; [|split]; apply leb_of_values; assumption. }
  split; [exact V|]. split; [exact V|].
  unfold variant1_full_feed_in. cbn [annual_cashflow_eur total_10y_eur total_20y_eur].
  destruct (price_range ec Ae) as [Fm Pm]. destruct (price_range ec' Ae') as [Fm' Pm'].
  pose proof (price_mono _ _ Ae Ae' Le) as Mm.
  pose proof (finite_not_nan _ Fg) as Ng.
  destruct (mul_nonneg g _ Ng Pg (finite_not_nan _ Fm) Pm (or_introl Fg) (or_introl Fm))
    as [N P].
  destruct (mul_nonneg g _ Ng Pg (finite_not_nan _ Fm') Pm' (or_introl Fg) (or_introl Fm'))
    as [N' P'].
  assert (M : (value (g * euro_per_kwh_from_cent ec) <=
               value (g * euro_per_kwh_from_cent ec'))%R) by (now apply mul_mono).
  assert (Z0 : is_finite 0 = true) by reflexivity.
  destruct (total_mono 10 10 0 0 _ _ finite_ten finite_ten K10 Z0 Z0 (Rle_refl _) N N'
              (conj P M)) as (U1 & U1' & W10).
  destruct (total_mono 20 20 0 0 _ _ finite_twenty finite_twenty K20 Z0 Z0 (Rle_refl _) N N'
              (conj P M)) as (U2 & U2' & W20).
  change (- 0) with neg_zero in *. rewrite !add_neg_zero_l in *.
  split; [|split]; apply leb_of_values; assumption.
Qed.

Lemma result_monotone_witness :
  (amount 4500 = true /\ (0 <=? 4000) = true /\
   is_finite 5200 = true /\ is_finite 1200 = true /\ (1200 <=? 5200) = true /\
   amount 30 = true /\ amount 32 = true /\ (30 <=? 32) = true /\
   amount 3.5 = true /\ amount 8 = true /\ (3.5 <=? 8) = true) /\
  (total_20y_eur (variant_self_consumption "V" 4500 4000 60 5200 30 3.5) <=?
   total_20y_eur (variant_self_consumption "V" 4500 4000 60 1200 32 8)) = true.
Proof.
  split; [repeat split|].
  exact (proj2 (proj2 (proj1 (result_monotone "V" 4500 4000 60 5200 1200 30 32 3.5 8
                         eq_refl eq_refl eq_refl eq_refl eq_refl eq_refl eq_refl eq_refl
                         eq_refl eq_refl eq_refl)))).
Defined.

(** ** The allocator is monotone *)

(** X14: for finite generations >= 0 and consumptions >= 0, the self-consumed
    energy does not fall when the generation, the consumption or the share
    is raised. *)
Theorem allocator_monotone (g g' c c' p p' : float) :
  amount g = true -> amount g' = true -> (g <=? g') = true ->
  (0 <=? c) = true -> (c <=? c') = true -> (p <=? p') = true ->
  (compute_self_consumed_kwh g c p <=? compute_self_consumed_kwh g' c' p') = true.
Proof.
  intros Ag Ag' Lg Pc Lc Lp.
  apply leb_iff in Lg, Lc, Lp. apply leb_zero_iff in Pc.
  destruct Lg as (_ & _ & Lg), Lc as (Nc & Nc' & Lc), Lp as (Np & Np' & Lp), Pc as [_ Pc].
  pose proof Ag as A. apply amount_iff in A. destruct A as [Fg Pg].
  pose proof Ag' as A'. apply amount_iff in A'. destruct A' as [Fg' Pg'].
  assert (Pc' : (0 <= value c')%R) by lra.
  destruct (self_consumed_range g c p Fg Pg Nc Pc) as (Fs & _).
  destruct (self_consumed_range g' c' p' Fg' Pg' Nc' Pc') as (Fs' & _).
  cbv zeta in Fs, Fs'.
  apply leb_of_values; auto using finite_not_nan.
  now apply allocation_mono.
Qed.

Lemma allocator_monotone_witness :
  (amount 4500 = true /\ amount 7000 = true /\ (4500 <=? 7000) = true /\
   (0 <=? 4000) = true /\ (4000 <=? 4200) = true /\ (30 <=? 35) = true) /\
  (compute_self_consumed_kwh 4500 4000 30 <=? compute_self_consumed_kwh 7000 4200 35) = true.
Proof.
  split; [repeat split|].
  exact (allocator_monotone 4500 7000 4000 4200 30 35
           eq_refl eq_refl eq_refl eq_refl eq_refl eq_refl).
Defined.

(** ** The payback is monotone *)

(** X15: for finite positive investments and yearly cash flows, a higher
    investment or a lower cash flow never shortens the payback period. *)
Theorem payback_monotone (i i' a a' : float) :
  is_finite i = true -> is_finite i' = true ->
  is_finite a = true -> is_finite a' = true ->
  (0 <? i) = true -> (i <=? i') = true ->
  (0 <? a') = true -> (a' <=? a) = true ->
  exists y y', payback_years i a = Some y /\ payback_years i' a' = Some y' /\
               (y <=? y') = true.
Proof.
  intros Fi Fi' Fa Fa' Pi Li Pa' La.
  apply ltb_iff in Pi, Pa'. apply leb_iff in Li, La. rewrite value_zero in *.
  destruct Pi as (_ & Ni & Pi), Pa' as (_ & Na' & Pa'),
           Li as (_ & Ni' & Li), La as (_ & Na & La).
  assert (Pi' : (0 < value i')%R) by lra. assert (Pa : (0 < value a)%R) by lra.
  assert (E : forall x, is_nan x = false -> (0 < value x)%R -> (x <=? 0) = false).
  { intros x Nx Px. apply leb_false_iff. right; right. now rewrite value_zero. }
  exists (i / a), (i' / a'). unfold payback_years.
  rewrite (E i Ni Pi), (E a Na Pa), (E i' Ni' Pi'), (E a' Na' Pa').
  split; [reflexivity|]. split; [reflexivity|].
  destruct (div_nonneg i a Ni (Rlt_le _ _ Pi) Na Pa (or_introl Fi)) as [N _].
  destruct (div_nonneg i' a' Ni' (Rlt_le _ _ Pi') Na' Pa' (or_introl Fi')) as [N' _].
  apply leb_of_values; auto.
  apply div_mono; auto; lra.
Qed.

Lemma payback_monotone_witness :
  (is_finite 1200 = true /\ is_finite 5200 = true /\
   is_finite 927 = true /\ is_finite 542.25 = true /\
   (0 <? 1200) = true /\ (1200 <=? 5200) = true /\
   (0 <? 542.25) = true /\ (542.25 <=? 927) = true) /\
  exists y y', payback_years 1200 927 = Some y /\ payback_years 5200 542.25 = Some y' /\
               (y <=? y') = true.
Proof.
  split; [repeat split|].
  exact (payback_monotone 1200 5200 927 542.25
           eq_refl eq_refl eq_refl eq_refl eq_refl eq_refl eq_refl eq_refl).
Defined.

(** ** The recommendation *)

Lemma max_key_from_not_nan {A : Type} (key : A -> float) (l : list A) :
  forall best, is_nan (key best) = false ->
               is_nan (key (Py.max_key_from key best l)) = false.
Proof.
  induction l as [|x l IH]; intros best N; simpl; [assumption|].
  destruct (key best <? key x) eqn:E; apply IH; [|assumption].
  apply ltb_iff in E. tauto.
Qed.

(** X16: for a finite old generation >= 0 and a finite market value >= 0,
    whatever the other inputs are, [best_20] is one of the four results and
    its 20-year total is a number that is neither below the 20-year total
    of continued full feed-in nor below zero. *)
Theorem best_20_not_below_feed_in (i : App.Inputs) :
  amount (App.gen_old i) = true -> amount (App.market_ct i) = true ->
  exists b, App.best_20 (App.results i) = Some b /\
            In b (App.results i) /\
            (total_20y_eur (App.r1 i) <=? total_20y_eur b) = true /\
            (0 <=? total_20y_eur b) = true.
Proof.
  intros Ag Am.
  destruct (max_key_spec total_20y_eur (App.r1 i) [App.r2 i; App.r3 i; App.r4 i])
    as (pre & b & post & E & B & M & _).
  assert (K : is_nan (total_20y_eur (App.r1 i)) = false /\
              (0 <= value (total_20y_eur (App.r1 i)))%R).
  { unfold App.r1, variant1_full_feed_in. cbn [total_20y_eur].
    destruct (price_range _ Am) as [Fm Pm].
    apply amount_iff in Ag. destruct Ag as [Fg Pg].
    destruct (mul_nonneg (App.gen_old i) _ (finite_not_nan _ Fg) Pg (finite_not_nan _ Fm) Pm
                (or_introl Fg) (or_introl Fm)) as [N P].
    assert (P20 : (0 <= value 20)%R) by (rewrite value_twenty; lra).
    assert (P20' : (0 < value 20)%R) by (rewrite value_twenty; lra).
    exact (mul_nonneg 20 _ eq_refl P20 N P (or_introl finite_twenty) (or_intror P20')). }
  destruct K as [N1 P1].
  assert (Nb : is_nan (total_20y_eur b) = false).
  { pose proof (max_key_from_not_nan total_20y_eur [App.r2 i; App.r3 i; App.r4 i]
                  (App.r1 i) N1) as Nm.
    pose proof (f_equal (fun o => match o with
                                  | Some x => is_nan (total_20y_eur x)
                                  | None => false
                                  end) B) as B'.
    change (is_nan (total_20y_eur (Py.max_key_from total_20y_eur (App.r1 i)
                                     [App.r2 i; App.r3 i; App.r4 i]))
            = is_nan (total_20y_eur b)) in B'.
    now rewrite <- B'. }
  assert (L : (total_20y_eur (App.r1 i) <=? total_20y_eur b) = true).
  { apply not_below_leb; auto. apply M. now left. }
  exists b. split; [exact B|]. split.
  - unfold App.results. rewrite E. apply in_or_app. right. now left.
  - split; [exact L|]. apply leb_iff in L. destruct L as (_ & _ & L).
    apply leb_zero_iff. split; [assumption | lra].
Qed.

Lemma best_20_not_below_feed_in_witness :
  (amount (App.gen_old App.defaults) = true /\
   amount (App.market_ct App.defaults) = true) /\
  exists b, App.best_20 (App.results App.defaults) = Some b /\
            In b (App.results App.defaults) /\
            (total_20y_eur (App.r1 App.defaults) <=? total_20y_eur b) = true /\
            (0 <=? total_20y_eur b) = true.
Proof.
  split; [split; reflexivity|].
  exact (best_20_not_below_feed_in App.defaults eq_refl eq_refl).
Defined.

(** ** The sliders *)

(** X17: for every slider position [n] in 0..100, the share [float(n)] handed
    to an evaluator is left unchanged by the clamp: the allocator returns
    [min(generation * (float(n) / 100), consumption)] for every generation
    and consumption. *)
Theorem slider_share_unclamped (n : Z) (g c : float) :
  (0 <= n <= 100)%Z ->
  clamp (Py.float_of_int n) 0 100 = Py.float_of_int n /\
  compute_self_consumed_kwh g c (Py.float_of_int n)
    = Py.min (g * (Py.float_of_int n / 100)) c.
Proof.
  intros H.
  assert (A : forallb (fun k => let x := Py.float_of_int (Z.of_nat k) in
                         (0 <=? x) && (x <=? 100) && negb (x =? 0) || (k =? 0)%nat)
                      (seq 0 101) = true) by (vm_compute; reflexivity).
  rewrite forallb_forall in A. specialize (A (Z.to_nat n)).
  rewrite Z2Nat.id in A by lia. cbv zeta in A.
  assert (I : In (Z.to_nat n) (seq 0 101)) by (apply in_seq; lia).
  specialize (A I).
  assert (E : clamp (Py.float_of_int n) 0 100 = Py.float_of_int n).
  { destruct (Nat.eqb_spec (Z.to_nat n) 0) as [Z0|NZ].
    - assert (n = 0%Z) by lia. subst n. reflexivity.
    - rewrite orb_false_r in A. apply andb_prop in A. destruct A as [A A3].
      apply andb_prop in A. destruct A as [A1 A2].
      destruct (clamp_in_range _ A1 A2) as [C|[V C]]; [exact C|].
      exfalso. apply negb_true_iff in A3.
      apply leb_iff in A1. destruct A1 as (_ & Nx & _).
      rewrite (eqb_of_values _ 0 Nx eq_refl) in A3; [discriminate|].
      now rewrite value_zero. }
  split; [exact E|]. unfold compute_self_consumed_kwh. cbv zeta. now rewrite E.
Qed.

Lemma slider_share_unclamped_witness :
  (0 <= 30 <= 100)%Z /\
  compute_self_consumed_kwh 4500 4000 (Py.float_of_int 30)
    = Py.min (4500 * (Py.float_of_int 30 / 100)) 4000.
Proof.
  split; [lia|].
  exact (proj2 (slider_share_unclamped 30 4500 4000 ltac:(lia))).
Defined.

(** ** No payback, no break-even *)

(** X18: for a finite investment and a finite yearly cash flow, when
    [payback_years] returns [None] every point of the cash-flow curve is
    below zero and not above [-invest]: the chart shows no break-even. *)
Theorem no_payback_no_break_even (invest annual v : float) :
  is_finite invest = true -> is_finite annual = true ->
  payback_years invest annual = None ->
  In v (App.cashflow_curve invest annual) ->
  (v <=? - invest) = true /\ (v <? 0) = true.
Proof.
  intros Fi Fa P H. unfold payback_years in P.
  destruct (invest <=? 0) eqn:E1; [discriminate|].
  destruct (annual <=? 0) eqn:E2; [|discriminate].
  pose proof (finite_not_nan _ Fi) as Ni. pose proof (finite_not_nan _ Fa) as Na.
  apply leb_false_iff in E1. apply leb_iff in E2. rewrite value_zero in *.
  change (is_nan 0) with false in E1.
  assert (Pi : (0 < value invest)%R) by (destruct E1 as [E|[E|E]]; congruence || assumption).
  destruct E2 as (_ & _ & Pa).
  unfold App.cashflow_curve in H. apply in_map_iff in H. destruct H as (y & <- & Hy).
  destruct (years_members y Hy) as [Fy Py]. apply leb_zero_iff in Py. destruct Py as [Ny Py].
  pose proof (mul_finite_not_nan annual _ Fa Fy) as Nt.
  pose proof (mul_nonpos annual _ Fa Fy Pa Py) as Pt.
  assert (Fni : is_finite (- invest) = true) by now rewrite is_finite_opp.
  destruct (add_le_l (- invest) _ Fni Nt Pt) as [Ns Ls].
  rewrite value_opp in Ls.
  split.
  - apply leb_of_values; auto. now rewrite is_nan_opp. now rewrite value_opp.
  - apply ltb_iff. rewrite value_zero. repeat split; auto. lra.
Qed.

Lemma no_payback_no_break_even_witness :
  (is_finite 1200 = true /\ is_finite 0 = true /\
   payback_years 1200 0 = None /\
   In (- 1200 + 0 * 5) (App.cashflow_curve 1200 0)) /\
  (- 1200 + 0 * 5 <=? - 1200) = true /\ (- 1200 + 0 * 5 <? 0) = true.
Proof.
  assert (H : In (- 1200 + 0 * 5) (App.cashflow_curve 1200 0)).
  { right; right; right; right; right; left. reflexivity. }
  split; [split; [reflexivity|split; [reflexivity|split; [reflexivity|exact H]]]|].
  exact (no_payback_no_break_even 1200 0 _ eq_refl eq_refl eq_refl H).
Defined.

(** ** The formatted table *)

Local Open Scope string_scope.

(** ** Strings: replacement, digits, grouping *)

Lemma chars_app (a b : string) : chars (a ++ b) = (chars a ++ chars b)%list.
Proof. induction a as [|c a IH]; simpl; [reflexivity | now rewrite <- IH]. Qed.

Lemma string_app_assoc (a b c : string) : (a ++ b) ++ c = a ++ b ++ c.
Proof. induction a as [|d a IH]; simpl; [reflexivity | now rewrite IH]. Qed.

Lemma replace_char_app (old : ascii) (new a b : string) :
  PyStr.replace_char old new (a ++ b) =
  PyStr.replace_char old new a ++ PyStr.replace_char old new b.
Proof.
  induction a as [|c a IH]; simpl; [reflexivity|].
  destruct (Ascii.eqb c old); rewrite IH; [|reflexivity].
  symmetry. apply string_app_assoc.
Qed.

Lemma replace_char_absent (old : ascii) (new s : string) :
  ~ In old (chars s) -> PyStr.replace_char old new s = s.
Proof.
  induction s as [|c s IH]; simpl; intros H; [reflexivity|].
  destruct (Ascii.eqb_spec c old) as [E|_].
  - exfalso. apply H. now left.
  - rewrite IH; [reflexivity|]. intros K. apply H. now right.
Qed.

(** One pass that maps every character through a one-character
    replacement. *)
Lemma replace_char_single (old new : ascii) (s : string) :
  chars (PyStr.replace_char old (String new EmptyString) s) =
  map (fun c => if Ascii.eqb c old then new else c) (chars s).
Proof.
  unfold chars. induction s as [|c s IH]; simpl; [reflexivity|].
  destruct (Ascii.eqb c old); simpl; now rewrite IH.
Qed.

Lemma replace_char_delete (old : ascii) (s : string) :
  chars (PyStr.replace_char old EmptyString s) =
  filter (fun c => negb (Ascii.eqb c old)) (chars s).
Proof.
  unfold chars. induction s as [|c s IH]; simpl; [reflexivity|].
  destruct (Ascii.eqb c old); simpl; now rewrite IH.
Qed.

Lemma chars_inj (a b : string) : chars a = chars b -> a = b.
Proof.
  intros H. rewrite <- (string_of_list_ascii_of_string a),
    <- (string_of_list_ascii_of_string b). unfold chars in H. now rewrite H.
Qed.

(** The three replacements of [fmt_eur], on a string without [.] and [X]. *)
Lemma swap_separators (s : string) :
  ~ In "."%char (chars s) -> ~ In "X"%char (chars s) ->
  PyStr.replace_char "." "," (PyStr.replace_char "," "X" s) =
    PyStr.replace_char "," "X" s /\
  PyStr.replace_char "X" "." (PyStr.replace_char "." "," (PyStr.replace_char "," "X" s)) =
    PyStr.replace_char "," "." s.
Proof.
  intros Hd HX.
  assert (A : PyStr.replace_char "." "," (PyStr.replace_char "," "X" s) =
              PyStr.replace_char "," "X" s).
  { apply replace_char_absent. rewrite replace_char_single.
    intros K. apply in_map_iff in K. destruct K as (c & E & K).
    destruct (Ascii.eqb_spec c ","%char); [discriminate E|].
    subst c. now apply Hd. }
  split; [exact A|]. rewrite A.
  apply chars_inj. rewrite !replace_char_single, map_map.
  apply map_ext_in. intros c Hc.
  destruct (Ascii.eqb_spec c ","%char) as [E|N]; [reflexivity|].
  destruct (Ascii.eqb_spec c "X"%char) as [E|_]; [|reflexivity].
  subst c. now destruct HX.
Qed.

Lemma digits_of_uint (u : Decimal.uint) :
  Forall (fun c => is_digit c = true) (chars (NilEmpty.string_of_uint u)).
Proof.
  induction u; simpl; constructor; try reflexivity; assumption.
Qed.

Lemma digits_of_decimal (n : N) :
  Forall (fun c => is_digit c = true) (chars (PyStr.decimal n)).
Proof.
  unfold PyStr.decimal, NilZero.string_of_uint.
  destruct (N.to_uint n) eqn:E; try apply (digits_of_uint (_ u)).
  repeat constructor.
Qed.

Lemma chars_of_list (l : list ascii) : chars (string_of_list_ascii l) = l.
Proof. apply list_ascii_of_string_of_list_ascii. Qed.

Lemma group_rev_chars (l : list ascii) (k : nat) (c : ascii) :
  In c (PyStr.group_rev k l) -> c = ","%char \/ In c l.
Proof.
  revert k. induction l as [|d l IH]; simpl; intros k H; [contradiction|].
  destruct (Nat.eqb k 3); simpl in H.
  - destruct H as [H|[H|H]]; auto. apply IH in H. tauto.
  - destruct H as [H|H]; auto. apply IH in H. tauto.
Qed.

Lemma group_rev_filter (l : list ascii) (k : nat) :
  ~ In ","%char l ->
  filter (fun c => negb (Ascii.eqb c ",")) (PyStr.group_rev k l) = l.
Proof.
  revert k. induction l as [|d l IH]; simpl; intros k H; [reflexivity|].
  assert (Hd : Ascii.eqb d "," = false).
  { destruct (Ascii.eqb_spec d ","%char) as [E|_]; [|reflexivity].
    exfalso. apply H. now left. }
  assert (Hl : ~ In ","%char l) by (intros K; apply H; now right).
  destruct (Nat.eqb k 3); simpl; rewrite Hd; simpl; now rewrite IH.
Qed.

Lemma group_thousands_chars (s : string) (c : ascii) :
  In c (chars (PyStr.group_thousands s)) -> c = ","%char \/ In c (chars s).
Proof.
  unfold PyStr.group_thousands. rewrite chars_of_list. intros H.
  apply in_rev, group_rev_chars in H. destruct H as [H|H]; [now left|].
  right. now apply in_rev in H.
Qed.

Lemma filter_rev {A : Type} (f : A -> bool) (l : list A) :
  filter f (rev l) = rev (filter f l).
Proof.
  induction l as [|a l IH]; simpl; [reflexivity|].
  rewrite filter_app, IH. simpl. destruct (f a); simpl;
    [reflexivity | now rewrite app_nil_r].
Qed.

(** Taking the separators out again gives the digits back. *)
Lemma group_thousands_ungroup (s : string) :
  ~ In ","%char (chars s) ->
  PyStr.replace_char "," EmptyString (PyStr.group_thousands s) = s.
Proof.
  intros H. apply chars_inj. rewrite replace_char_delete.
  unfold PyStr.group_thousands. rewrite chars_of_list, filter_rev, group_rev_filter.
  - apply rev_involutive.
  - intros K. apply H. now apply in_rev.
Qed.

Lemma digit_not (c d : ascii) : is_digit d = false -> is_digit c = true -> c <> d.
Proof. intros Hd Hc E. subst. congruence. Qed.

Lemma decimal_without (n : N) (d : ascii) :
  is_digit d = false -> ~ In d (chars (PyStr.decimal n)).
Proof.
  intros Hd K. pose proof (digits_of_decimal n) as F.
  rewrite Forall_forall in F. apply F in K. congruence.
Qed.

(** The characters [format(x, ',.0f')] can produce. *)
Lemma format_f0_grouped_chars (x : float) (c : ascii) :
  In c (chars (PyStr.format_f0_grouped x)) ->
  is_digit c = true \/ In c (chars ",-infa").
Proof.
  unfold PyStr.format_f0_grouped.
  destruct (Prim2SF x) as [s| s| |s m e].
  - destruct s; simpl; intuition (subst; auto).
  - destruct s; simpl; intuition (subst; auto).
  - simpl; intuition (subst; auto).
  - rewrite chars_app. intros H. apply in_app_or in H. destruct H as [H|H].
    + destruct s; simpl in H; [|contradiction].
      destruct H as [H|[]]. subst. right. simpl. tauto.
    + apply group_thousands_chars in H. destruct H as [H|H].
      * subst. right. simpl. tauto.
      * left. pose proof (digits_of_decimal (PyStr.round_half_even m e)) as F.
        rewrite Forall_forall in F. now apply F.
Qed.

Lemma format_f0_grouped_without (x : float) (d : ascii) :
  is_digit d = false -> ~ In d (chars ",-infa") ->
  ~ In d (chars (PyStr.format_f0_grouped x)).
Proof.
  intros Hd Hn K. apply format_f0_grouped_chars in K.
  destruct K as [K|K]; [congruence | now apply Hn].
Qed.

(** X19: the separator swap of [fmt_eur] amounts to turning every [,] of the
    formatted number into [.]: the placeholder [X] never meets an [X] of
    the text, the middle replacement finds no [.] to change, and the
    result holds neither a [,] nor an [X]. *)
Theorem fmt_eur_separators (x : float) :
  fmt_eur x = PyStr.replace_char "," "." (PyStr.format_f0_grouped x) ++ " €" /\
  PyStr.replace_char "." "," (PyStr.replace_char "," "X" (PyStr.format_f0_grouped x ++ " €")) =
    PyStr.replace_char "," "X" (PyStr.format_f0_grouped x ++ " €") /\
  ~ In ","%char (list_ascii_of_string (fmt_eur x)) /\
  ~ In "X"%char (list_ascii_of_string (fmt_eur x)).
Proof.
  assert (Hd : ~ In "."%char (chars (PyStr.format_f0_grouped x ++ " €"))).
  { rewrite chars_app. intros K. apply in_app_or in K. destruct K as [K|K].
    - revert K. apply format_f0_grouped_without; [reflexivity|].
      simpl. intuition discriminate.
    - simpl in K. intuition discriminate. }
  assert (HX : ~ In "X"%char (chars (PyStr.format_f0_grouped x ++ " €"))).
  { rewrite chars_app. intros K. apply in_app_or in K. destruct K as [K|K].
    - revert K. apply format_f0_grouped_without; [reflexivity|].
      simpl. intuition discriminate.
    - simpl in K. intuition discriminate. }
  destruct (swap_separators _ Hd HX) as [A B].
  assert (E : fmt_eur x =
              PyStr.replace_char "," "." (PyStr.format_f0_grouped x) ++ " €").
  { unfold fmt_eur. cbv zeta. rewrite B, replace_char_app. reflexivity. }
  split; [exact E|]. split; [exact A|].
  unfold fmt_eur. cbv zeta. rewrite B. fold (chars (PyStr.replace_char "," "." (PyStr.format_f0_grouped x ++ " €"))).
  rewrite replace_char_single. split; intros K; apply in_map_iff in K;
    destruct K as (c & Ec & K).
  - destruct (Ascii.eqb_spec c ","%char); [discriminate Ec|]. congruence.
  - destruct (Ascii.eqb_spec c ","%char); [discriminate Ec|]. subst c. now apply HX.
Qed.

(** X20: for a finite non-zero amount, the output of [fmt_eur] without its
    separator dots is the sign, the decimal digits of the amount rounded
    half-to-even to an integer, and the currency suffix: the dots are only
    ever thousands separators and no digit is lost or changed. *)
Theorem fmt_eur_digits (x : float) (s : bool) (m : positive) (e : Z) :
  Prim2SF x = S754_finite s m e ->
  PyStr.replace_char "." EmptyString (fmt_eur x) =
  PyStr.sign s ++ PyStr.decimal (PyStr.round_half_even m e) ++ " €".
Proof.
  intros H.
  assert (Hd : ~ In "."%char (chars (PyStr.format_f0_grouped x ++ " €"))).
  { rewrite chars_app. intros K. apply in_app_or in K. destruct K as [K|K].
    - revert K. apply format_f0_grouped_without; [reflexivity|].
      simpl. intuition discriminate.
    - simpl in K. intuition discriminate. }
  assert (HX : ~ In "X"%char (chars (PyStr.format_f0_grouped x ++ " €"))).
  { rewrite chars_app. intros K. apply in_app_or in K. destruct K as [K|K].
    - revert K. apply format_f0_grouped_without; [reflexivity|].
      simpl. intuition discriminate.
    - simpl in K. intuition discriminate. }
  destruct (swap_separators _ Hd HX) as [_ B].
  unfold fmt_eur. cbv zeta. rewrite B. clear B HX.
  assert (C : forall t, ~ In "."%char (chars t) ->
              PyStr.replace_char "." EmptyString (PyStr.replace_char "," "." t) =
              PyStr.replace_char "," EmptyString t).
  { intros t Ht. apply chars_inj.
    rewrite !replace_char_delete, replace_char_single.
    induction (chars t) as [|c l IH]; simpl; [reflexivity|].
    assert (Hl : ~ In "."%char l) by (intros K; apply Ht; now right).
    destruct (Ascii.eqb_spec c ","%char) as [E|N]; simpl.
    - now apply IH.
    - destruct (Ascii.eqb_spec c "."%char) as [E|_]; simpl.
      + exfalso. apply Ht. now left.
      + f_equal. now apply IH. }
  rewrite (C _ Hd). unfold PyStr.format_f0_grouped. rewrite H.
  rewrite !replace_char_app.
  rewrite group_thousands_ungroup by (apply decimal_without; reflexivity).
  destruct s; reflexivity.
Qed.

Lemma fmt_eur_digits_witness :
  Prim2SF 1234567.5 = S754_finite false 5302427037204480 (-32) /\
  PyStr.replace_char "." EmptyString (fmt_eur 1234567.5) = "1234568 €".
Proof.
  split; [reflexivity|].
  exact (fmt_eur_digits 1234567.5 false 5302427037204480 (-32) eq_refl).
Defined.

(** X21: the payback cell of the table shows the dash exactly when the
    investment is not covered ([invest <= 0] fails) and the yearly cash
    flow is zero or negative; in every other case it shows a number
    followed by the unit. *)
Theorem payback_cell_dash (invest annual : float) :
  (fmt_years (payback_years invest annual) = "—" <->
   (invest <=? 0)%float = false /\ (annual <=? 0)%float = true) /\
  (fmt_years (payback_years invest annual) <> "—" ->
   exists y, payback_years invest annual = Some y /\
             fmt_years (payback_years invest annual) = PyStr.format_f1 y ++ " J").
Proof.
  assert (N : forall y, fmt_years (Some y) <> "—").
  { intros y. simpl. 
    destruct (PyStr.format_f1 y) as [|a [|b [|c t]]]; simpl; try discriminate.
    destruct t; discriminate. }
  unfold payback_years.
  destruct (invest <=? 0)%float; [|destruct (annual <=? 0)%float].
  - split; [split; [intros K; now apply N in K | intros [K _]; discriminate K]|].
    intros _. eexists. split; reflexivity.
  - split; [split; [auto | reflexivity]|]. intros K. now contradiction K.
  - split; [split; [intros K; now apply N in K | intros [_ K]; discriminate K]|].
    intros _. eexists. split; reflexivity.
Qed.

Lemma payback_cell_dash_witness :
  ((1200 <=? 0)%float = false /\ (0 <=? 0)%float = true) /\
  fmt_years (payback_years 1200 0) = "—".
Proof.
  split; [split; reflexivity|].
  exact (proj2 (proj1 (payback_cell_dash 1200 0)) (conj eq_refl eq_refl)).
Defined.

(** ** The table and the chart data as dicts *)

Lemma dict_set_fresh {V : Type} (k : string) (v : V) (d : list (string * V)) :
  ~ In k (map fst d) -> PyStr.dict_set k v d = (d ++ [(k, v)])%list.
Proof.
  induction d as [|[k' v'] d IH]; simpl; intros H; [reflexivity|].
  destruct (String.eqb_spec k k') as [E|_].
  - exfalso. apply H. left. now symmetry.
  - rewrite IH; [reflexivity|]. intros K. apply H. now right.
Qed.

Lemma fold_dict_set_fresh {V : Type} (items acc : list (string * V)) :
  NoDup (map fst (acc ++ items)%list) ->
  fold_left (fun d kv => PyStr.dict_set (fst kv) (snd kv) d) items acc =
  (acc ++ items)%list.
Proof.
  revert acc. induction items as [|[k v] items IH]; intros acc H; simpl.
  - now rewrite app_nil_r.
  - rewrite dict_set_fresh.
    + rewrite IH; rewrite <- app_assoc; [reflexivity | exact H].
    + rewrite map_app in H. simpl in H. apply NoDup_remove_2 in H.
      intros K. apply H. apply in_or_app. now left.
Qed.

Lemma dict_of_items_distinct {V : Type} (items : list (string * V)) :
  NoDup (map fst items) -> PyStr.dict_of_items items = items.
Proof. intros H. unfold PyStr.dict_of_items. now rewrite fold_dict_set_fresh. Qed.

Lemma table_dict_items (rs : list Result) :
  Table.table_dict rs =
  PyStr.dict_of_items (map (fun r => (name r, Table.column r)) rs).
Proof.
  unfold Table.table_dict, PyStr.dict_of_items.
  generalize (@nil (string * list (string * string))).
  induction rs as [|r rs IH]; intros acc; simpl; [reflexivity | apply IH].
Qed.

Lemma results_names (i : App.Inputs) :
  map name (App.results i) =
  [ "V1 Volleinspeisung (Marktwert)";
    "V2 Eigenverbrauch (ohne Speicher)";
    "V3 Eigenverbrauch + Speicher";
    "V4 Neuanlage (EEG + EV)" ].
Proof. reflexivity. Qed.

Lemma results_names_distinct (i : App.Inputs) : NoDup (map name (App.results i)).
Proof.
  rewrite results_names.
  repeat (constructor; [simpl; intuition discriminate|]). constructor.
Qed.

(** X22: for every input, no column is lost to a repeated key: the table has
    the four variants as its columns, in evaluation order, each with the
    five metrics of [metrics_order] in that order, and the chart data has
    one series per variant under the same keys. *)
Theorem table_has_all_variants (i : App.Inputs) :
  Table.table_dict (App.results i) =
    map (fun r => (name r, Table.column r)) (App.results i) /\
  Table.line_dict (App.results i) = App.df_line (App.results i) /\
  (forall r, map fst (Table.column r) = Table.metrics_order) /\
  (forall r k, In k Table.metrics_order ->
     exists v, PyStr.dict_get k (Table.column r) = Some v).
Proof.
  pose proof (results_names_distinct i) as D.
  split; [|split; [|split]].
  - rewrite table_dict_items. apply dict_of_items_distinct.
    now rewrite map_map.
  - unfold Table.line_dict, App.df_line. apply dict_of_items_distinct.
    now rewrite map_map.
  - intros r. reflexivity.
  - intros r k Hk. simpl in Hk.
    destruct Hk as [E|[E|[E|[E|[E|[]]]]]]; subst k; eexists; reflexivity.
Qed.

Lemma table_has_all_variants_witness :
  In "Amortisation" Table.metrics_order /\
  exists v, PyStr.dict_get "Amortisation" (Table.column (App.r2 App.defaults)) = Some v.
Proof.
  assert (H : In "Amortisation" Table.metrics_order).
  { right; right; right; left. reflexivity. }
  split; [exact H|].
  exact (proj2 (proj2 (proj2 (table_has_all_variants App.defaults)))
           (App.r2 App.defaults) "Amortisation" H).
Defined.
